(** * qbs: the reversible schema-and-data migration engine

    A shallow embedding of the schema driver of [iansmith/qbs]
    (the [Schema] type with [Run], [migrate], the rename/shadow protocol,
    the column-name trap, [FindAll], [Save], [structPair] and
    [checkLogicalName]) together with the part of [Migration] the driver
    consumes ([Begin], [Rollback], [Commit], [Close], [CreateTable],
    [DropTable], [RenameTable]).

    Go strings are byte strings ([string]); the two registries of a
    [Schema] are Go maps and are modelled as [gmap string nameStructPair];
    panics are an explicit outcome; the database and the mapper behind it
    are an oracle that answers every call from the world in which the call
    is made, which holds the trace of the calls made so far. *)

From Stdlib Require Import ZArith Ascii String List Lia Bool.
From stdpp Require Import base option list strings gmap fin_maps.

#[local] Set Warnings "-register-all".
Local Open Scope string_scope.
Local Open Scope list_scope.
Local Open Scope Z_scope.

(** ** Go strings *)

Module GoStrings.

Definition byte_between (lo hi c : ascii) : bool :=
  (N.leb (N_of_ascii lo) (N_of_ascii c)) && (N.leb (N_of_ascii c) (N_of_ascii hi)).

Definition add32 (c : ascii) : ascii := ascii_of_N (N_of_ascii c + 32).
Definition sub32 (c : ascii) : ascii := ascii_of_N (N_of_ascii c - 32).

(** [toSnake]: an upper-case ASCII letter becomes its lower-case letter,
    preceded by an underscore unless it is the first byte. *)
Fixpoint toSnake_at (i_pos : bool) (s : string) : string :=
  match s with
  | EmptyString => EmptyString
  | String c rest =>
      if byte_between "A" "Z" c then
        if i_pos then String "_" (String (add32 c) (toSnake_at true rest))
        else String (add32 c) (toSnake_at true rest)
      else String c (toSnake_at true rest)
  end.

Definition toSnake (s : string) : string := toSnake_at false s.

(** [snakeToUpperCamel]: the flag [first] starts true and is set again by
    every underscore, which is dropped. *)
Fixpoint snakeToUpperCamel_at (first : bool) (s : string) : string :=
  match s with
  | EmptyString => EmptyString
  | String c rest =>
      if byte_between "a" "z" c && first then
        String (sub32 c) (snakeToUpperCamel_at false rest)
      else if Ascii.eqb c "_" then snakeToUpperCamel_at true rest
      else String c (snakeToUpperCamel_at first rest)
  end.

Definition snakeToUpperCamel (s : string) : string := snakeToUpperCamel_at true s.

(** [strings.ToLower] on ASCII bytes. *)
Fixpoint ToLower (s : string) : string :=
  match s with
  | EmptyString => EmptyString
  | String c rest =>
      String (if byte_between "A" "Z" c then add32 c else c) (ToLower rest)
  end.

(** [strings.HasSuffix(s, suffix)]:
    [len(s) >= len(suffix) && s[len(s)-len(suffix):] == suffix]. *)
Definition HasSuffix (s suffix : string) : bool :=
  (String.length suffix <=? String.length s)%nat &&
  String.eqb (substring (String.length s - String.length suffix)
                        (String.length suffix) s) suffix.

(** [strings.Index(s, sep)] for a non-empty [sep]. *)
Definition Index (s sep : string) : option nat := String.index 0 sep s.

(** [strings.SplitN(s, sep, 2)] for a non-empty [sep]: cut at the first
    occurrence of [sep], or return [s] alone. *)
Definition SplitN2 (s sep : string) : list string :=
  match Index s sep with
  | None => [s]
  | Some m =>
      [substring 0 m s;
       substring (m + String.length sep)
                 (String.length s - (m + String.length sep)) s]
  end.

Definition digit_of (c : ascii) : option Z :=
  if byte_between "0" "9" c
  then Some (Z.of_N (N_of_ascii c) - 48)
  else None.

(** [strconv.ParseUint(s, 10, 64)] without the range check, which
    [ParseInt] repeats with its own cutoff: [None] is a syntax error. *)
Fixpoint parse_digits (acc : Z) (s : string) : option Z :=
  match s with
  | EmptyString => Some acc
  | String c rest =>
      match digit_of c with
      | Some d => parse_digits (acc * 10 + d) rest
      | None => None
      end
  end.

Definition ParseUint10 (s : string) : option Z :=
  match s with
  | EmptyString => None
  | _ => parse_digits 0 s
  end.

(** [strconv.ParseInt(s, 10, 64)]: [None] stands for a non-nil [err]. *)
Definition ParseInt10_64 (s : string) : option Z :=
  match s with
  | EmptyString => None
  | String c rest =>
      let '(neg, body) :=
        if Ascii.eqb c "+" then (false, rest)
        else if Ascii.eqb c "-" then (true, rest)
        else (false, s) in
      match ParseUint10 body with
      | None => None
      | Some un =>
          let cutoff := 2 ^ 63 in
          if negb neg && (cutoff <=? un) then None
          else if neg && (cutoff <? un) then None
          else Some (if neg then - un else un)
      end
  end.

End GoStrings.

Import GoStrings.

(** ** Values seen through [reflect] *)

Inductive gotype : Type :=
| TStruct (name : string) (fields : list string)
| TPtr (elem : gotype)
| TSlice (elem : gotype)
| TOther (name : string).

(** A record value carries, beside its type, what its fields hold: the
    fields that are not zero, each with its value as printed; a zero
    record holds none. *)
Inductive govalue : Type :=
| VStruct (name : string) (fields : list string) (contents : list (string * string))
| VPtr (target : govalue)
| VNilPtr (elem : gotype)
| VSlice (elem : gotype) (items : list govalue)
| VOther (name : string).

(** An [interface{}]: [None] is the nil interface. *)
Abbreviation iface := (option govalue).

Fixpoint type_of (v : govalue) : gotype :=
  match v with
  | VStruct n fs _ => TStruct n fs
  | VPtr target => TPtr (type_of target)
  | VNilPtr elem => TPtr elem
  | VSlice elem _ => TSlice elem
  | VOther n => TOther n
  end.

Definition zero_value (t : gotype) : govalue :=
  match t with
  | TStruct n fs => VStruct n fs []
  | TPtr elem => VNilPtr elem
  | TSlice elem => VSlice elem []
  | TOther n => VOther n
  end.

Inductive kind := Struct | Ptr | Slice | OtherKind.

Definition Kind (t : gotype) : kind :=
  match t with
  | TStruct _ _ => Struct
  | TPtr _ => Ptr
  | TSlice _ => Slice
  | TOther _ => OtherKind
  end.

Definition kind_eqb (a b : kind) : bool :=
  match a, b with
  | Struct, Struct | Ptr, Ptr | Slice, Slice | OtherKind, OtherKind => true
  | _, _ => false
  end.

(** [Type.Name()]: the unqualified name of a defined type; unnamed
    (pointer, slice) types have the empty name. *)
Definition Name (t : gotype) : string :=
  match t with
  | TStruct n _ => n
  | TOther n => n
  | TPtr _ | TSlice _ => ""
  end.

(** ** Errors, panics and outcomes *)

Inductive error : Type := mkError (msg : string).

Definition Error (e : error) : string := let 'mkError m := e in m.

(** The value a panic carries: a string ([panic("...")]), an error
    ([panic(err)]) or a run-time error raised by the Go runtime or by
    [reflect]. *)
Inductive panicval : Type :=
| PString (s : string)
| PError (e : error)
| PRuntime (s : string).

(** [fmt.Sprintf("%v", x)]. *)
Definition Sprintf_v (x : panicval) : string :=
  match x with
  | PString s => s
  | PError e => Error e
  | PRuntime s => s
  end.

Inductive outcome (A : Type) : Type :=
| Normal (a : A)
| Panicked (x : panicval).
Arguments Normal {A} a.
Arguments Panicked {A} x.

Definition zero_Value_Type : panicval :=
  PRuntime "reflect: call of reflect.Value.Type on zero Value".
Definition nil_dereference : panicval :=
  PRuntime "runtime error: invalid memory address or nil pointer dereference".
Definition index_out_of_range : panicval :=
  PRuntime "runtime error: index out of range".

(** ** The record introspector *)

Record nameStructPair : Type := mkPair { name : string; typeRep : govalue }.

(** [Value.Elem()] of a pointer: [None] is the zero Value got from a nil
    pointer. *)
Definition Elem (v : govalue) : option govalue :=
  match v with
  | VPtr target => Some target
  | _ => None
  end.

Definition elem_type (t : gotype) : gotype :=
  match t with
  | TPtr e | TSlice e => e
  | _ => t
  end.

Definition slice_items (v : govalue) : list govalue :=
  match v with
  | VSlice _ items => items
  | _ => []
  end.

Definition structPair (i : iface) : outcome nameStructPair :=
  match i with
  | None => Panicked zero_Value_Type
  | Some v =>
      let t := type_of v in
      if negb (kind_eqb (Kind t) Ptr) then
        Panicked (PString "expected a POINTER to a slice of pointers to structs or POINTER to struct")
      else
        match Elem v with
        | None => Panicked zero_Value_Type
        | Some v2 =>
            let e := type_of v2 in
            if negb (kind_eqb (Kind e) Slice) && negb (kind_eqb (Kind e) Struct) then
              Panicked (PString "expected a pointer to a SLICE of pointers to structs or pointer to STRUCT")
            else if kind_eqb (Kind e) Struct then
              Normal (mkPair (Name e) v)
            else
              let first : outcome govalue :=
                match slice_items v2 with
                | [] =>
                    let elemOfSliceType := elem_type e in
                    if negb (kind_eqb (Kind elemOfSliceType) Ptr) then
                      Panicked (PString "expected a pointer to slice of POINTERS to structs")
                    else Normal (VPtr (zero_value (elem_type elemOfSliceType)))
                | x :: _ => Normal x
                end in
              match first with
              | Panicked x => Panicked x
              | Normal v' =>
                  let p := type_of v' in
                  if negb (kind_eqb (Kind p) Ptr) then
                    Panicked (PString "expected a pointer to a slice of POINTERS to structs")
                  else
                    match Elem v' with
                    | None => Panicked zero_Value_Type
                    | Some v2' =>
                        let s := type_of v2' in
                        if negb (kind_eqb (Kind s) Struct) then
                          Panicked (PString "expected a pointer to a slice of pointers to STRUCTS")
                        else Normal (mkPair (Name s) v')
                    end
              end
        end
  end.

(** [checkLogicalName]: [pieces[1]] is read without a length check. *)
Definition checkLogicalName (logical : string) (i : iface) : outcome unit :=
  match structPair i with
  | Panicked x => Panicked x
  | Normal pr =>
      let pieces := SplitN2 (name pr) "_migration" in
      match pieces with
      | [] => Panicked index_out_of_range
      | p0 :: tl =>
          if negb (String.eqb p0 logical) then
            Panicked (PString ("can't understand logical name " +:+ logical
                               +:+ " with struct " +:+ name pr))
          else
            match tl with
            | [] => Panicked index_out_of_range
            | p1 :: _ =>
                match ParseInt10_64 p1 with
                | None =>
                    Panicked (PString ("can't understand migration number " +:+ p1
                                       +:+ " in struct name " +:+ name pr))
                | Some _ => Normal tt
                end
            end
      end
  end.

(** [fieldsWithSuffix(structPtr, suffix)]: [reflect.TypeOf(structPtr).Elem()]
    must be a struct type ([NumField] panics otherwise). *)
Definition fieldsWithSuffix (structPtr : govalue) (suffix : string) : outcome (list string) :=
  match type_of structPtr with
  | TPtr t | TSlice t =>
      match t with
      | TStruct _ fields => Normal (List.filter (fun n => HasSuffix n suffix) fields)
      | _ => Panicked (PRuntime "reflect: NumField of non-struct type")
      end
  | _ => Panicked (PRuntime "reflect: Elem of invalid type")
  end.

Definition newline : string := String (ascii_of_N 10) EmptyString.

Definition OLD : string := "OLD".
Definition NEW : string := "NEW".

(** ** The world: package variables, the [Schema], its [Migration] *)

(** A function value held by [FieldNameToColumnName] or
    [ColumnNameToFieldName]: an ordinary function, or one of the two
    closures [trapColumnsForSqlite3] builds. *)
Inductive namefn : Type :=
| Fn (f : string -> string)
| TrapField (suffix : string)
| TrapColumn.

(** What the engine asks of the database and of the mapper. *)
Inductive call : Type :=
| DbBegin
| TxRollback
| TxCommit
| DbClose
| ExecRename (in_tx : bool) (oldname newname : string)
| ExecCreateTable (in_tx : bool) (table : string) (structPtr : govalue)
                  (omitFields : list string)
| ExecDropTable (in_tx : bool) (table : string)
| QbsFindAll (ptr : govalue) (omitFields : list string)
| QbsSave (record : govalue) (omitFields : list string).

Inductive response : Type :=
| ROk (id : Z) (rows : list govalue)
| RErr (e : error)
| RPanic (x : panicval).

(** What the outside observes, oldest first.  A call is recorded with the
    two column mappings in force when it was made. *)
Inductive event : Type :=
| Called (c : call) (field_map column_map : namefn) (r : response)
| Printf (s : string)
| PrintStack.

Record World : Type := mkWorld {
  (* package variables *)
  FieldNameToColumnName : namefn;
  ColumnNameToFieldName : namefn;
  (* Schema *)
  s_prev : gmap string nameStructPair;
  s_curr : gmap string nameStructPair;
  s_m : bool;                                  (* self.m != nil *)
  s_oldFieldNameToColumnName : option namefn;
  s_oldColumnNameToFieldName : option namefn;
  s_reverse : gmap string string;
  (* Migration *)
  mg_tx : bool;                                (* mg.tx != nil, and mg.qbs with it *)
  mg_sqlite3 : bool;                           (* mg.dialect is *sqlite3 *)
  (* observations *)
  trace : list event
}.

Definition set_names (f c : namefn) (w : World) : World :=
  mkWorld f c (s_prev w) (s_curr w) (s_m w)
          (s_oldFieldNameToColumnName w) (s_oldColumnNameToFieldName w)
          (s_reverse w) (mg_tx w) (mg_sqlite3 w) (trace w).

Definition set_registry (p c : gmap string nameStructPair) (w : World) : World :=
  mkWorld (FieldNameToColumnName w) (ColumnNameToFieldName w) p c (s_m w)
          (s_oldFieldNameToColumnName w) (s_oldColumnNameToFieldName w)
          (s_reverse w) (mg_tx w) (mg_sqlite3 w) (trace w).

Definition set_m (b : bool) (w : World) : World :=
  mkWorld (FieldNameToColumnName w) (ColumnNameToFieldName w)
          (s_prev w) (s_curr w) b
          (s_oldFieldNameToColumnName w) (s_oldColumnNameToFieldName w)
          (s_reverse w) (mg_tx w) (mg_sqlite3 w) (trace w).

Definition set_old (f c : option namefn) (w : World) : World :=
  mkWorld (FieldNameToColumnName w) (ColumnNameToFieldName w)
          (s_prev w) (s_curr w) (s_m w) f c
          (s_reverse w) (mg_tx w) (mg_sqlite3 w) (trace w).

Definition set_reverse (r : gmap string string) (w : World) : World :=
  mkWorld (FieldNameToColumnName w) (ColumnNameToFieldName w)
          (s_prev w) (s_curr w) (s_m w)
          (s_oldFieldNameToColumnName w) (s_oldColumnNameToFieldName w)
          r (mg_tx w) (mg_sqlite3 w) (trace w).

Definition set_tx (b : bool) (w : World) : World :=
  mkWorld (FieldNameToColumnName w) (ColumnNameToFieldName w)
          (s_prev w) (s_curr w) (s_m w)
          (s_oldFieldNameToColumnName w) (s_oldColumnNameToFieldName w)
          (s_reverse w) b (mg_sqlite3 w) (trace w).

Definition emit (e : event) (w : World) : World :=
  mkWorld (FieldNameToColumnName w) (ColumnNameToFieldName w)
          (s_prev w) (s_curr w) (s_m w)
          (s_oldFieldNameToColumnName w) (s_oldColumnNameToFieldName w)
          (s_reverse w) (mg_tx w) (mg_sqlite3 w) (trace w ++ [e]).

(** ** Computations that change the world and may panic *)

Definition M (A : Type) : Type := World -> World * outcome A.

Definition ret {A} (a : A) : M A := fun w => (w, Normal a).
Definition panic {A} (x : panicval) : M A := fun w => (w, Panicked x).
Definition bind {A B} (c : M A) (k : A -> M B) : M B :=
  fun w =>
    match c w with
    | (w', Normal a) => k a w'
    | (w', Panicked x) => (w', Panicked x)
    end.
Definition lift {A} (o : outcome A) : M A := fun w => (w, o).
Definition update (f : World -> World) : M unit := fun w => (f w, Normal tt).
Definition read {A} (f : World -> A) : M A := fun w => (w, Normal (f w)).

Notation "'let*' x ':=' c 'in' k" := (bind c (fun x => k))
  (at level 10, x name, c at level 100, k at level 200).
Notation "c >> k" := (bind c (fun _ => k))
  (at level 65, right associativity).

(** A Go loop [for ... range xs] whose body may [return err]. *)
Fixpoint range_err {A} (body : A -> M (option error)) (xs : list A) : M (option error) :=
  match xs with
  | [] => ret None
  | x :: rest =>
      let* e := body x in
      match e with
      | Some err => ret (Some err)
      | None => range_err body rest
      end
  end.

(** A Go loop [for ... range xs] whose body returns nothing. *)
Fixpoint range_do {A} (body : A -> M unit) (xs : list A) : M unit :=
  match xs with
  | [] => ret tt
  | x :: rest => body x >> range_do body rest
  end.

(** ** Programs of a migration step

    What the user's [Structure] and [Data] functions do with the [Schema]
    they are handed: they call [ChangeTable], [FindAll] and [Save], go on
    from each answer, and in the end return or panic.  A part of a step
    may run under a deferred [recover] of its own: when the part panics,
    the handler goes on from the value of the panic. *)
Inductive Prog (R : Type) : Type :=
| Return (r : R)
| PanicWith (x : panicval)
| CallChangeTable (logicalName : string) (prev_raw curr_raw : iface)
                  (k : option error -> Prog R)
| CallFindAll (logicalName : string) (k : iface * option error -> Prog R)
| CallSave (logicalName : string) (curr : iface) (k : Z * option error -> Prog R)
| Recover (body : Prog R) (handler : panicval -> Prog R).
Arguments Return {R} r.
Arguments PanicWith {R} x.
Arguments CallChangeTable {R} logicalName prev_raw curr_raw k.
Arguments CallFindAll {R} logicalName k.
Arguments CallSave {R} logicalName curr k.
Arguments Recover {R} body handler.

Record ReversibleMigration : Type := mkStep {
  Structure : Prog (option error);
  Data : bool -> bool -> Prog (Z * option error)
}.

(** [SimpleMigration]: either function may be nil. *)
Record SimpleMigration : Type := mkSimple {
  S_fn : option (Prog (option error));
  D_fn : option (bool -> bool -> Prog (Z * option error))
}.

Definition SimpleMigration_step (sm : SimpleMigration) : ReversibleMigration :=
  mkStep (match S_fn sm with None => Return None | Some f => f end)
         (fun haveDropCol reverse =>
            match D_fn sm with
            | None => Return (0, None)
            | Some f => f haveDropCol reverse
            end).

Definition All (l : list SimpleMigration) : list ReversibleMigration :=
  map SimpleMigration_step l.

(** ** The engine *)

Section Engine.

(** The database and the mapper behind it: the answer to a call, given
    the world in which it is made. *)
Variable drv : World -> call -> response.

(** The package variable [StructNameToTableName] ([toSnake] unless the
    application rebinds it); the engine reads it and never assigns it. *)
Variable StructNameToTableName : string -> string.

Definition ask (c : call) : M response :=
  fun w =>
    let r := drv w c in
    (emit (Called c (FieldNameToColumnName w) (ColumnNameToFieldName w) r) w,
     Normal r).

(** Every method of [Migration] starts by reading a field of its
    receiver, which [Schema.Close] has set to nil. *)
Definition deref_m : M unit :=
  fun w => if s_m w then (w, Normal tt) else (w, Panicked nil_dereference).

(** *** [Migration] *)

Definition Begin : M unit :=
  deref_m >>
  let* r := ask DbBegin in
  match r with
  | RErr e => panic (PString ("Unable to start transaction in migration : %s" +:+ Error e))
  | RPanic x => panic x
  | ROk _ _ => update (set_tx true)
  end.

Definition GetQbsSameTransaction : M unit :=
  deref_m >>
  let* open := read mg_tx in
  if open then ret tt
  else panic (PString "cant make a new qbs on same transaction because tx is nil!").

Definition HasColumnOperations : M bool :=
  deref_m >> let* lite := read mg_sqlite3 in ret (negb lite).

Definition Rollback : M unit :=
  deref_m >>
  let* open := read mg_tx in
  if negb open then panic (PString "no transaction in progress, cannot rollback!")
  else
    let* r := ask TxRollback in
    match r with
    | RErr e => panic (PString ("unable to rollback transaction in migration: " +:+ Error e))
    | RPanic x => panic x
    | ROk _ _ => update (set_tx false)
    end.

Definition Commit : M unit :=
  deref_m >>
  let* open := read mg_tx in
  if negb open then panic (PString "no transaction in progress, cannot commit")
  else
    let* r := ask TxCommit in
    match r with
    | RErr e => panic (PString ("unable to commit transaction in migration: " +:+ Error e))
    | RPanic x => panic x
    | ROk _ _ => update (set_tx false)
    end.

Fixpoint strip_composite (t : gotype) : gotype :=
  match t with
  | TPtr e | TSlice e => strip_composite e
  | _ => t
  end.

(** [tableName(structPtr)] for an argument that is not a string. *)
Definition tableName (talbe : govalue) : outcome string :=
  match type_of talbe with
  | TPtr t | TSlice t => Normal (StructNameToTableName (Name (strip_composite t)))
  | _ => Panicked (PRuntime "reflect: Elem of invalid type")
  end.

(** [CreateTable] is [createTableBase(tblName, structPtr, false, false,
    omitFields)]: the model's table is [tableName(structPtr)] unless an
    override name is given; a statement that fails panics, and the error
    returned is that of the index creation. *)
Definition CreateTable (tblName : string) (structPtr : govalue)
           (omitFields : list string) : M (option error) :=
  let* table := lift (tableName structPtr) in
  let table := if String.eqb tblName "" then table
               else StructNameToTableName tblName in
  deref_m >>
  let* in_tx := read mg_tx in
  let* r := ask (ExecCreateTable in_tx table structPtr omitFields) in
  match r with
  | RErr e => ret (Some e)
  | RPanic x => panic x
  | ROk _ _ => ret None
  end.

(** [DropTable] is [dropTableIfExists]: an error the dialect does not
    catch panics. *)
Definition DropTable (strutPtr : govalue) : M unit :=
  let* t := lift (tableName strutPtr) in
  let tn := StructNameToTableName t in
  deref_m >>
  let* in_tx := read mg_tx in
  let* r := ask (ExecDropTable in_tx tn) in
  match r with
  | RErr e => panic (PError e)
  | RPanic x => panic x
  | ROk _ _ => ret tt
  end.

Definition RenameTable (oldname newname : string) : M (option error) :=
  deref_m >>
  let* in_tx := read mg_tx in
  let* r := ask (ExecRename in_tx oldname newname) in
  match r with
  | RErr e => ret (Some e)
  | RPanic x => panic x
  | ROk _ _ => ret None
  end.

Definition Migration_Close : M unit :=
  deref_m >>
  let* r := ask DbClose in
  match r with
  | RErr e => panic (PError e)
  | RPanic x => panic x
  | ROk _ _ => ret tt
  end.

(** [mg.log]: the query logger's output is not part of the trace. *)
Definition log : M unit := deref_m.

(** *** [Schema] *)

Definition clear : M unit := update (set_registry ∅ ∅).

Definition flipOver : M unit :=
  update (fun w => set_registry (s_curr w) (s_prev w) w).

Definition Close : M unit :=
  Migration_Close >> update (set_m false).

Definition trapColumnsForSqlite3 (suffix : string) : M unit :=
  update (fun w =>
    set_names (TrapField suffix) TrapColumn
      (set_reverse ∅
         (set_old (Some (FieldNameToColumnName w))
                  (Some (ColumnNameToFieldName w)) w))).

Definition untrapColumnsForSqlite3 : M unit :=
  update (fun w =>
    let w1 :=
      match s_oldFieldNameToColumnName w with
      | Some f => set_old None (s_oldColumnNameToFieldName w)
                          (set_names f (ColumnNameToFieldName w) w)
      | None => w
      end in
    match s_oldColumnNameToFieldName w1 with
    | Some c => set_old (s_oldFieldNameToColumnName w1) None
                        (set_names (FieldNameToColumnName w1) c w1)
    | None => w1
    end).

(** Calling [FieldNameToColumnName]: an ordinary function, or the first
    closure of [trapColumnsForSqlite3], which reads the saved function
    from the [Schema] when it is called and records the suffixed field
    under the column it maps to.  A saved function that is itself a
    closure of the trap would call itself without end; Go stops the
    process there. *)
Definition call_FieldNameToColumnName (s : string) : M string :=
  fun w =>
    match FieldNameToColumnName w with
    | Fn g => (w, Normal (g s))
    | TrapField suffix =>
        match s_oldFieldNameToColumnName w with
        | Some (Fn old) =>
            if HasSuffix s suffix then
              let t := substring 0 (String.length s - String.length suffix) s in
              match s with
              | EmptyString =>
                  (w, Panicked (PRuntime "runtime error: slice bounds out of range"))
              | _ =>
                  (set_reverse
                     (<[old t := ToLower (substring 0 1 s)
                                 +:+ substring 1 (String.length s - 1) s]>
                        (s_reverse w)) w,
                   Normal (old t))
              end
            else (w, Normal (old s))
        | Some _ => (w, Panicked (PRuntime "stack overflow"))
        | None => (w, Panicked nil_dereference)
        end
    | TrapColumn => (w, Panicked (PRuntime "stack overflow"))
    end.

(** Calling [ColumnNameToFieldName]: the second closure looks the column
    up among the recorded fields. *)
Definition call_ColumnNameToFieldName (s : string) : M string :=
  fun w =>
    match ColumnNameToFieldName w with
    | Fn g => (w, Normal (g s))
    | TrapColumn =>
        match s_oldColumnNameToFieldName w with
        | Some (Fn old) =>
            match s_reverse w !! s with
            | Some t => (w, Normal (old t))
            | None => (w, Normal (old s))
            end
        | Some _ => (w, Panicked (PRuntime "stack overflow"))
        | None => (w, Panicked nil_dereference)
        end
    | TrapField _ => (w, Panicked (PRuntime "stack overflow"))
    end.

Definition ChangeTable (logicalName : string) (prev_raw curr_raw : iface)
  : M (option error) :=
  match prev_raw, curr_raw with
  | None, _ =>
      let* p := lift (structPair curr_raw) in
      update (fun w => set_registry (s_prev w) (<[logicalName := p]> (s_curr w)) w) >>
      ret None
  | Some _, None =>
      let* p := lift (structPair prev_raw) in
      update (fun w => set_registry (<[logicalName := p]> (s_prev w)) (s_curr w) w) >>
      ret None
  | Some _, Some _ =>
      let* curr_pair := lift (structPair curr_raw) in
      let* prev_pair := lift (structPair prev_raw) in
      update (fun w => set_registry (<[logicalName := prev_pair]> (s_prev w)) (s_curr w) w) >>
      update (fun w => set_registry (s_prev w) (<[logicalName := curr_pair]> (s_curr w)) w) >>
      ret None
  end.

(** Go leaves the order in which [range] visits a map unspecified; the
    model visits the entries in the order of [map_to_list]. *)
Definition renameCurrentTablesAddColumns (reverse : bool) : M (option error) :=
  let suffix := OLD in
  let trap := NEW in
  let* prev := read s_prev in
  let* e :=
    range_err (fun '(logicalName, pr) =>
                 let oldName := StructNameToTableName logicalName in
                 let newName := StructNameToTableName (name pr) in
                 RenameTable oldName newName)
              (map_to_list prev) in
  match e with
  | Some err => ret (Some err)
  | None =>
      let* curr := read s_curr in
      range_err (fun '(_, pr) =>
                   trapColumnsForSqlite3 trap >>
                   let* omit := lift (fieldsWithSuffix (typeRep pr) suffix) in
                   let* err := CreateTable "" (typeRep pr) omit in
                   untrapColumnsForSqlite3 >>
                   ret err)
                (map_to_list curr)
  end.

(** The same function in the earlier version of the file, which skips
    the names that are in [prev] only, does not trap and omits the fields
    ending in ["_old"]. *)
Definition renameCurrentTablesAddColumns_earlier (reverse : bool) : M (option error) :=
  let* prev := read s_prev in
  let* e :=
    range_err (fun '(logicalName, pr) =>
                 let* curr := read s_curr in
                 match curr !! logicalName with
                 | None => ret None
                 | Some _ =>
                     let oldName := StructNameToTableName logicalName in
                     let newName := StructNameToTableName (name pr) in
                     RenameTable oldName newName
                 end)
              (map_to_list prev) in
  match e with
  | Some err => ret (Some err)
  | None =>
      let* curr := read s_curr in
      range_err (fun '(_, pr) =>
                   let* omit := lift (fieldsWithSuffix (typeRep pr) "_old") in
                   CreateTable "" (typeRep pr) omit)
                (map_to_list curr)
  end.

Definition removeOldRenameColumns : M (option error) :=
  let* prev := read s_prev in
  range_do (fun '(_, pr) => DropTable (typeRep pr)) (map_to_list prev) >>
  let* curr := read s_curr in
  range_err (fun '(logicalName, pr) =>
               let newName := StructNameToTableName logicalName in
               let oldName := StructNameToTableName (name pr) in
               RenameTable oldName newName)
            (map_to_list curr).

Definition FindAll (logicalName : string) : M (iface * option error) :=
  GetQbsSameTransaction >>
  let* prev := read s_prev in
  match prev !! logicalName with
  | None => panic nil_dereference
  | Some pr =>
      let ptrForSet := VPtr (VSlice (type_of (typeRep pr)) []) in
      trapColumnsForSqlite3 NEW >>
      let* omit := lift (fieldsWithSuffix (typeRep pr) OLD) in
      let* r := ask (QbsFindAll ptrForSet omit) in
      match r with
      | RPanic x => panic x
      | RErr err =>
          untrapColumnsForSqlite3 >>
          Rollback >>
          ret (None, Some err)
      | ROk _ rows =>
          untrapColumnsForSqlite3 >>
          ret (Some (VPtr (VSlice (type_of (typeRep pr)) rows)), None)
      end
  end.

Definition Save (logicalName : string) (curr : iface) : M (Z * option error) :=
  lift (checkLogicalName logicalName curr) >>
  GetQbsSameTransaction >>
  match curr with
  | None => panic nil_dereference
  | Some rec =>
      let* omit := lift (fieldsWithSuffix rec OLD) in
      trapColumnsForSqlite3 NEW >>
      let* r := ask (QbsSave rec omit) in
      match r with
      | RPanic x => panic x
      | RErr err =>
          untrapColumnsForSqlite3 >>
          Rollback >>
          ret (0, Some err)
      | ROk res _ =>
          untrapColumnsForSqlite3 >>
          ret (res, None)
      end
  end.

(** A body under a deferred function that recovers: the handler runs
    when the body panics, in the world the panic left. *)
Definition with_recover {A} (body : M A) (handler : panicval -> M A) : M A :=
  fun w =>
    match body w with
    | (w', Normal a) => (w', Normal a)
    | (w', Panicked x) => handler x w'
    end.

(** Running the user's code against the [Schema]. *)
Fixpoint exec {R} (p : Prog R) : M R :=
  match p with
  | Return r => ret r
  | PanicWith x => panic x
  | CallChangeTable l a b k => let* e := ChangeTable l a b in exec (k e)
  | CallFindAll l k => let* r := FindAll l in exec (k r)
  | CallSave l c k => let* r := Save l c in exec (k r)
  | Recover body handler => with_recover (exec body) (fun x => exec (handler x))
  end.

(** [migrate]: the value [renameCurrentTablesAddColumns] returns is
    dropped by the caller. *)
Definition migrate (info : ReversibleMigration) (reverse : bool) : M (option error) :=
  clear >>
  let* err := exec (Structure info) in
  match err with
  | Some e => ret (Some e)
  | None =>
      (if reverse then flipOver else ret tt) >>
      renameCurrentTablesAddColumns reverse >>
      let* hco := HasColumnOperations in
      let* moved := exec (Data info hco reverse) in
      let '(count, err) := moved in
      match err with
      | Some e => ret (Some e)
      | None =>
          let* err := removeOldRenameColumns in
          match err with
          | Some e => ret (Some e)
          | None => log >> ret None
          end
      end
  end.

(** [info[i]] *)
Definition at_index (info : list ReversibleMigration) (i : Z) : M ReversibleMigration :=
  if i <? 0 then panic index_out_of_range
  else match info !! Z.to_nat i with
       | Some step => ret step
       | None => panic index_out_of_range
       end.

(** [for i := from; i < to; i++ { ... }], started at [i] with [n]
    iterations to go; [Some err] is the [return err] of the body. *)
Fixpoint forward_loop (info : list ReversibleMigration) (i : Z) (n : nat)
  : M (option error) :=
  match n with
  | O => ret None
  | S n' =>
      let* step := at_index info i in
      let* err := migrate step false in
      match err with
      | Some e => Rollback >> Close >> ret (Some e)
      | None => forward_loop info (i + 1) n'
      end
  end.

(** [for i := from - 1; i >= to; i-- { ... }] *)
Fixpoint reverse_loop (info : list ReversibleMigration) (i : Z) (n : nat)
  : M (option error) :=
  match n with
  | O => ret None
  | S n' =>
      let* step := at_index info i in
      let* err := migrate step true in
      match err with
      | Some e => Rollback >> Close >> ret (Some e)
      | None => reverse_loop info (i - 1) n'
      end
  end.

Definition errors_New (s : string) : error := mkError s.

(** The deferred function of [Run]: it runs when the body panics, and
    a panic of its own leaves [Run]. *)
Definition recovered (x : panicval) : M (option error) :=
  untrapColumnsForSqlite3 >>
  Rollback >>
  Close >>
  update (emit (Printf ("Panic trapped during execution of migrations: "
                        +:+ Sprintf_v x +:+ newline))) >>
  update (emit PrintStack) >>
  ret (Some (errors_New (Sprintf_v x))).

Definition Run_body (info : list ReversibleMigration) (from to : Z) : M (option error) :=
  let* stopped :=
    if from <? to then forward_loop info from (Z.to_nat (to - from))
    else reverse_loop info (from - 1) (Z.to_nat (from - to)) in
  match stopped with
  | Some err => ret (Some err)
  | None => Commit >> ret None
  end.

Definition Run (info : list ReversibleMigration) (from to : Z) : M (option error) :=
  if from =? to then ret None
  else Begin >> with_recover (Run_body info from to) recovered.

End Engine.

(** ** Notions the properties are stated with *)

(** [strings.Contains(s, substr)] is [Index(s, substr) >= 0]. *)
Definition Contains (s substr : string) : bool :=
  match Index s substr with
  | Some _ => true
  | None => false
  end.

(** The name format in words: split on the infix ["_migration"], the left
    piece is the logical name, the right piece a base-10 integer. *)
Definition name_format (logical typeName : string) : bool :=
  match SplitN2 typeName "_migration" with
  | [l; r] =>
      String.eqb l logical &&
      match ParseInt10_64 r with Some _ => true | None => false end
  | _ => false
  end.

Definition is_commit (e : event) : bool :=
  match e with Called TxCommit _ _ _ => true | _ => false end.
Definition is_rollback (e : event) : bool :=
  match e with Called TxRollback _ _ _ => true | _ => false end.
Definition is_close (e : event) : bool :=
  match e with Called DbClose _ _ _ => true | _ => false end.
Definition is_rename (e : event) : bool :=
  match e with Called (ExecRename _ _ _) _ _ _ => true | _ => false end.

Definition count (p : event -> bool) (tr : list event) : nat :=
  length (List.filter p tr).

(** A registry entry as [structPair] builds it: the prototype is a
    pointer to a record and the name is that record's type name. *)
Definition registered (pr : nameStructPair) : Prop :=
  exists fields contents, typeRep pr = VPtr (VStruct (name pr) fields contents).

(** The calls of a trace, oldest first. *)
Definition calls (tr : list event) : list call :=
  omap (fun e => match e with Called c _ _ _ => Some c | _ => None end) tr.

(** Pre- and postconditions of a computation: [Q] on a normal return,
    [E] when it panics. *)
Definition triple {A} (P : World -> Prop) (c : M A)
           (Q : A -> World -> Prop) (E : panicval -> World -> Prop) : Prop :=
  forall w, P w ->
    match c w with
    | (w', Normal a) => Q a w'
    | (w', Panicked x) => E x w'
    end.

(** No column-name trap is pending and the two mappings are [f] and [c]. *)
Definition untrapped (f c : namefn) (w : World) : Prop :=
  s_oldFieldNameToColumnName w = None /\
  s_oldColumnNameToFieldName w = None /\
  FieldNameToColumnName w = f /\
  ColumnNameToFieldName w = c.

(** Either that, or a trap is pending which saved [f] and [c]. *)
Definition restorable (f c : namefn) (w : World) : Prop :=
  untrapped f c w \/
  (s_oldFieldNameToColumnName w = Some f /\ s_oldColumnNameToFieldName w = Some c).

(** *** Computations and their invariants *)

(** [keeps P E c]: started in a world where [P] holds, [c] returns in a
    world where [P] holds, or panics in a world where [E] holds. *)
Definition keeps {A} (P : World -> Prop) (E : World -> Prop) (c : M A) : Prop :=
  triple P c (fun _ => P) (fun _ => E).

(** A property of the world that only looks at its trace. *)
Definition on_trace (T : list event -> Prop) : World -> Prop :=
  fun w => T (trace w).

(** The trace holds [n] commits. *)
Definition commits_are (n : nat) : World -> Prop :=
  on_trace (fun tr => count is_commit tr = n).

Definition not_commit (e : event) : Prop := is_commit e = false.

(** Two worlds agree on the two mappings and on what the trap saved. *)
Definition same_names (w w' : World) : Prop :=
  FieldNameToColumnName w' = FieldNameToColumnName w /\
  ColumnNameToFieldName w' = ColumnNameToFieldName w /\
  s_oldFieldNameToColumnName w' = s_oldFieldNameToColumnName w /\
  s_oldColumnNameToFieldName w' = s_oldColumnNameToFieldName w.

(** A property that only looks at the mappings and at what the trap saved. *)
Definition names_only (P : World -> Prop) : Prop :=
  forall w w', same_names w w' -> P w -> P w'.

(** A trap is pending which saved [f] and [c]. *)
Definition trapped (f c : namefn) (w : World) : Prop :=
  s_oldFieldNameToColumnName w = Some f /\ s_oldColumnNameToFieldName w = Some c.

(** *** The events of the two phases *)

(** The events of the tables of one registry entry. *)
Definition rename_event (oldname newname : string) (e : event) : Prop :=
  exists in_tx F C r, e = Called (ExecRename in_tx oldname newname) F C r.

Definition drop_event (table : string) (e : event) : Prop :=
  exists in_tx F C r, e = Called (ExecDropTable in_tx table) F C r.

(** The new table of a shape: created under the trap for [NEW], without
    the fields that end in [OLD]. *)
Definition create_event (table : string) (pr : nameStructPair) (e : event) : Prop :=
  exists in_tx omit r,
    fieldsWithSuffix (typeRep pr) OLD = Normal omit /\
    e = Called (ExecCreateTable in_tx table (typeRep pr) omit)
               (TrapField NEW) TrapColumn r.

(** What a loop over [xs] leaves in the trace: every event belongs to an
    element of [xs], and, when the loop ran to its end without an error,
    every element has its event. *)
Definition loop_trace {A} (ev : A -> event -> Prop) (xs : list A)
           (finished : bool) (w w' : World) : Prop :=
  exists tl,
    trace w' = trace w ++ tl /\
    Forall (fun e => exists x, In x xs /\ ev x e) tl /\
    (finished = true -> forall x, In x xs -> exists e, In e tl /\ ev x e).

Definition finished_err (o : outcome (option error)) : bool :=
  match o with Normal None => true | _ => false end.

Definition finished_do (o : outcome unit) : bool :=
  match o with Normal _ => true | _ => false end.

(** The registry a phase starts with stays as it is. *)
Definition registry_is (pv cu : gmap string nameStructPair) (w : World) : Prop :=
  s_prev w = pv /\ s_curr w = cu.

(** An event of the rename/shadow phase started in [w]: the rename of
    the table of a name in [prev] to the name of its old shape, or the
    creation of the table of a shape in [curr]. *)
Definition rename_phase_event (StructNameToTableName : string -> string)
           (w : World) (e : event) : Prop :=
  (exists l p, s_prev w !! l = Some p /\
               rename_event (StructNameToTableName l)
                            (StructNameToTableName (name p)) e) \/
  (exists l c t, s_curr w !! l = Some c /\
                 tableName StructNameToTableName (typeRep c) = Normal t /\
                 create_event t c e).

(** An event of the finalization started in [w]: the drop of the table
    of a shape in [prev], or the rename of the table of a shape in [curr]
    to the table of its logical name. *)
Definition finalization_event (StructNameToTableName : string -> string)
           (w : World) (e : event) : Prop :=
  (exists l p t, s_prev w !! l = Some p /\
                 tableName StructNameToTableName (typeRep p) = Normal t /\
                 drop_event (StructNameToTableName t) e) \/
  (exists l c, s_curr w !! l = Some c /\
               rename_event (StructNameToTableName (name c))
                            (StructNameToTableName l) e).

(** The database accepted the call. *)
Definition accepted (r : response) : Prop :=
  match r with ROk _ _ => True | _ => False end.

Section Order.

Variable drv : World -> call -> response.
Variable StructNameToTableName : string -> string.

(** [info[k], info[k+1], ..., info[k+n-1]] *)
Definition steps_from (info : list ReversibleMigration) (k n : nat)
  : list ReversibleMigration :=
  omap (fun j => info !! j) (seq k n).

(** [info[lo], info[lo+1], ..., info[hi-1]] *)
Definition steps_between (info : list ReversibleMigration) (lo hi : Z)
  : list ReversibleMigration :=
  steps_from info (Z.to_nat lo) (Z.to_nat (hi - lo)).

(** Apply the steps one after the other in the given direction; the first
    error rolls back, closes and is returned. *)
Fixpoint apply_each (steps : list ReversibleMigration) (reverse : bool)
  : M (option error) :=
  match steps with
  | [] => ret None
  | step :: rest =>
      let* err := migrate drv StructNameToTableName step reverse in
      match err with
      | Some e => Rollback drv >> Close drv >> ret (Some e)
      | None => apply_each rest reverse
      end
  end.

(** The driver as the specification words it. *)
Definition Run_in_order (info : list ReversibleMigration) (from to : Z)
  : M (option error) :=
  if from =? to then ret None
  else
    Begin drv >>
    with_recover
      (let* stopped :=
         if from <? to then apply_each (steps_between info from to) false
         else apply_each (reverse (steps_between info to from)) true in
       match stopped with
       | Some err => ret (Some err)
       | None => Commit drv >> ret None
       end)
      (recovered drv).

(** The loop of [Run], in either direction. *)
Definition Run_loop (info : list ReversibleMigration) (from to : Z) : M (option error) :=
  if from <? to then forward_loop drv StructNameToTableName info from (Z.to_nat (to - from))
  else reverse_loop drv StructNameToTableName info (from - 1) (Z.to_nat (from - to)).

(** Every step of the range went through: the transaction was begun, no
    step returned an error or panicked, and the transaction the steps
    leave behind is still open on a handle that is still there. *)
Definition all_steps_succeed (info : list ReversibleMigration) (from to : Z)
           (w : World) : bool :=
  if from =? to then false
  else
    match Begin drv w with
    | (w0, Normal _) =>
        match Run_loop info from to w0 with
        | (w1, Normal None) => mg_tx w1 && s_m w1
        | _ => false
        end
    | _ => false
    end.

End Order.

(** *** Steps that do not recover *)

(** The program never runs a part under a [recover] of its own. *)
Fixpoint no_recover {R} (p : Prog R) : Prop :=
  match p with
  | Return _ | PanicWith _ => True
  | CallChangeTable _ _ _ k => forall e, no_recover (k e)
  | CallFindAll _ k => forall r, no_recover (k r)
  | CallSave _ _ k => forall r, no_recover (k r)
  | Recover _ _ => False
  end.

Definition plain_step (step : ReversibleMigration) : Prop :=
  no_recover (Structure step) /\
  forall haveDropCol reverse, no_recover (Data step haveDropCol reverse).

(** *** A range whose steps all return nil *)

(** The transaction was begun and every step of the range returned nil:
    no step returned an error and none panicked.  Unlike
    [all_steps_succeed], this does not ask whether the transaction is
    still there when the last step returns. *)
Definition all_steps_return_nil
           (drv : World -> call -> response) (StructNameToTableName : string -> string)
           (info : list ReversibleMigration) (from to : Z) (w : World) : bool :=
  if from =? to then false
  else
    match Begin drv w with
    | (w0, Normal _) =>
        match Run_loop drv StructNameToTableName info from to w0 with
        | (_, Normal None) => true
        | _ => false
        end
    | _ => false
    end.

(** ** The example of the test suite *)

Module Example.

Definition Article_migration1 : govalue :=
  VPtr (VStruct "Article_migration1" ["Id"; "Author"; "Content"] []).

Definition Article_migration2 : govalue :=
  VPtr (VStruct "Article_migration2"
          ["Id"; "Author"; "ContentOLD"; "ContentNEW"; "CreatedNEW"; "UpdatedNEW"] []).

(** A record whose type name carries no migration number. *)
Definition Article : govalue := VPtr (VStruct "Article" ["Id"; "Author"; "Content"] []).

(** A record type that does not follow the naming convention. *)
Definition Draft : govalue := VPtr (VStruct "Draft" ["Id"; "Body"] []).

Definition Migrate1_AddArticleTable : Prog (option error) :=
  CallChangeTable "Article" None (Some Article_migration1) Return.

Definition Migrate2_ChangeContent : Prog (option error) :=
  CallChangeTable "Article" (Some Article_migration1) (Some Article_migration2) Return.

(** The rows [FindAll] handed back. *)
Definition rows_of (raw : iface) : list govalue :=
  match raw with
  | Some (VPtr (VSlice _ rows)) => rows
  | _ => []
  end.

Fixpoint save_each (rows : list govalue) (newRow : govalue) (n : Z)
  : Prog (Z * option error) :=
  match rows with
  | [] => Return (n, None)
  | _ :: rest =>
      CallSave "Article" (Some newRow)
        (fun r => match snd r with
                  | Some err => Return (0, Some err)
                  | None => save_each rest newRow n
                  end)
  end.

Definition Migrate2_MoveContent (haveColumnOps reverse : bool) : Prog (Z * option error) :=
  CallFindAll "Article"
    (fun r => match snd r with
              | Some err => Return (0, Some err)
              | None =>
                  let rows := rows_of (fst r) in
                  save_each rows
                    (if reverse then Article_migration1 else Article_migration2)
                    (Z.of_nat (length rows))
              end).

Definition myMigrations : list SimpleMigration :=
  [ mkSimple (Some Migrate1_AddArticleTable) None;
    mkSimple (Some Migrate2_ChangeContent) (Some Migrate2_MoveContent) ].

(** A data phase that panics with the error [FindAll] returned. *)
Definition MoveContent_or_die (haveColumnOps reverse : bool) : Prog (Z * option error) :=
  CallFindAll "Article"
    (fun r => match snd r with
              | Some err => PanicWith (PError err)
              | None => Return (Z.of_nat (length (rows_of (fst r))), None)
              end).

Definition dyingMigrations : list SimpleMigration :=
  [ mkSimple (Some Migrate1_AddArticleTable) None;
    mkSimple (Some Migrate2_ChangeContent) (Some MoveContent_or_die) ].

(** The first step of the test suite with [simulatePanic] set, and with
    [simulateError] set. *)
Definition simulatedPanic : SimpleMigration :=
  mkSimple (Some (PanicWith (PString "simulated to check transactions"))) None.

Definition simulatedError : SimpleMigration :=
  mkSimple (Some (Return (Some (mkError "simulated to check transactions")))) None.

(** A step that only drops the table. *)
Definition dropArticle : SimpleMigration :=
  mkSimple (Some (CallChangeTable "Article" (Some Article_migration1) None Return)) None.

(** A fresh [Schema] on a fresh [Migration], default mappings. *)
Definition fresh : World :=
  mkWorld (Fn toSnake) (Fn snakeToUpperCamel) ∅ ∅ true None None ∅ false true [].

(** The same with the transaction begun. *)
Definition begun : World := set_tx true fresh.

(** A database that accepts everything and holds one article. *)
Definition healthy : World -> call -> response :=
  fun _ c =>
    match c with
    | QbsFindAll _ _ => ROk 0 [Article_migration1]
    | _ => ROk 1 []
    end.

(** A database on which every insert fails. *)
Definition save_fails : World -> call -> response :=
  fun _ c =>
    match c with
    | QbsFindAll _ _ => ROk 0 [Article_migration1]
    | QbsSave _ _ => RErr (mkError "constraint failed")
    | _ => ROk 1 []
    end.

(** A database on which every select fails. *)
Definition find_fails : World -> call -> response :=
  fun _ c =>
    match c with
    | QbsFindAll _ _ => RErr (mkError "no such table")
    | _ => ROk 1 []
    end.

(** The registry after the structure phase of the second step, in an
    open transaction: ["Article"] changes shape. *)
Definition shape_change : World :=
  fst (exec healthy Migrate2_ChangeContent begun).

(** The registry after the structure phase of [dropArticle]: ["Article"]
    is in [prev] only. *)
Definition pure_drop : World :=
  fst (exec healthy
            (CallChangeTable "Article" (Some Article_migration1) None Return)
            begun).

End Example.

(** ** Further notions: names *)

Fixpoint no_underscore (s : string) : bool :=
  match s with
  | EmptyString => true
  | String c rest => negb (Ascii.eqb c "_") && no_underscore rest
  end.

(** A name as Go code writes record and field names in this package: an
    upper-case ASCII letter first, and no underscore. *)
Definition UpperCamel (s : string) : bool :=
  match s with
  | EmptyString => false
  | String c rest => byte_between "A" "Z" c && no_underscore rest
  end.

(** A snake-case name: words that start with a lower-case ASCII letter
    and hold no upper-case letter, joined by single underscores.
    [at_start] says that a word has to start here. *)
Fixpoint snake_words (at_start : bool) (s : string) : bool :=
  match s with
  | EmptyString => negb at_start
  | String c rest =>
      if at_start then byte_between "a" "z" c && snake_words false rest
      else if Ascii.eqb c "_" then snake_words true rest
      else negb (byte_between "A" "Z" c) && snake_words false rest
  end.

Fixpoint no_upper (s : string) : bool :=
  match s with
  | EmptyString => true
  | String c rest => negb (byte_between "A" "Z" c) && no_upper rest
  end.

(** ** Further notions: the record introspector *)

(** The prototype [structPair] finds in its argument: the pointer to a
    record itself, the first element of a slice when that is a pointer to
    a record, or a pointer to a new record for an empty slice of pointers
    to records. *)
Definition prototype_of (i : iface) : option nameStructPair :=
  match i with
  | Some (VPtr (VStruct n fs vs)) => Some (mkPair n (VPtr (VStruct n fs vs)))
  | Some (VPtr (VSlice _ (VPtr (VStruct n fs vs) :: _))) =>
      Some (mkPair n (VPtr (VStruct n fs vs)))
  | Some (VPtr (VSlice (TPtr (TStruct n fs)) [])) =>
      Some (mkPair n (VPtr (VStruct n fs [])))
  | _ => None
  end.

(** [s[0:1]] lowered, then the rest of [s]: what the trap records. *)
Definition lower_first (s : string) : string :=
  ToLower (substring 0 1 s) +:+ substring 1 (String.length s - 1) s.

(** ** Further notions: how a transaction ends *)

(** A commit, a rollback the database accepted. *)
Definition commit_done (e : event) : bool :=
  match e with Called TxCommit _ _ (ROk _ _) => true | _ => false end.

Definition rollback_done (e : event) : bool :=
  match e with Called TxRollback _ _ (ROk _ _) => true | _ => false end.

(** The transaction begun when the trace held [c] accepted commits and
    [r] accepted rollbacks is still open; it was committed; it was rolled
    back; it has ended one way or the other. *)
Definition tx_open (c r : nat) (w : World) : Prop :=
  mg_tx w = true /\
  count commit_done (trace w) = c /\ count rollback_done (trace w) = r.

Definition tx_committed (c r : nat) (w : World) : Prop :=
  mg_tx w = false /\ s_m w = true /\
  count commit_done (trace w) = S c /\ count rollback_done (trace w) = r.

Definition tx_rolled_back (c r : nat) (w : World) : Prop :=
  mg_tx w = false /\
  count commit_done (trace w) = c /\ count rollback_done (trace w) = S r.

Definition tx_ended (c r : nat) (w : World) : Prop :=
  mg_tx w = false /\
  (count commit_done (trace w) + count rollback_done (trace w) = S (c + r))%nat.

Definition tx_state (c r : nat) (w : World) : Prop :=
  tx_open c r w \/ tx_ended c r w.

(** The [Schema] has been closed after a rollback. *)
Definition rolled_back_and_closed (c r : nat) (w : World) : Prop :=
  tx_rolled_back c r w /\ s_m w = false.

(** What a loop of [Run] promises for the value it returns. *)
Definition loop_result (c r : nat) (o : option error) (w : World) : Prop :=
  match o with
  | None => tx_state c r w
  | Some _ => rolled_back_and_closed c r w
  end.

(** What [Run] promises for the value it returns. *)
Definition Run_result (c r : nat) (o : option error) (w : World) : Prop :=
  match o with
  | None => tx_committed c r w
  | Some _ => rolled_back_and_closed c r w
  end.

(** ** Further notions: ranges of steps *)

Definition UNLIMITED_MIGRATIONS : Z := 10000.

(** The range [from .. to] asks for a step the list does not hold: an
    index below zero or past the last step. *)
Definition leaves_the_list (info : list ReversibleMigration) (from to : Z) : bool :=
  if from <? to then (from <? 0) || (Z.of_nat (length info) <? to)
  else (to <? 0) || (Z.of_nat (length info) <? from).

(** A [SimpleMigration] with neither function. *)
Definition no_functions (sm : SimpleMigration) : Prop :=
  S_fn sm = None /\ D_fn sm = None.

(** ** More databases for the examples *)

Module Scenario.

(** A database that refuses to start a transaction. *)
Definition begin_fails : World -> call -> response :=
  fun _ c =>
    match c with
    | DbBegin => RErr (mkError "database is locked")
    | _ => ROk 1 []
    end.

(** The second step of the test suite, the world its transaction starts
    in on a database where every insert fails, and the world its
    migration ends in. *)
Definition second_step : ReversibleMigration :=
  SimpleMigration_step (mkSimple (Some Example.Migrate2_ChangeContent)
                                 (Some Example.Migrate2_MoveContent)).

Definition after_begin : World := fst (Begin Example.save_fails Example.fresh).

Definition after_failed_save : World :=
  fst (migrate Example.save_fails toSnake second_step false after_begin).

(** A data phase that goes on after a failed [FindAll] as if nothing
    had happened. *)
Definition MoveContent_ignoring_error (haveColumnOps reverse : bool)
  : Prog (Z * option error) :=
  CallFindAll "Article" (fun _ => Return (0, None)).

Definition forgetfulMigrations : list SimpleMigration :=
  [ mkSimple (Some Example.Migrate1_AddArticleTable) None;
    mkSimple (Some Example.Migrate2_ChangeContent) (Some MoveContent_ignoring_error) ].

(** A database whose mapper panics on every insert. *)
Definition save_panics : World -> call -> response :=
  fun _ c =>
    match c with
    | QbsFindAll _ _ => ROk 0 [Example.Article_migration1]
    | QbsSave _ _ => RPanic (PString "reflect: call of reflect.Value.Interface on zero Value")
    | _ => ROk 1 []
    end.

(** A data phase that saves one row under a deferred [recover] of its
    own and reports success whatever happened. *)
Definition MoveContent_recovering (haveColumnOps reverse : bool)
  : Prog (Z * option error) :=
  Recover (CallSave "Article" (Some Example.Article_migration2) Return)
          (fun _ => Return (0, None)).

Definition recoveringMigrations : list SimpleMigration :=
  [ mkSimple (Some Example.Migrate1_AddArticleTable) None;
    mkSimple (Some Example.Migrate2_ChangeContent) (Some MoveContent_recovering) ].

End Scenario.

(** ** Further notions: decimal numbers *)

Fixpoint all_digits (s : string) : bool :=
  match s with
  | EmptyString => true
  | String c rest => byte_between "0" "9" c && all_digits rest
  end.

(** An optional sign followed by at least one decimal digit. *)
Definition signed_decimal (s : string) : bool :=
  match s with
  | EmptyString => false
  | String c rest =>
      let body := if Ascii.eqb c "+" || Ascii.eqb c "-" then rest else s in
      negb (String.eqb body "") && all_digits body
  end.

(** ** The parsed model of a record

    [ModelField] without its [value]; [createTableBase] knows a field by
    its column name. *)

Module Model.

Record ModelField : Type := mkModelField {
  Name : string;       (* column name *)
  CamelName : string;
  pk : bool;
  notnull : bool;
  index : bool;
  unique : bool;
  updated : bool;
  created : bool;
  size : Z;
  dfault : string;
  fk : string;
  join : string
}.

(** [new(ModelField)] *)
Definition new_ModelField : ModelField :=
  mkModelField "" "" false false false false false false 0 "" "" "".

Definition set_pk (fd : ModelField) : ModelField :=
  mkModelField (Name fd) (CamelName fd) true (notnull fd) (index fd) (unique fd)
               (updated fd) (created fd) (size fd) (dfault fd) (fk fd) (join fd).
Definition set_notnull (fd : ModelField) : ModelField :=
  mkModelField (Name fd) (CamelName fd) (pk fd) true (index fd) (unique fd)
               (updated fd) (created fd) (size fd) (dfault fd) (fk fd) (join fd).
Definition set_index (fd : ModelField) : ModelField :=
  mkModelField (Name fd) (CamelName fd) (pk fd) (notnull fd) true (unique fd)
               (updated fd) (created fd) (size fd) (dfault fd) (fk fd) (join fd).
Definition set_unique (fd : ModelField) : ModelField :=
  mkModelField (Name fd) (CamelName fd) (pk fd) (notnull fd) (index fd) true
               (updated fd) (created fd) (size fd) (dfault fd) (fk fd) (join fd).
Definition set_updated (fd : ModelField) : ModelField :=
  mkModelField (Name fd) (CamelName fd) (pk fd) (notnull fd) (index fd) (unique fd)
               true (created fd) (size fd) (dfault fd) (fk fd) (join fd).
Definition set_created (fd : ModelField) : ModelField :=
  mkModelField (Name fd) (CamelName fd) (pk fd) (notnull fd) (index fd) (unique fd)
               (updated fd) true (size fd) (dfault fd) (fk fd) (join fd).
Definition set_size (n : Z) (fd : ModelField) : ModelField :=
  mkModelField (Name fd) (CamelName fd) (pk fd) (notnull fd) (index fd) (unique fd)
               (updated fd) (created fd) n (dfault fd) (fk fd) (join fd).
Definition set_dfault (s : string) (fd : ModelField) : ModelField :=
  mkModelField (Name fd) (CamelName fd) (pk fd) (notnull fd) (index fd) (unique fd)
               (updated fd) (created fd) (size fd) s (fk fd) (join fd).
Definition set_fk (s : string) (fd : ModelField) : ModelField :=
  mkModelField (Name fd) (CamelName fd) (pk fd) (notnull fd) (index fd) (unique fd)
               (updated fd) (created fd) (size fd) (dfault fd) s (join fd).
Definition set_join (s : string) (fd : ModelField) : ModelField :=
  mkModelField (Name fd) (CamelName fd) (pk fd) (notnull fd) (index fd) (unique fd)
               (updated fd) (created fd) (size fd) (dfault fd) (fk fd) s.

(** *** The column changes of [createTableBase]

    [columns] is what [columnsInTable] answers: the columns the table
    has. *)
Definition in_table (columns : gmap string bool) (v : ModelField) : bool :=
  match columns !! Name v with
  | Some _ => true
  | None => false
  end.

(** The block guarded by [wantColumnMods]: the fields handed to
    [addColumn], in order, or the panic. *)
Definition columnMods (fields : list ModelField) (columns : gmap string bool)
  : outcome (list ModelField) :=
  if (base.size columns <? length fields)%nat then
    let '(oldFields, newFields) := List.partition (in_table columns) fields in
    if negb (length oldFields =? base.size columns)%nat then
      Panicked (PString "Column name has changed, rename column migration is not supported.")
    else Normal newFields
  else Normal [].

(** *** [parseTags] *)

(** [strings.Split(s, sep)] for a separator of one byte. *)
Fixpoint Split1 (sep : ascii) (s : string) : list string :=
  match s with
  | EmptyString => [EmptyString]
  | String c rest =>
      if Ascii.eqb c sep then EmptyString :: Split1 sep rest
      else match Split1 sep rest with
           | [] => [String c EmptyString]
           | p :: ps => String c p :: ps
           end
  end.

(** The value of [strconv.Atoi(s)] where [int] has 64 bits, its error
    dropped: 0 after a syntax error, the nearest bound after a range
    error. *)
Definition Atoi (s : string) : Z :=
  match s with
  | EmptyString => 0
  | String c rest =>
      let '(neg, body) :=
        if Ascii.eqb c "+" then (false, rest)
        else if Ascii.eqb c "-" then (true, rest)
        else (false, s) in
      match ParseUint10 body with
      | None => 0
      | Some un =>
          let cutoff := 2 ^ 63 in
          if negb neg && (cutoff <=? un) then cutoff - 1
          else if neg && (cutoff <? un) then - cutoff
          else if neg then - un else un
      end
  end.

Definition tag_syntax_error (key : string) : panicval :=
  PString (key +:+ " tag syntax error").

(** One element of the tag: [c2] is the element split at the colons. *)
Definition parseTag (fd : ModelField) (v : string) : ModelField * outcome unit :=
  match Split1 ":" v with
  | [] => (fd, Panicked index_out_of_range)
  | [key; val] =>
      if String.eqb key "fk" then (set_fk val fd, Normal tt)
      else if String.eqb key "size" then (set_size (Atoi val) fd, Normal tt)
      else if String.eqb key "default" then (set_dfault val fd, Normal tt)
      else if String.eqb key "join" then (set_join val fd, Normal tt)
      else (fd, Panicked (tag_syntax_error key))
  | key :: _ =>
      if String.eqb key "created" then (set_created fd, Normal tt)
      else if String.eqb key "pk" then (set_pk fd, Normal tt)
      else if String.eqb key "updated" then (set_updated fd, Normal tt)
      else if String.eqb key "index" then (set_index fd, Normal tt)
      else if String.eqb key "unique" then (set_unique fd, Normal tt)
      else if String.eqb key "notnull" then (set_notnull fd, Normal tt)
      else (fd, Panicked (tag_syntax_error key))
  end.

Fixpoint parseEach (fd : ModelField) (c : list string) : ModelField * outcome unit :=
  match c with
  | [] => (fd, Normal tt)
  | v :: rest =>
      match parseTag fd v with
      | (fd', Normal _) => parseEach fd' rest
      | (fd', Panicked x) => (fd', Panicked x)
      end
  end.

(** [parseTags(fd, s)]: the field as the function leaves it, and whether
    it returned or panicked. *)
Definition parseTags (fd : ModelField) (s : string) : ModelField * outcome unit :=
  if String.eqb s "" then (fd, Normal tt)
  else parseEach fd (Split1 "," s).

(** No flag of [fd] is cleared in [fd'], and the names are the same. *)
Definition keeps_flags (fd fd' : ModelField) : Prop :=
  Name fd' = Name fd /\ CamelName fd' = CamelName fd /\
  (pk fd = true -> pk fd' = true) /\
  (notnull fd = true -> notnull fd' = true) /\
  (index fd = true -> index fd' = true) /\
  (unique fd = true -> unique fd' = true) /\
  (updated fd = true -> updated fd' = true) /\
  (created fd = true -> created fd' = true).

(** The byte [sep] does not occur in [s]. *)
Fixpoint lacks (sep : ascii) (s : string) : bool :=
  match s with
  | EmptyString => true
  | String c rest => negb (Ascii.eqb c sep) && lacks sep rest
  end.

(** The keys [parseTags] takes a value for. *)
Definition valued_keys : list string := ["fk"; "size"; "default"; "join"].

End Model.

(** What [parseTags] may do to a field, and how it may end. *)
Definition parse_result (fd : Model.ModelField) (r : Model.ModelField * outcome unit)
  : Prop :=
  Model.keeps_flags fd (fst r) /\
  (snd r = Normal tt \/ exists key, snd r = Panicked (Model.tag_syntax_error key)).

(** ** Further notions: the rename phase of the earlier version *)

(** An event of the rename phase of the earlier version, started in [w]:
    the rename of the table of a name that is in [prev] and in [curr], or
    the creation of a table for a shape in [curr]. *)
Definition earlier_phase_event (StructNameToTableName : string -> string)
           (w : World) (e : event) : Prop :=
  (exists l p, s_prev w !! l = Some p /\ is_Some (s_curr w !! l) /\
               rename_event (StructNameToTableName l)
                            (StructNameToTableName (name p)) e) \/
  (exists l c in_tx t omit F C r,
      s_curr w !! l = Some c /\
      e = Called (ExecCreateTable in_tx t (typeRep c) omit) F C r).

(** ** Further notions: a new table *)

(** The registry after the structure phase of the first step of the test
    suite, in an open transaction: ["Article"] is in [curr] only. *)
Definition new_table : World :=
  fst (exec Example.healthy Example.Migrate1_AddArticleTable Example.begun).

(** * Properties *)

(** ** The record introspector and the name check *)

Lemma Contains_false_iff (s sep : string) :
  sep <> "" ->
  Contains s sep = false <->
  forall m : nat, substring m (String.length sep) s <> sep.
Proof.
  intros Hsep. unfold Contains, Index. split.
  - destruct (index 0 sep s) eqn:Hi; [discriminate|].
    intros _ m. apply (index_correct3 0 m sep s Hi Hsep). lia.
  - intros Hno. destruct (index 0 sep s) eqn:Hi; [|reflexivity].
    exfalso. apply (Hno n). exact (index_correct1 0 n sep s Hi).
Qed.

Lemma SplitN2_without_separator (s sep : string) :
  Contains s sep = false -> SplitN2 s sep = [s].
Proof.
  unfold Contains, SplitN2. destruct (Index s sep); [discriminate|reflexivity].
Qed.

Lemma SplitN2_pieces (s sep : string) :
  (exists a, SplitN2 s sep = [a]) \/ (exists a b, SplitN2 s sep = [a; b]).
Proof.
  unfold SplitN2. destruct (Index s sep); eauto.
Qed.

(** [checkLogicalName] returns exactly when the name has the format. *)
Lemma checkLogicalName_returns_iff (logical : string) (i : iface) (pr : nameStructPair) :
  structPair i = Normal pr ->
  checkLogicalName logical i = Normal tt <-> name_format logical (name pr) = true.
Proof.
  intros Hp. unfold checkLogicalName, name_format. rewrite Hp.
  destruct (SplitN2_pieces (name pr) "_migration") as [[a Ha]|[a [b Hab]]].
  - rewrite Ha. destruct (String.eqb a logical); simpl; split; discriminate.
  - rewrite Hab. destruct (String.eqb a logical); simpl.
    + destruct (ParseInt10_64 b); split; (reflexivity || discriminate).
    + split; discriminate.
Qed.

Lemma checkLogicalName_panics (logical : string) (i : iface) :
  (forall pr, structPair i = Normal pr -> name_format logical (name pr) = false) ->
  exists x, checkLogicalName logical i = Panicked x.
Proof.
  intros H. destruct (checkLogicalName logical i) as [[]|x] eqn:Hc; [|eauto].
  exfalso. destruct (structPair i) as [pr|x] eqn:Hp.
  - apply (checkLogicalName_returns_iff logical i pr Hp) in Hc.
    rewrite (H pr eq_refl) in Hc. discriminate.
  - unfold checkLogicalName in Hc. rewrite Hp in Hc. discriminate.
Qed.

(** C9, as the code has it: handed a pointer to a slice of pointers to
    records, [structPair] returns the first element itself, with what it
    holds, when there is one and it is not nil; it panics when the first
    element is a nil pointer; and it returns a pointer to a new zero
    record of the element type when the slice is empty.  Where it
    returns, the name is the record type's own name. *)
Theorem structPair_slice_prototype
        (n : string) (fs : list string) (contents : list (string * string))
        (rest : list govalue) :
  let elemT := TPtr (TStruct n fs) in
  let first := VPtr (VStruct n fs contents) in
  structPair (Some (VPtr (VSlice elemT (first :: rest))))
    = Normal (mkPair n first) /\
  structPair (Some (VPtr (VSlice elemT (VNilPtr (TStruct n fs) :: rest))))
    = Panicked zero_Value_Type /\
  structPair (Some (VPtr (VSlice elemT [])))
    = Normal (mkPair n (VPtr (zero_value (TStruct n fs)))) /\
  zero_value (TStruct n fs) = VStruct n fs [] /\
  Name (TStruct n fs) = n.
Proof.
  repeat split.
Qed.

(** C9 fails for a slice whose first element is a nil pointer: the
    element is a reference to a record by its type, the slice is not
    empty, and [structPair] panics instead of returning a prototype. *)
Lemma structPair_nil_first_element :
  let elemT := TPtr (TStruct "Article_migration1" ["Id"; "Author"; "Content"]) in
  let rows := [VNilPtr (TStruct "Article_migration1" ["Id"; "Author"; "Content"]);
               Example.Article_migration1] in
  type_of (VNilPtr (TStruct "Article_migration1" ["Id"; "Author"; "Content"])) = elemT /\
  structPair (Some (VPtr (VSlice elemT rows))) = Panicked zero_Value_Type.
Proof. split; reflexivity. Qed.

(** C10: when the record's type name is the logical name itself and holds
    no ["_migration"], the split has one piece, the comparison of the left
    piece passes, and reading the second piece is an index out of range,
    not the diagnostic of the format check. *)
Theorem checkLogicalName_bare_name (logical : string) (i : iface) (v : govalue) :
  structPair i = Normal (mkPair logical v) ->
  Contains logical "_migration" = false ->
  SplitN2 logical "_migration" = [logical] /\
  checkLogicalName logical i = Panicked index_out_of_range /\
  forall drv w, Save drv logical i w = (w, Panicked index_out_of_range).
Proof.
  intros Hp Hc. pose proof (SplitN2_without_separator _ _ Hc) as Hs.
  assert (Hck : checkLogicalName logical i = Panicked index_out_of_range).
  { unfold checkLogicalName. rewrite Hp. simpl name. rewrite Hs.
    rewrite String.eqb_refl. reflexivity. }
  repeat split; [exact Hs|exact Hck|].
  intros drv w. unfold Save, bind, lift. rewrite Hck. reflexivity.
Qed.

Lemma checkLogicalName_bare_name_witness :
  (structPair (Some Example.Article)
     = Normal (mkPair "Article" Example.Article) /\
   Contains "Article" "_migration" = false) /\
  SplitN2 "Article" "_migration" = ["Article"] /\
  checkLogicalName "Article" (Some Example.Article) = Panicked index_out_of_range /\
  forall drv w,
    Save drv "Article" (Some Example.Article) w = (w, Panicked index_out_of_range).
Proof.
  split; [split; reflexivity|].
  apply (checkLogicalName_bare_name "Article" (Some Example.Article) Example.Article);
    reflexivity.
Defined.

(** C8, as the code has it: [Save] checks the name format of the record it
    is given before anything else, and a record that fails it stops [Save]
    with a panic in an unchanged world, so before any database access;
    [FindAll] is given no record and goes to the database with whatever
    shape is registered under the logical name. *)
Theorem Save_enforces_name_format
        (drv : World -> call -> response) (logical : string) (rec : iface) (w : World) :
  (forall pr, structPair rec = Normal pr -> name_format logical (name pr) = false) ->
  (exists x, Save drv logical rec w = (w, Panicked x)) /\
  (forall pr omit,
      s_m w = true -> mg_tx w = true ->
      s_prev w !! logical = Some pr ->
      fieldsWithSuffix (typeRep pr) OLD = Normal omit ->
      exists r tl,
        trace (fst (FindAll drv logical w))
        = trace w
          ++ Called (QbsFindAll (VPtr (VSlice (type_of (typeRep pr)) [])) omit)
                    (TrapField NEW) TrapColumn r :: tl).
Proof.
  intros Hbad. split.
  - destruct (checkLogicalName_panics logical rec Hbad) as [x Hx].
    exists x. unfold Save, bind, lift. rewrite Hx. reflexivity.
  - intros pr omit Hm Htx Hpr Homit.
    unfold FindAll, GetQbsSameTransaction, trapColumnsForSqlite3,
      untrapColumnsForSqlite3, Rollback, deref_m, ask, bind, read, update,
      lift, ret, panic.
    rewrite Hm, Htx. simpl. rewrite Hpr. simpl. rewrite Homit. simpl.
    match goal with |- context [drv ?w' ?c] => destruct (drv w' c) as [id rows|err|x] eqn:Hr end;
      simpl.
    + eexists _, []. reflexivity.
    + rewrite Hm; simpl; rewrite Htx; simpl.
      match goal with |- context [drv ?w' TxRollback] => destruct (drv w' TxRollback) end;
        simpl; eexists _, _; rewrite <- app_assoc; reflexivity.
    + eexists _, []. reflexivity.
Qed.

Lemma Save_enforces_name_format_witness :
  (forall pr, structPair (Some Example.Draft) = Normal pr ->
              name_format "Article" (name pr) = false) /\
  exists x, Save Example.healthy "Article" (Some Example.Draft) Example.begun
            = (Example.begun, Panicked x).
Proof.
  assert (H : forall pr, structPair (Some Example.Draft) = Normal pr ->
                         name_format "Article" (name pr) = false).
  { intros pr Hpr. vm_compute in Hpr. inversion Hpr. reflexivity. }
  split; [exact H|].
  exact (proj1 (Save_enforces_name_format Example.healthy "Article"
                  (Some Example.Draft) Example.begun H)).
Defined.

(** C8 fails for [FindAll]: with a shape registered under ["Article"]
    whose type name is ["Draft"], [FindAll] does not stop; it queries the
    database and returns the rows. *)
Lemma FindAll_skips_name_check :
  let run :=
    exec Example.healthy
         (CallChangeTable "Article" (Some Example.Draft) None
            (fun _ => CallFindAll "Article" Return))
         Example.begun in
  name_format "Article" "Draft" = false /\
  snd run = Normal (Some (VPtr (VSlice (type_of Example.Draft)
                                       [Example.Article_migration1])), None) /\
  exists r,
    trace (fst run)
    = [Called (QbsFindAll (VPtr (VSlice (type_of Example.Draft) [])) [])
              (TrapField NEW) TrapColumn r].
Proof.
  vm_compute. repeat split. eexists. reflexivity.
Qed.

(** ** Reasoning about computations *)

Lemma triple_bind {A B} (P : World -> Prop) (Q : A -> World -> Prop)
      (R : B -> World -> Prop) (E : panicval -> World -> Prop)
      (c : M A) (k : A -> M B) :
  triple P c Q E -> (forall a, triple (Q a) (k a) R E) -> triple P (bind c k) R E.
Proof.
  intros Hc Hk w Hw. unfold bind. specialize (Hc w Hw).
  destruct (c w) as [w' [a|x]]; [exact (Hk a w' Hc)|exact Hc].
Qed.

Lemma triple_weaken {A} (P P' : World -> Prop) (Q Q' : A -> World -> Prop)
      (E E' : panicval -> World -> Prop) (c : M A) :
  triple P c Q E ->
  (forall w, P' w -> P w) ->
  (forall a w, Q a w -> Q' a w) ->
  (forall x w, E x w -> E' x w) ->
  triple P' c Q' E'.
Proof.
  intros Hc HP HQ HE w Hw. specialize (Hc w (HP w Hw)).
  destruct (c w) as [w' [a|x]]; auto.
Qed.

Lemma triple_run {A} (P : World -> Prop) (Q : A -> World -> Prop)
      (E : panicval -> World -> Prop) (c : M A) (w w' : World) (o : outcome A) :
  triple P c Q E -> P w -> c w = (w', o) ->
  match o with Normal a => Q a w' | Panicked x => E x w' end.
Proof.
  intros Hc Hw Heq. specialize (Hc w Hw). rewrite Heq in Hc. exact Hc.
Qed.

Lemma keeps_run {A} (P : World -> Prop) (c : M A) (w : World) :
  keeps P P c -> P w -> P (fst (c w)).
Proof.
  intros Hc Hw. specialize (Hc w Hw). destruct (c w) as [w' [a|x]]; exact Hc.
Qed.

Lemma keeps_bind {A B} (P E : World -> Prop) (c : M A) (k : A -> M B) :
  keeps P E c -> (forall a, keeps P E (k a)) -> keeps P E (bind c k).
Proof.
  intros Hc Hk. apply (triple_bind P (fun _ => P)); assumption.
Qed.

Lemma keeps_ret {A} (P E : World -> Prop) (a : A) : keeps P E (ret a).
Proof. intros w Hw. exact Hw. Qed.

Lemma keeps_read {A} (P E : World -> Prop) (f : World -> A) : keeps P E (read f).
Proof. intros w Hw. exact Hw. Qed.

Lemma keeps_panic {A} (P E : World -> Prop) (x : panicval) :
  (forall w, P w -> E w) -> keeps P E (@panic A x).
Proof. intros H w Hw. exact (H w Hw). Qed.

Lemma keeps_lift {A} (P E : World -> Prop) (o : outcome A) :
  (forall w, P w -> E w) -> keeps P E (lift o).
Proof. intros H w Hw. unfold lift. destruct o; auto. Qed.

Lemma keeps_update (P E : World -> Prop) (f : World -> World) :
  (forall w, P w -> P (f w)) -> keeps P E (update f).
Proof. intros H w Hw. exact (H w Hw). Qed.

Lemma keeps_deref_m (P E : World -> Prop) :
  (forall w, P w -> E w) -> keeps P E deref_m.
Proof. intros H w Hw. unfold deref_m. destruct (s_m w); auto. Qed.

Lemma keeps_ask (P E : World -> Prop) (drv : World -> call -> response) (c : call) :
  (forall w r, P w ->
     P (emit (Called c (FieldNameToColumnName w) (ColumnNameToFieldName w) r) w)) ->
  keeps P E (ask drv c).
Proof. intros H w Hw. unfold ask. apply H. exact Hw. Qed.

Lemma keeps_range_err {A} (P E : World -> Prop)
      (body : A -> M (option error)) (xs : list A) :
  (forall x, In x xs -> keeps P E (body x)) -> keeps P E (range_err body xs).
Proof.
  induction xs as [|x rest IH]; intros Hb; simpl.
  - apply keeps_ret.
  - apply keeps_bind; [apply Hb; left; reflexivity|].
    intros [err|]; [apply keeps_ret|].
    apply IH. intros y Hy. apply Hb. right. exact Hy.
Qed.

Lemma keeps_range_do {A} (P E : World -> Prop) (body : A -> M unit) (xs : list A) :
  (forall x, In x xs -> keeps P E (body x)) -> keeps P E (range_do body xs).
Proof.
  induction xs as [|x rest IH]; intros Hb; simpl.
  - apply keeps_ret.
  - apply keeps_bind; [apply Hb; left; reflexivity|].
    intros _. apply IH. intros y Hy. apply Hb. right. exact Hy.
Qed.

Lemma triple_with_recover {A} (P E : World -> Prop) (Q : A -> World -> Prop)
      (E' : panicval -> World -> Prop) (body : M A) (handler : panicval -> M A) :
  triple P body Q (fun _ => E) ->
  (forall x, triple E (handler x) Q E') ->
  triple P (with_recover body handler) Q E'.
Proof.
  intros Hb Hh w Hw. unfold with_recover. specialize (Hb w Hw).
  destruct (body w) as [w' [a|x]]; [exact Hb|]. exact (Hh x w' Hb).
Qed.

Lemma keeps_with_recover {A} (P : World -> Prop) (body : M A) (handler : panicval -> M A) :
  keeps P P body -> (forall x, keeps P P (handler x)) -> keeps P P (with_recover body handler).
Proof. intros Hb Hh. apply (triple_with_recover P P); assumption. Qed.

Lemma keeps_bind_ret {A B} (P E : World -> Prop) (a : A) (k : A -> M B) :
  keeps P E (k a) -> keeps P E (bind (ret a) k).
Proof. intros H w Hw. exact (H w Hw). Qed.

Lemma keeps_bind_panic {A B} (P E : World -> Prop) (x : panicval) (k : A -> M B) :
  (forall w, P w -> E w) -> keeps P E (bind (panic x) k).
Proof. intros H w Hw. exact (H w Hw). Qed.

(** One step of the decomposition of a computation; [leaf] closes the
    side conditions on the invariant. *)
Ltac keeps_step leaf :=
  first
    [ apply keeps_ret
    | apply keeps_read
    | apply keeps_bind; [|intros ?]
    | apply keeps_deref_m; leaf
    | apply keeps_panic; leaf
    | apply keeps_lift; leaf
    | apply keeps_update; leaf
    | apply keeps_ask; leaf
    | apply keeps_range_err; intros [? ?] ?
    | apply keeps_range_do; intros [? ?] ?
    | match goal with
      | |- keeps _ _ (match ?x with _ => _ end) => destruct x
      | |- keeps _ _ (if ?b then _ else _) => destruct b
      end ].

Ltac keeps_all leaf := repeat (keeps_step leaf).

(** The same, trying the lemmas already proved ([known]) first. *)
Ltac keeps_by known leaf := repeat first [ known | keeps_step leaf ].

Lemma count_app (p : event -> bool) (a b : list event) :
  count p (a ++ b) = (count p a + count p b)%nat.
Proof. unfold count. rewrite List.filter_app, length_app. reflexivity. Qed.

(** ** Invariants of the trace *)

Section TraceInvariant.

Variable drv : World -> call -> response.
Variable StructNameToTableName : string -> string.

(** [T] survives every event that is [ok]; every call but a commit, and
    every line printed, is [ok]. *)
Variable ok : event -> Prop.
Variable T : list event -> Prop.
Hypothesis T_app : forall tr e, T tr -> ok e -> T (tr ++ [e]).
Hypothesis ok_call : forall c F C r, c <> TxCommit -> ok (Called c F C r).
Hypothesis ok_Printf : forall s, ok (Printf s).
Hypothesis ok_PrintStack : ok PrintStack.

Ltac trace_leaf :=
  intros; unfold on_trace in *; simpl;
  solve [ assumption
        | apply T_app; [assumption|];
          first [ apply ok_call; discriminate
                | apply ok_Printf
                | apply ok_PrintStack ] ].

Local Abbreviation inv := (keeps (on_trace T) (on_trace T)).

Lemma Begin_on_trace : inv (Begin drv).
Proof. unfold Begin. keeps_all trace_leaf. Qed.

Lemma GetQbsSameTransaction_on_trace : inv GetQbsSameTransaction.
Proof. unfold GetQbsSameTransaction. keeps_all trace_leaf. Qed.

Lemma HasColumnOperations_on_trace : inv HasColumnOperations.
Proof. unfold HasColumnOperations. keeps_all trace_leaf. Qed.

Lemma Rollback_on_trace : inv (Rollback drv).
Proof. unfold Rollback. keeps_all trace_leaf. Qed.

Lemma CreateTable_on_trace tblName structPtr omit :
  inv (CreateTable drv StructNameToTableName tblName structPtr omit).
Proof. unfold CreateTable. keeps_all trace_leaf. Qed.

Lemma DropTable_on_trace strutPtr :
  inv (DropTable drv StructNameToTableName strutPtr).
Proof. unfold DropTable. keeps_all trace_leaf. Qed.

Lemma RenameTable_on_trace oldname newname : inv (RenameTable drv oldname newname).
Proof. unfold RenameTable. keeps_all trace_leaf. Qed.

Lemma Close_on_trace : inv (Close drv).
Proof. unfold Close, Migration_Close. keeps_all trace_leaf. Qed.

Lemma trapColumnsForSqlite3_on_trace suffix : inv (trapColumnsForSqlite3 suffix).
Proof. unfold trapColumnsForSqlite3. keeps_all trace_leaf. Qed.

Lemma untrapColumnsForSqlite3_on_trace : inv untrapColumnsForSqlite3.
Proof.
  unfold untrapColumnsForSqlite3. apply keeps_update.
  intros w Hw. unfold on_trace in *.
  destruct (s_oldFieldNameToColumnName w); simpl;
    destruct (s_oldColumnNameToFieldName w); simpl; exact Hw.
Qed.

Lemma ChangeTable_on_trace logicalName prev_raw curr_raw :
  inv (ChangeTable logicalName prev_raw curr_raw).
Proof. unfold ChangeTable. keeps_all trace_leaf. Qed.

Lemma renameCurrentTablesAddColumns_on_trace reverse :
  inv (renameCurrentTablesAddColumns drv StructNameToTableName reverse).
Proof.
  unfold renameCurrentTablesAddColumns.
  keeps_by ltac:(first [ apply RenameTable_on_trace
                       | apply trapColumnsForSqlite3_on_trace
                       | apply CreateTable_on_trace
                       | apply untrapColumnsForSqlite3_on_trace ])
           trace_leaf.
Qed.

Lemma removeOldRenameColumns_on_trace :
  inv (removeOldRenameColumns drv StructNameToTableName).
Proof.
  unfold removeOldRenameColumns.
  keeps_by ltac:(first [ apply DropTable_on_trace | apply RenameTable_on_trace ])
           trace_leaf.
Qed.

Lemma FindAll_on_trace logicalName : inv (FindAll drv logicalName).
Proof.
  unfold FindAll.
  keeps_by ltac:(first [ apply GetQbsSameTransaction_on_trace
                       | apply trapColumnsForSqlite3_on_trace
                       | apply untrapColumnsForSqlite3_on_trace
                       | apply Rollback_on_trace ])
           trace_leaf.
Qed.

Lemma Save_on_trace logicalName curr : inv (Save drv logicalName curr).
Proof.
  unfold Save.
  keeps_by ltac:(first [ apply GetQbsSameTransaction_on_trace
                       | apply trapColumnsForSqlite3_on_trace
                       | apply untrapColumnsForSqlite3_on_trace
                       | apply Rollback_on_trace ])
           trace_leaf.
Qed.

Lemma exec_on_trace {R} (p : Prog R) : inv (exec drv p).
Proof.
  induction p as [r|x|l a b k IH|l k IH|l c k IH|body IHb h IHh]; simpl.
  - apply keeps_ret.
  - apply keeps_panic. auto.
  - apply keeps_bind; [apply ChangeTable_on_trace|exact IH].
  - apply keeps_bind; [apply FindAll_on_trace|exact IH].
  - apply keeps_bind; [apply Save_on_trace|exact IH].
  - apply keeps_with_recover; [exact IHb|exact IHh].
Qed.

Lemma migrate_on_trace info reverse :
  inv (migrate drv StructNameToTableName info reverse).
Proof.
  unfold migrate, clear, flipOver, log.
  keeps_by ltac:(first [ apply exec_on_trace
                       | apply renameCurrentTablesAddColumns_on_trace
                       | apply HasColumnOperations_on_trace
                       | apply removeOldRenameColumns_on_trace ])
           trace_leaf.
Qed.

Lemma at_index_on_trace info i : inv (at_index info i).
Proof. unfold at_index. keeps_all trace_leaf. Qed.

Lemma forward_loop_on_trace info n :
  forall i, inv (forward_loop drv StructNameToTableName info i n).
Proof.
  induction n as [|n IH]; intros i; simpl.
  - apply keeps_ret.
  - keeps_by ltac:(first [ apply IH | apply at_index_on_trace
                         | apply migrate_on_trace
                         | apply Rollback_on_trace | apply Close_on_trace ])
             trace_leaf.
Qed.

Lemma reverse_loop_on_trace info n :
  forall i, inv (reverse_loop drv StructNameToTableName info i n).
Proof.
  induction n as [|n IH]; intros i; simpl.
  - apply keeps_ret.
  - keeps_by ltac:(first [ apply IH | apply at_index_on_trace
                         | apply migrate_on_trace
                         | apply Rollback_on_trace | apply Close_on_trace ])
             trace_leaf.
Qed.

Lemma Run_loop_on_trace info from to :
  inv (Run_loop drv StructNameToTableName info from to).
Proof.
  unfold Run_loop. destruct (from <? to);
    [apply forward_loop_on_trace|apply reverse_loop_on_trace].
Qed.

Lemma recovered_on_trace x : inv (recovered drv x).
Proof.
  unfold recovered.
  keeps_by ltac:(first [ apply untrapColumnsForSqlite3_on_trace
                       | apply Rollback_on_trace | apply Close_on_trace ])
           trace_leaf.
Qed.

End TraceInvariant.

(** ** The commit *)

Section Commit.

Variable drv : World -> call -> response.
Variable StructNameToTableName : string -> string.

Lemma commits_app (n : nat) (tr : list event) (e : event) :
  count is_commit tr = n -> not_commit e -> count is_commit (tr ++ [e]) = n.
Proof.
  unfold not_commit. intros Hn He. rewrite count_app. unfold count at 2. simpl.
  rewrite He. simpl. lia.
Qed.

Lemma other_calls_not_commit (c : call) (F C : namefn) (r : response) :
  c <> TxCommit -> not_commit (Called c F C r).
Proof. unfold not_commit. destruct c; simpl; congruence. Qed.

Lemma Begin_commits (n : nat) : keeps (commits_are n) (commits_are n) (Begin drv).
Proof.
  apply (Begin_on_trace drv not_commit _ (commits_app n) other_calls_not_commit).
Qed.

Lemma Run_loop_commits (n : nat) info from to :
  keeps (commits_are n) (commits_are n)
        (Run_loop drv StructNameToTableName info from to).
Proof.
  apply (Run_loop_on_trace drv StructNameToTableName not_commit _
           (commits_app n) other_calls_not_commit).
Qed.

Lemma recovered_commits (n : nat) x :
  keeps (commits_are n) (commits_are n) (recovered drv x).
Proof.
  apply (recovered_on_trace drv not_commit _ (commits_app n) other_calls_not_commit);
    reflexivity.
Qed.

(** [Commit] asks the database once when the handle is there and the
    transaction open, and otherwise panics at once. *)
Lemma Commit_open (n : nat) (w : World) :
  mg_tx w && s_m w = true -> commits_are n w ->
  commits_are (S n) (fst (Commit drv w)).
Proof.
  intros Ho Hw. apply andb_true_iff in Ho as [Htx Hm].
  unfold Commit, bind, deref_m, read, ask, update, panic.
  unfold commits_are, on_trace in *. rewrite Hm. simpl. rewrite Htx. simpl.
  assert (Hc : forall r, count is_commit
                 (trace w ++ [Called TxCommit (FieldNameToColumnName w)
                                     (ColumnNameToFieldName w) r]) = S n).
  { intros r. rewrite count_app, Hw. unfold count. simpl. lia. }
  destruct (drv w TxCommit); simpl; apply Hc.
Qed.

Lemma Commit_closed (w : World) :
  mg_tx w && s_m w = false -> exists x, Commit drv w = (w, Panicked x).
Proof.
  intros Ho. unfold Commit, bind, deref_m, read, panic.
  destruct (s_m w); simpl; [|eauto].
  destruct (mg_tx w); simpl; [discriminate|eauto].
Qed.

(** [Run] asks for one commit when every step of the range went through
    and left the transaction open, and for none on any other path: not
    when [from = to], not when a step returned an error, not when
    something panicked.  The same holds for a range walked backwards. *)
Lemma Run_commit_calls (info : list ReversibleMigration) (from to : Z) (w : World) :
  count is_commit (trace (fst (Run drv StructNameToTableName info from to w)))
  = (count is_commit (trace w)
     + (if all_steps_succeed drv StructNameToTableName info from to w then 1 else 0))%nat.
Proof.
  set (n := count is_commit (trace w)).
  assert (Hw : commits_are n w) by reflexivity.
  unfold Run, all_steps_succeed.
  destruct (from =? to); [simpl; fold n; lia|].
  unfold bind at 1.
  pose proof (Begin_commits n w Hw) as HB.
  destruct (Begin drv w) as [w0 [[]|x]]; [|simpl; rewrite HB; lia].
  unfold with_recover, Run_body.
  change (if from <? to
          then forward_loop drv StructNameToTableName info from (Z.to_nat (to - from))
          else reverse_loop drv StructNameToTableName info (from - 1)
                            (Z.to_nat (from - to)))
    with (Run_loop drv StructNameToTableName info from to).
  unfold bind at 1.
  pose proof (Run_loop_commits n info from to w0 HB) as HL.
  destruct (Run_loop drv StructNameToTableName info from to w0) as [w1 [[e|]|x]].
  - simpl. rewrite HL. lia.
  - unfold bind. destruct (mg_tx w1 && s_m w1) eqn:Ho.
    + pose proof (Commit_open n w1 Ho HL) as HC.
      destruct (Commit drv w1) as [w2 [[]|x]]; simpl in HC.
      * simpl. rewrite HC. lia.
      * rewrite (keeps_run _ _ w2 (recovered_commits (S n) x) HC). lia.
    + destruct (Commit_closed w1 Ho) as [x Hx]. rewrite Hx.
      rewrite (keeps_run _ _ w1 (recovered_commits n x) HL). lia.
  - rewrite (keeps_run _ _ w1 (recovered_commits n x) HL). lia.
Qed.

End Commit.

(** ** The order of the steps *)

Lemma steps_from_S (info : list ReversibleMigration) (k n : nat) (step : ReversibleMigration) :
  info !! k = Some step ->
  steps_from info k (S n) = step :: steps_from info (S k) n.
Proof. intros H. unfold steps_from. simpl. rewrite H. reflexivity. Qed.

Lemma steps_from_snoc (info : list ReversibleMigration) (k n : nat) (step : ReversibleMigration) :
  info !! (k + n)%nat = Some step ->
  steps_from info k (S n) = steps_from info k n ++ [step].
Proof.
  intros H. unfold steps_from. rewrite seq_S, omap_app. simpl. rewrite H.
  reflexivity.
Qed.

Lemma steps_from_length (info : list ReversibleMigration) (n : nat) :
  forall k, (k + n <= length info)%nat -> length (steps_from info k n) = n.
Proof.
  induction n as [|n IH]; intros k Hk; [reflexivity|].
  destruct (lookup_lt_is_Some_2 info k ltac:(lia)) as [step Hs].
  rewrite (steps_from_S info k n step Hs). simpl. rewrite IH; [reflexivity|lia].
Qed.

Lemma steps_from_lookup (info : list ReversibleMigration) (n : nat) :
  forall k j, (k + n <= length info)%nat -> (j < n)%nat ->
              steps_from info k n !! j = info !! (k + j)%nat.
Proof.
  induction n as [|n IH]; intros k j Hk Hj; [lia|].
  destruct (lookup_lt_is_Some_2 info k ltac:(lia)) as [step Hs].
  rewrite (steps_from_S info k n step Hs). destruct j as [|j]; simpl.
  - rewrite Nat.add_0_r. symmetry. exact Hs.
  - rewrite IH; [|lia|lia]. f_equal. lia.
Qed.

Lemma bind_cong {A B} (c c' : M A) (k k' : A -> M B) (w : World) :
  (forall w0, c w0 = c' w0) -> (forall a w0, k a w0 = k' a w0) ->
  bind c k w = bind c' k' w.
Proof.
  intros Hc Hk. unfold bind. rewrite Hc. destruct (c' w) as [w' [a|x]]; auto.
Qed.

Lemma with_recover_cong {A} (b b' : M A) (h : panicval -> M A) (w : World) :
  (forall w0, b w0 = b' w0) -> with_recover b h w = with_recover b' h w.
Proof. intros Hb. unfold with_recover. rewrite Hb. reflexivity. Qed.

Section Order_facts.

Variable drv : World -> call -> response.
Variable StructNameToTableName : string -> string.

Lemma at_index_in_range (info : list ReversibleMigration) (k : nat)
      (step : ReversibleMigration) (w : World) :
  info !! k = Some step -> at_index info (Z.of_nat k) w = (w, Normal step).
Proof.
  intros H. unfold at_index.
  destruct (Z.of_nat k <? 0) eqn:Hneg; [apply Z.ltb_lt in Hneg; lia|].
  rewrite Nat2Z.id, H. reflexivity.
Qed.

(** The forward loop applies [info[k]], [info[k+1]], ... in this order. *)
Lemma forward_loop_in_order (info : list ReversibleMigration) (n : nat) :
  forall k w, (k + n <= length info)%nat ->
    forward_loop drv StructNameToTableName info (Z.of_nat k) n w
    = apply_each drv StructNameToTableName (steps_from info k n) false w.
Proof.
  induction n as [|n IH]; intros k w Hk; [reflexivity|].
  destruct (lookup_lt_is_Some_2 info k ltac:(lia)) as [step Hs].
  rewrite (steps_from_S info k n step Hs). simpl.
  unfold bind at 1. rewrite (at_index_in_range info k step w Hs).
  unfold bind at 1. unfold bind at 3.
  destruct (migrate drv StructNameToTableName step false w) as [w' [[e|]|x]];
    try reflexivity.
  replace (Z.of_nat k + 1) with (Z.of_nat (S k)) by lia.
  apply IH. lia.
Qed.

(** The backward loop applies [info[k+n-1]], ..., [info[k]] in this order. *)
Lemma reverse_loop_in_order (info : list ReversibleMigration) (n : nat) :
  forall k w, (k + n <= length info)%nat ->
    reverse_loop drv StructNameToTableName info (Z.of_nat (k + n) - 1) n w
    = apply_each drv StructNameToTableName (reverse (steps_from info k n)) true w.
Proof.
  induction n as [|n IH]; intros k w Hk; [reflexivity|].
  destruct (lookup_lt_is_Some_2 info (k + n) ltac:(lia)) as [step Hs].
  rewrite (steps_from_snoc info k n step Hs), reverse_snoc. simpl.
  replace (Z.of_nat (k + S n) - 1) with (Z.of_nat (k + n)) by lia.
  unfold bind at 1. rewrite (at_index_in_range info (k + n) step w Hs).
  unfold bind at 1. unfold bind at 3.
  destruct (migrate drv StructNameToTableName step true w) as [w' [[e|]|x]];
    try reflexivity.
  apply IH. lia.
Qed.

(** C4: with [from = to], [Run] returns nil in an unchanged world; with
    [from < to] it applies [info[from]], ..., [info[to-1]] in this order
    with the reverse flag false; with [from > to] it applies
    [info[from-1]], ..., [info[to]] in this order with the flag true. *)
Theorem Run_applies_in_order (info : list ReversibleMigration) (from to : Z) (w : World) :
  (from = to -> Run drv StructNameToTableName info from to w = (w, Normal None)) /\
  (0 <= from -> from < to -> to <= Z.of_nat (length info) ->
   Run drv StructNameToTableName info from to w
   = Run_in_order drv StructNameToTableName info from to w /\
   forall j, (j < Z.to_nat (to - from))%nat ->
             steps_between info from to !! j = info !! (Z.to_nat from + j)%nat) /\
  (0 <= to -> to < from -> from <= Z.of_nat (length info) ->
   Run drv StructNameToTableName info from to w
   = Run_in_order drv StructNameToTableName info from to w /\
   forall j, (j < Z.to_nat (from - to))%nat ->
             reverse (steps_between info to from) !! j
             = info !! (Z.to_nat from - 1 - j)%nat).
Proof.
  split; [|split].
  - intros ->. unfold Run. rewrite Z.eqb_refl. reflexivity.
  - intros H0 Hlt Hlen. split.
    + unfold Run, Run_in_order. destruct (from =? to); [reflexivity|].
      apply bind_cong; [reflexivity|]. intros _ w0.
      apply with_recover_cong. intros w1. unfold Run_body.
      apply bind_cong; [|reflexivity]. intros w2.
      apply Z.ltb_lt in Hlt as Hb. rewrite Hb.
      replace from with (Z.of_nat (Z.to_nat from)) at 1 by lia.
      unfold steps_between.
      rewrite forward_loop_in_order by lia. reflexivity.
    + intros j Hj. unfold steps_between. apply steps_from_lookup; lia.
  - intros H0 Hlt Hlen. split.
    + unfold Run, Run_in_order. destruct (from =? to); [reflexivity|].
      apply bind_cong; [reflexivity|]. intros _ w0.
      apply with_recover_cong. intros w1. unfold Run_body.
      apply bind_cong; [|reflexivity]. intros w2.
      assert (Hb : (from <? to) = false) by (apply Z.ltb_ge; lia). rewrite Hb.
      replace (from - 1)
        with (Z.of_nat (Z.to_nat to + Z.to_nat (from - to)) - 1) by lia.
      unfold steps_between.
      rewrite reverse_loop_in_order by lia. reflexivity.
    + intros j Hj. unfold steps_between.
      assert (Hl : length (steps_from info (Z.to_nat to) (Z.to_nat (from - to)))
                   = Z.to_nat (from - to)) by (apply steps_from_length; lia).
      rewrite reverse_lookup by lia. rewrite Hl.
      rewrite steps_from_lookup by lia. f_equal. lia.
Qed.

End Order_facts.

Lemma Run_applies_in_order_witness :
  let info := All Example.myMigrations in
  let run := Run Example.healthy toSnake info in
  let spec := Run_in_order Example.healthy toSnake info in
  run 1 1 Example.fresh = (Example.fresh, Normal None) /\
  run 0 2 Example.fresh = spec 0 2 Example.fresh /\
  run 2 0 Example.fresh = spec 2 0 Example.fresh.
Proof.
  intros info run spec. split; [|split].
  - exact (proj1 (Run_applies_in_order Example.healthy toSnake info 1 1
                    Example.fresh) eq_refl).
  - refine (proj1 (proj1 (proj2 (Run_applies_in_order Example.healthy toSnake
                                   info 0 2 Example.fresh)) _ _ _));
      simpl; lia.
  - refine (proj1 (proj2 (proj2 (Run_applies_in_order Example.healthy toSnake
                                   info 2 0 Example.fresh)) _ _ _));
      simpl; lia.
Defined.

(** ** The column-name trap *)

Lemma untrapped_names_only f c : names_only (untrapped f c).
Proof.
  intros w w' (HF & HC & HoF & HoC) (H1 & H2 & H3 & H4).
  unfold untrapped. rewrite HF, HC, HoF, HoC. auto.
Qed.

Lemma trapped_names_only f c : names_only (trapped f c).
Proof.
  intros w w' (HF & HC & HoF & HoC) (H1 & H2).
  unfold trapped. rewrite HoF, HoC. auto.
Qed.

Section Untouched.

(** What does not trap leaves such a property alone. *)
Variable drv : World -> call -> response.
Variable StructNameToTableName : string -> string.
Variable P E : World -> Prop.
Hypothesis P_names_only : names_only P.
Hypothesis P_E : forall w, P w -> E w.

Ltac names_leaf :=
  first
    [ exact P_E
    | intros; match goal with
              | H : P ?w |- P _ =>
                  apply (P_names_only w); [|exact H];
                  unfold same_names; simpl; auto
              end ].

Lemma Begin_names : keeps P E (Begin drv).
Proof. unfold Begin. keeps_all names_leaf. Qed.

Lemma GetQbsSameTransaction_names : keeps P E GetQbsSameTransaction.
Proof. unfold GetQbsSameTransaction. keeps_all names_leaf. Qed.

Lemma HasColumnOperations_names : keeps P E HasColumnOperations.
Proof. unfold HasColumnOperations. keeps_all names_leaf. Qed.

Lemma Rollback_names : keeps P E (Rollback drv).
Proof. unfold Rollback. keeps_all names_leaf. Qed.

Lemma Commit_names : keeps P E (Commit drv).
Proof. unfold Commit. keeps_all names_leaf. Qed.

Lemma CreateTable_names tblName structPtr omit :
  keeps P E (CreateTable drv StructNameToTableName tblName structPtr omit).
Proof. unfold CreateTable. keeps_all names_leaf. Qed.

Lemma DropTable_names strutPtr :
  keeps P E (DropTable drv StructNameToTableName strutPtr).
Proof. unfold DropTable. keeps_all names_leaf. Qed.

Lemma RenameTable_names oldname newname :
  keeps P E (RenameTable drv oldname newname).
Proof. unfold RenameTable. keeps_all names_leaf. Qed.

Lemma Close_names : keeps P E (Close drv).
Proof. unfold Close, Migration_Close. keeps_all names_leaf. Qed.

Lemma ChangeTable_names logicalName prev_raw curr_raw :
  keeps P E (ChangeTable logicalName prev_raw curr_raw).
Proof. unfold ChangeTable. keeps_all names_leaf. Qed.

Lemma at_index_names info i : keeps P E (at_index info i).
Proof. unfold at_index. keeps_all names_leaf. Qed.

Lemma ask_names c : keeps P E (ask drv c).
Proof. keeps_all names_leaf. Qed.

Lemma lift_names {A} (o : outcome A) : keeps P E (lift o).
Proof. keeps_all names_leaf. Qed.

End Untouched.

Section Trap.

Variable drv : World -> call -> response.
Variable StructNameToTableName : string -> string.

(** The mappings before [Run]. *)
Variable f c : namefn.

Local Abbreviation U := (untrapped f c).
Local Abbreviation T := (restorable f c).
Local Abbreviation TR := (trapped f c).

Lemma untrapped_restorable w : U w -> T w.
Proof. intros H. left. exact H. Qed.

Lemma trapped_restorable w : TR w -> T w.
Proof. intros H. right. exact H. Qed.

Lemma trap_saves suffix :
  triple U (trapColumnsForSqlite3 suffix) (fun _ => TR) (fun _ => T).
Proof.
  intros w (H1 & H2 & H3 & H4). unfold trapColumnsForSqlite3, update, trapped.
  simpl. rewrite H3, H4. auto.
Qed.

Lemma untrap_restores (E : panicval -> World -> Prop) :
  triple T untrapColumnsForSqlite3 (fun _ => U) E.
Proof.
  intros w [(H1 & H2 & H3 & H4)|(H1 & H2)];
    unfold untrapColumnsForSqlite3, update, untrapped; simpl.
  - rewrite H1. simpl. rewrite H2. auto.
  - rewrite H1. simpl. rewrite H2. simpl. auto.
Qed.

Lemma untrap_from_trapped :
  triple TR untrapColumnsForSqlite3 (fun _ => U) (fun _ => T).
Proof.
  eapply triple_weaken; [exact (untrap_restores (fun _ => T))| |auto|auto].
  exact trapped_restorable.
Qed.

Lemma untrap_from_untrapped : keeps U T untrapColumnsForSqlite3.
Proof.
  eapply triple_weaken; [exact (untrap_restores (fun _ => T))| |auto|auto].
  exact untrapped_restorable.
Qed.

Ltac side :=
  first [ exact (untrapped_names_only f c) | exact untrapped_restorable
        | exact (trapped_names_only f c) | exact trapped_restorable ].

Ltac untouched :=
  first
    [ eapply Begin_names
    | eapply GetQbsSameTransaction_names
    | eapply HasColumnOperations_names
    | eapply Rollback_names
    | eapply Commit_names
    | eapply CreateTable_names
    | eapply DropTable_names
    | eapply RenameTable_names
    | eapply Close_names
    | eapply ChangeTable_names
    | eapply at_index_names
    | eapply ask_names
    | eapply lift_names ];
  side.

Ltac trap_leaf :=
  first
    [ exact untrapped_restorable
    | intros; match goal with
              | H : untrapped f c ?w |- untrapped f c _ =>
                  apply (untrapped_names_only f c w); [|exact H];
                  unfold same_names; simpl; auto
              end ].

(** The window of [renameCurrentTablesAddColumns]: trap, create, untrap. *)
Lemma create_window (pr : nameStructPair) :
  keeps U T
    (trapColumnsForSqlite3 NEW >>
     let* omit := lift (fieldsWithSuffix (typeRep pr) OLD) in
     let* err := CreateTable drv StructNameToTableName "" (typeRep pr) omit in
     untrapColumnsForSqlite3 >> ret err).
Proof.
  eapply triple_bind; [apply trap_saves|]. intros ?; cbv beta.
  eapply triple_bind; [untouched|]. intros omit; cbv beta.
  eapply triple_bind; [untouched|]. intros err; cbv beta.
  eapply triple_bind; [apply untrap_from_trapped|]. intros ?; cbv beta.
  apply keeps_ret.
Qed.

Lemma renameCurrentTablesAddColumns_untraps reverse :
  keeps U T (renameCurrentTablesAddColumns drv StructNameToTableName reverse).
Proof.
  unfold renameCurrentTablesAddColumns.
  keeps_by ltac:(first [ untouched | apply create_window ]) trap_leaf.
Qed.

Lemma removeOldRenameColumns_untraps :
  keeps U T (removeOldRenameColumns drv StructNameToTableName).
Proof.
  unfold removeOldRenameColumns. keeps_by untouched trap_leaf.
Qed.

Lemma FindAll_untraps logicalName : keeps U T (FindAll drv logicalName).
Proof.
  unfold FindAll.
  apply keeps_bind; [untouched|]. intros ?; cbv beta.
  apply keeps_bind; [apply keeps_read|]. intros prev.
  destruct (prev !! logicalName) as [pr|]; [|apply keeps_panic; trap_leaf].
  eapply triple_bind; [apply trap_saves|]. intros ?; cbv beta.
  eapply triple_bind; [untouched|]. intros omit; cbv beta.
  eapply triple_bind; [untouched|].
  intros [id rows|err|x]; cbv beta.
  - eapply triple_bind; [apply untrap_from_trapped|]. intros ?; cbv beta. apply keeps_ret.
  - eapply triple_bind; [apply untrap_from_trapped|]. intros ?; cbv beta.
    apply keeps_bind; [untouched|]. intros ?; cbv beta. apply keeps_ret.
  - intros w Hw. right. exact Hw.
Qed.

Lemma Save_untraps logicalName curr : keeps U T (Save drv logicalName curr).
Proof.
  unfold Save.
  apply keeps_bind; [apply keeps_lift; trap_leaf|]. intros ?; cbv beta.
  apply keeps_bind; [untouched|]. intros ?; cbv beta.
  destruct curr as [rec|]; [|apply keeps_panic; trap_leaf].
  apply keeps_bind; [apply keeps_lift; trap_leaf|]. intros omit.
  eapply triple_bind; [apply trap_saves|]. intros ?; cbv beta.
  eapply triple_bind; [untouched|].
  intros [id rows|err|x]; cbv beta.
  - eapply triple_bind; [apply untrap_from_trapped|]. intros ?; cbv beta. apply keeps_ret.
  - eapply triple_bind; [apply untrap_from_trapped|]. intros ?; cbv beta.
    apply keeps_bind; [untouched|]. intros ?; cbv beta. apply keeps_ret.
  - intros w Hw. right. exact Hw.
Qed.

(** A program that does not recover lets every panic through, so the
    deferred function of [Run] meets the trap it has to undo. *)
Lemma exec_untraps {R} (p : Prog R) : no_recover p -> keeps U T (exec drv p).
Proof.
  induction p as [r|x|l a b k IH|l k IH|l cur k IH|body IHb h IHh]; simpl; intros Hno.
  - apply keeps_ret.
  - apply keeps_panic. trap_leaf.
  - apply keeps_bind; [untouched|]. intros e. apply IH. apply Hno.
  - apply keeps_bind; [apply FindAll_untraps|]. intros r. apply IH. apply Hno.
  - apply keeps_bind; [apply Save_untraps|]. intros r. apply IH. apply Hno.
  - contradiction.
Qed.

Lemma migrate_untraps info reverse :
  plain_step info ->
  keeps U T (migrate drv StructNameToTableName info reverse).
Proof.
  intros [HS HD]. unfold migrate, clear, flipOver, log.
  keeps_by ltac:(first [ apply exec_untraps; first [exact HS|apply HD]
                       | apply renameCurrentTablesAddColumns_untraps
                       | apply removeOldRenameColumns_untraps
                       | untouched ])
           trap_leaf.
Qed.

Lemma Run_loop_untraps info from to :
  Forall plain_step info ->
  keeps U T (Run_loop drv StructNameToTableName info from to).
Proof.
  intros Hplain.
  assert (Hstep : forall i (k : ReversibleMigration -> M (option error)),
             (forall step, plain_step step -> keeps U T (k step)) ->
             keeps U T (bind (at_index info i) k)).
  { intros i k Hk. unfold at_index.
    destruct (i <? 0); [apply keeps_bind_panic; trap_leaf|].
    destruct (info !! Z.to_nat i) as [step|] eqn:Hs;
      [|apply keeps_bind_panic; trap_leaf].
    apply keeps_bind_ret. apply Hk.
    exact (proj1 (Forall_lookup _ _) Hplain _ _ Hs). }
  unfold Run_loop. destruct (from <? to).
  - generalize (Z.to_nat (to - from)) as n. generalize from as i.
    intros i n. revert i.
    induction n as [|n IH]; intros i; simpl; [apply keeps_ret|].
    apply Hstep. intros step Hs.
    keeps_by ltac:(first [ apply IH | apply (migrate_untraps _ _ Hs) | untouched ])
             trap_leaf.
  - generalize (Z.to_nat (from - to)) as n. generalize (from - 1) as i.
    intros i n. revert i.
    induction n as [|n IH]; intros i; simpl; [apply keeps_ret|].
    apply Hstep. intros step Hs.
    keeps_by ltac:(first [ apply IH | apply (migrate_untraps _ _ Hs) | untouched ])
             trap_leaf.
Qed.

(** The deferred function untraps first: whatever it does next, and
    however it ends, the mappings are those from before. *)
Lemma recovered_untraps x :
  triple T (recovered drv x) (fun _ => U) (fun _ => U).
Proof.
  unfold recovered.
  eapply triple_bind; [exact (untrap_restores (fun _ => U))|]. intros ?; cbv beta.
  assert (HU : forall w, U w -> U w) by auto.
  apply keeps_bind;
    [exact (Rollback_names drv U U (untrapped_names_only f c) HU)|]. intros _.
  apply keeps_bind;
    [exact (Close_names drv U U (untrapped_names_only f c) HU)|]. intros _.
  apply keeps_bind; [apply keeps_update; trap_leaf|]. intros _.
  apply keeps_bind; [apply keeps_update; trap_leaf|]. intros _.
  apply keeps_ret.
Qed.

Lemma Run_untraps info from to :
  Forall plain_step info ->
  triple U (Run drv StructNameToTableName info from to)
         (fun _ => U) (fun _ => U).
Proof.
  intros Hplain. unfold Run. destruct (from =? to); [apply keeps_ret|].
  assert (HU : forall w, U w -> U w) by auto.
  apply keeps_bind;
    [exact (Begin_names drv U U (untrapped_names_only f c) HU)|]. intros _.
  apply (triple_with_recover U T); [|exact recovered_untraps].
  unfold Run_body.
  change (if from <? to
          then forward_loop drv StructNameToTableName info from (Z.to_nat (to - from))
          else reverse_loop drv StructNameToTableName info (from - 1)
                            (Z.to_nat (from - to)))
    with (Run_loop drv StructNameToTableName info from to).
  apply keeps_bind; [apply Run_loop_untraps; exact Hplain|].
  intros [err|]; [apply keeps_ret|].
  apply keeps_bind; [untouched|]. intros _. apply keeps_ret.
Qed.

Lemma Run_ends_untrapped (info : list ReversibleMigration) (from to : Z) (w : World) :
  Forall plain_step info ->
  U w -> U (fst (Run drv StructNameToTableName info from to w)).
Proof.
  intros Hplain Hw. pose proof (Run_untraps info from to Hplain w Hw) as HR.
  destruct (Run drv StructNameToTableName info from to w) as [w1 [e|x]]; exact HR.
Qed.

End Trap.




(** ** The rename/shadow protocol and the finalization *)

Lemma range_err_trace {A} (I : World -> Prop) (ev : A -> event -> Prop)
      (body : A -> M (option error)) (xs : list A) :
  (forall x w w' o, In x xs -> I w -> body x w = (w', o) ->
     I w' /\ loop_trace ev [x] (finished_err o) w w') ->
  forall w w' o, I w -> range_err body xs w = (w', o) ->
     I w' /\ loop_trace ev xs (finished_err o) w w'.
Proof.
  induction xs as [|x rest IH]; intros Hbody w w' o Hw Hrun.
  - simpl in Hrun. inversion Hrun; subst. split; [exact Hw|].
    exists []. rewrite app_nil_r. repeat split; [constructor|].
    intros _ y [].
  - simpl in Hrun. unfold bind in Hrun.
    destruct (body x w) as [w1 o1] eqn:Hb.
    destruct (Hbody x w w1 o1 (or_introl eq_refl) Hw Hb)
      as [Hw1 (tl1 & Ht1 & Hall1 & Hfin1)].
    assert (Hall1' : Forall (fun e => exists y, In y (x :: rest) /\ ev y e) tl1).
    { eapply Forall_impl; [exact Hall1|]. intros e (y & [<-|[]] & Hy).
      exists x. split; [left; reflexivity|exact Hy]. }
    destruct o1 as [[err|]|px].
    + inversion Hrun; subst. split; [exact Hw1|].
      exists tl1. repeat split; [exact Ht1|exact Hall1'|discriminate].
    + assert (Hrest : forall y w0 w0' o0, In y rest -> I w0 -> body y w0 = (w0', o0) ->
                 I w0' /\ loop_trace ev [y] (finished_err o0) w0 w0').
      { intros y w0 w0' o0 Hy. apply Hbody. right. exact Hy. }
      destruct (IH Hrest w1 w' o Hw1 Hrun) as [Hw' (tl2 & Ht2 & Hall2 & Hfin2)].
      split; [exact Hw'|]. exists (tl1 ++ tl2). repeat split.
      * rewrite Ht2, Ht1, app_assoc. reflexivity.
      * apply Forall_app. split; [exact Hall1'|].
        eapply Forall_impl; [exact Hall2|]. intros e (y & Hy & He).
        exists y. split; [right; exact Hy|exact He].
      * intros Hfin y [<-|Hy].
        -- destruct (Hfin1 eq_refl x (or_introl eq_refl)) as (e & He & Hev).
           exists e. split; [apply in_or_app; left; exact He|exact Hev].
        -- destruct (Hfin2 Hfin y Hy) as (e & He & Hev).
           exists e. split; [apply in_or_app; right; exact He|exact Hev].
    + inversion Hrun; subst. split; [exact Hw1|].
      exists tl1. repeat split; [exact Ht1|exact Hall1'|discriminate].
Qed.

Lemma range_do_trace {A} (I : World -> Prop) (ev : A -> event -> Prop)
      (body : A -> M unit) (xs : list A) :
  (forall x w w' o, In x xs -> I w -> body x w = (w', o) ->
     I w' /\ loop_trace ev [x] (finished_do o) w w') ->
  forall w w' o, I w -> range_do body xs w = (w', o) ->
     I w' /\ loop_trace ev xs (finished_do o) w w'.
Proof.
  induction xs as [|x rest IH]; intros Hbody w w' o Hw Hrun.
  - simpl in Hrun. inversion Hrun; subst. split; [exact Hw|].
    exists []. rewrite app_nil_r. repeat split; [constructor|].
    intros _ y [].
  - simpl in Hrun. unfold bind in Hrun.
    destruct (body x w) as [w1 o1] eqn:Hb.
    destruct (Hbody x w w1 o1 (or_introl eq_refl) Hw Hb)
      as [Hw1 (tl1 & Ht1 & Hall1 & Hfin1)].
    assert (Hall1' : Forall (fun e => exists y, In y (x :: rest) /\ ev y e) tl1).
    { eapply Forall_impl; [exact Hall1|]. intros e (y & [<-|[]] & Hy).
      exists x. split; [left; reflexivity|exact Hy]. }
    destruct o1 as [[]|px].
    + assert (Hrest : forall y w0 w0' o0, In y rest -> I w0 -> body y w0 = (w0', o0) ->
                 I w0' /\ loop_trace ev [y] (finished_do o0) w0 w0').
      { intros y w0 w0' o0 Hy. apply Hbody. right. exact Hy. }
      destruct (IH Hrest w1 w' o Hw1 Hrun) as [Hw' (tl2 & Ht2 & Hall2 & Hfin2)].
      split; [exact Hw'|]. exists (tl1 ++ tl2). repeat split.
      * rewrite Ht2, Ht1, app_assoc. reflexivity.
      * apply Forall_app. split; [exact Hall1'|].
        eapply Forall_impl; [exact Hall2|]. intros e (y & Hy & He).
        exists y. split; [right; exact Hy|exact He].
      * intros Hfin y [<-|Hy].
        -- destruct (Hfin1 eq_refl x (or_introl eq_refl)) as (e & He & Hev).
           exists e. split; [apply in_or_app; left; exact He|exact Hev].
        -- destruct (Hfin2 Hfin y Hy) as (e & He & Hev).
           exists e. split; [apply in_or_app; right; exact He|exact Hev].
    + inversion Hrun; subst. split; [exact Hw1|].
      exists tl1. repeat split; [exact Ht1|exact Hall1'|discriminate].
Qed.

Lemma loop_trace_silent {A} (ev : A -> event -> Prop) (x : A) (w w' : World) :
  trace w' = trace w -> loop_trace ev [x] false w w'.
Proof.
  intros Ht. exists []. rewrite app_nil_r.
  split; [exact Ht|]. split; [constructor|discriminate].
Qed.

Lemma loop_trace_nothing {A} (ev : A -> event -> Prop) (x : A) (w : World) :
  loop_trace ev [x] false w w.
Proof. apply loop_trace_silent. reflexivity. Qed.

Lemma loop_trace_one {A} (ev : A -> event -> Prop) (x : A) (b : bool)
      (w w' : World) (e : event) :
  trace w' = trace w ++ [e] -> ev x e -> loop_trace ev [x] b w w'.
Proof.
  intros Ht He. exists [e]. repeat split; [exact Ht| |].
  - constructor; [|constructor]. exists x. split; [left; reflexivity|exact He].
  - intros _ y [<-|[]]. exists e. split; [left; reflexivity|exact He].
Qed.

Section Bodies.

Variable drv : World -> call -> response.
Variable StructNameToTableName : string -> string.

(** A property of the world that new events do not disturb. *)
Variable I : World -> Prop.
Hypothesis I_emit : forall e w, I w -> I (emit e w).

Lemma RenameTable_body {A} (ev : A -> event -> Prop) (x : A) oldname newname :
  (forall e, rename_event oldname newname e -> ev x e) ->
  forall w w' o, I w -> RenameTable drv oldname newname w = (w', o) ->
    I w' /\ loop_trace ev [x] (finished_err o) w w'.
Proof.
  intros Hev w w' o Hw Hrun.
  unfold RenameTable, bind, deref_m, read, ask, ret, panic in Hrun.
  destruct (s_m w); simpl in Hrun.
  - set (e := Called (ExecRename (mg_tx w) oldname newname)
                     (FieldNameToColumnName w) (ColumnNameToFieldName w)
                     (drv w (ExecRename (mg_tx w) oldname newname))) in *.
    assert (He : ev x e) by (apply Hev; unfold rename_event, e; eauto).
    assert (Hw' : w' = emit e w)
      by (destruct (drv w (ExecRename (mg_tx w) oldname newname));
          inversion Hrun; reflexivity).
    subst w'. split; [apply I_emit; exact Hw|].
    apply (loop_trace_one ev x _ w (emit e w) e); [reflexivity|exact He].
  - inversion Hrun; subst. split; [exact Hw|apply loop_trace_nothing].
Qed.

Lemma DropTable_body {A} (ev : A -> event -> Prop) (x : A) strutPtr :
  (forall t e, tableName StructNameToTableName strutPtr = Normal t ->
               drop_event (StructNameToTableName t) e -> ev x e) ->
  forall w w' o, I w -> DropTable drv StructNameToTableName strutPtr w = (w', o) ->
    I w' /\ loop_trace ev [x] (finished_do o) w w'.
Proof.
  intros Hev w w' o Hw Hrun.
  unfold DropTable, bind, lift, deref_m, read, ask, ret, panic in Hrun.
  destruct (tableName StructNameToTableName strutPtr) as [t|px] eqn:Ht;
    [|inversion Hrun; subst; split; [exact Hw|apply loop_trace_nothing]].
  destruct (s_m w); simpl in Hrun;
    [|inversion Hrun; subst; split; [exact Hw|apply loop_trace_nothing]].
  set (c := ExecDropTable (mg_tx w) (StructNameToTableName t)) in *.
  set (e := Called c (FieldNameToColumnName w) (ColumnNameToFieldName w) (drv w c)) in *.
  assert (He : ev x e) by (apply (Hev t); [reflexivity|unfold drop_event, e, c; eauto]).
  assert (Hw' : w' = emit e w) by (destruct (drv w c); inversion Hrun; reflexivity).
  subst w'. split; [apply I_emit; exact Hw|].
  apply (loop_trace_one ev x _ w (emit e w) e); [reflexivity|exact He].
Qed.

End Bodies.

Lemma untrap_trace (w : World) :
  exists w', untrapColumnsForSqlite3 w = (w', Normal tt) /\ trace w' = trace w.
Proof.
  unfold untrapColumnsForSqlite3, update. eexists. split; [reflexivity|].
  destruct (s_oldFieldNameToColumnName w); simpl;
    destruct (s_oldColumnNameToFieldName w); reflexivity.
Qed.

Lemma untrap_then_ret {A} (a : A) (w w' : World) (o : outcome A) :
  (untrapColumnsForSqlite3 >> ret a) w = (w', o) -> trace w' = trace w.
Proof.
  intros H. unfold bind in H. destruct (untrap_trace w) as (w2 & Hu & Ht).
  rewrite Hu in H. inversion H; subst. exact Ht.
Qed.

Section Window.

Variable drv : World -> call -> response.
Variable StructNameToTableName : string -> string.

(** [CreateTable] without an override name panics before it asks, or
    asks once for the table named after the record type. *)
Lemma CreateTable_cases structPtr omit (w w' : World) (o : outcome (option error)) :
  CreateTable drv StructNameToTableName "" structPtr omit w = (w', o) ->
  (w' = w /\ finished_err o = false) \/
  (exists t r,
      tableName StructNameToTableName structPtr = Normal t /\
      w' = emit (Called (ExecCreateTable (mg_tx w) t structPtr omit)
                        (FieldNameToColumnName w) (ColumnNameToFieldName w) r) w).
Proof.
  intros Hrun.
  unfold CreateTable, bind, lift, deref_m, read, ask, ret, panic in Hrun.
  destruct (tableName StructNameToTableName structPtr) as [t|px] eqn:Ht;
    [|inversion Hrun; subst; left; split; reflexivity].
  simpl in Hrun.
  destruct (s_m w); simpl in Hrun;
    [|inversion Hrun; subst; left; split; reflexivity].
  right. exists t, (drv w (ExecCreateTable (mg_tx w) t structPtr omit)).
  split; [reflexivity|].
  destruct (drv w (ExecCreateTable (mg_tx w) t structPtr omit));
    inversion Hrun; reflexivity.
Qed.

(** The body of the second loop of [renameCurrentTablesAddColumns]. *)
Lemma create_body {A} (ev : A -> event -> Prop) (x : A) (pr : nameStructPair) :
  (forall t e, tableName StructNameToTableName (typeRep pr) = Normal t ->
               create_event t pr e -> ev x e) ->
  forall w w' o,
    (trapColumnsForSqlite3 NEW >>
     let* omit := lift (fieldsWithSuffix (typeRep pr) OLD) in
     let* err := CreateTable drv StructNameToTableName "" (typeRep pr) omit in
     untrapColumnsForSqlite3 >> ret err) w = (w', o) ->
    True /\ loop_trace ev [x] (finished_err o) w w'.
Proof.
  intros Hev w w' o Hrun. split; [exact Logic.I|].
  unfold bind at 1 in Hrun. unfold trapColumnsForSqlite3, update in Hrun.
  set (w1 := set_names (TrapField NEW) TrapColumn
               (set_reverse ∅
                  (set_old (Some (FieldNameToColumnName w))
                           (Some (ColumnNameToFieldName w)) w))) in *.
  assert (Ht1 : trace w1 = trace w) by reflexivity.
  unfold bind at 1 in Hrun. unfold lift in Hrun.
  destruct (fieldsWithSuffix (typeRep pr) OLD) as [omit|px] eqn:Homit.
  2:{ inversion Hrun; subst. apply loop_trace_silent. exact Ht1. }
  unfold bind at 1 in Hrun.
  destruct (CreateTable drv StructNameToTableName "" (typeRep pr) omit w1)
    as [w2 o2] eqn:HC.
  apply CreateTable_cases in HC as [[-> Hfin]|(t & r & Ht & ->)].
  - destruct o2 as [[err|]|px]; try discriminate Hfin.
    + apply untrap_then_ret in Hrun as Htr.
      assert (o = Normal (Some err)).
      { unfold bind in Hrun. destruct (untrap_trace w1) as (w3 & Hu & _).
        rewrite Hu in Hrun. inversion Hrun. reflexivity. }
      subst o. apply loop_trace_silent. rewrite Htr. exact Ht1.
    + inversion Hrun; subst. apply loop_trace_silent. exact Ht1.
  - set (e := Called (ExecCreateTable (mg_tx w1) t (typeRep pr) omit)
                     (FieldNameToColumnName w1) (ColumnNameToFieldName w1) r) in *.
    assert (He : ev x e).
    { apply (Hev t); [exact Ht|]. unfold create_event, e. simpl. eauto 10. }
    assert (Htr : trace w' = trace w ++ [e]).
    { destruct o2 as [err|px].
      - apply untrap_then_ret in Hrun. rewrite Hrun. reflexivity.
      - inversion Hrun; subst. reflexivity. }
    apply (loop_trace_one ev x _ w w' e); assumption.
Qed.

End Window.

Lemma registry_is_emit pv cu e w : registry_is pv cu w -> registry_is pv cu (emit e w).
Proof. intros H. exact H. Qed.

Lemma in_map_to_list (m : gmap string nameStructPair) (l : string) (pr : nameStructPair) :
  In (l, pr) (map_to_list m) <-> m !! l = Some pr.
Proof. rewrite <- list_elem_of_In. apply elem_of_map_to_list. Qed.

Section Protocol.

Variable drv : World -> call -> response.
Variable StructNameToTableName : string -> string.

Lemma rename_phase_trace (reverse : bool) (w w1 : World) (o : outcome (option error)) :
  renameCurrentTablesAddColumns drv StructNameToTableName reverse w = (w1, o) ->
  exists tl,
    trace w1 = trace w ++ tl /\
    Forall (rename_phase_event StructNameToTableName w) tl /\
    (o = Normal None ->
     (forall l p, s_prev w !! l = Some p ->
        exists e, In e tl /\
                  rename_event (StructNameToTableName l)
                               (StructNameToTableName (name p)) e) /\
     (forall l c, s_curr w !! l = Some c ->
        exists e t, In e tl /\
                    tableName StructNameToTableName (typeRep c) = Normal t /\
                    create_event t c e)).
Proof.
  intros Hrun. unfold renameCurrentTablesAddColumns in Hrun.
  unfold bind at 1 in Hrun. unfold read at 1 in Hrun.
  unfold bind at 1 in Hrun.
  match type of Hrun with
  | (let (_, _) := range_err ?b ?xs w in _) = _ =>
      destruct (range_err b xs w) as [wa oa] eqn:H1;
      apply (range_err_trace (registry_is (s_prev w) (s_curr w))
               (fun x e => rename_event (StructNameToTableName (fst x))
                                        (StructNameToTableName (name (snd x))) e))
        in H1 as [[_ Hcu] (tl1 & Ht1 & Hall1 & Hfin1)];
      [| intros [l p] w0 w0' o0 _;
         apply (RenameTable_body drv _ (registry_is_emit (s_prev w) (s_curr w)));
         auto
       | split; reflexivity ]
  end.
  assert (Hall1' : Forall (rename_phase_event StructNameToTableName w) tl1).
  { eapply Forall_impl; [exact Hall1|]. intros e ([l p] & Hin & He).
    left. exists l, p. split; [apply in_map_to_list; exact Hin|exact He]. }
  destruct oa as [[err|]|px].
  - inversion Hrun; subst. exists tl1. repeat split; auto; discriminate.
  - unfold bind at 1 in Hrun. unfold read at 1 in Hrun. rewrite Hcu in Hrun.
    match type of Hrun with
    | range_err ?b ?xs wa = _ =>
        apply (range_err_trace (fun _ => True)
                 (fun x e => exists t,
                      tableName StructNameToTableName (typeRep (snd x)) = Normal t /\
                      create_event t (snd x) e))
          in Hrun as [_ (tl2 & Ht2 & Hall2 & Hfin2)];
        [| intros [l c] w0 w0' o0 _ _;
           apply (create_body drv StructNameToTableName); simpl; eauto
         | exact Logic.I ]
    end.
    exists (tl1 ++ tl2). split; [rewrite Ht2, Ht1, app_assoc; reflexivity|].
    split.
    + apply Forall_app. split; [exact Hall1'|].
      eapply Forall_impl; [exact Hall2|]. intros e ([l c] & Hin & t & Ht & He).
      right. exists l, c, t. split; [apply in_map_to_list; exact Hin|auto].
    + intros ->. split.
      * intros l p Hp.
        destruct (Hfin1 eq_refl (l, p) (proj2 (in_map_to_list _ l p) Hp))
          as (e & He & Hev).
        exists e. split; [apply in_or_app; left; exact He|exact Hev].
      * intros l c Hc.
        destruct (Hfin2 eq_refl (l, c) (proj2 (in_map_to_list _ l c) Hc))
          as (e & He & t & Ht & Hev).
        exists e, t. split; [apply in_or_app; right; exact He|auto].
  - inversion Hrun; subst. exists tl1. repeat split; auto; discriminate.
Qed.

Lemma finalization_trace (w w2 : World) (o : outcome (option error)) :
  removeOldRenameColumns drv StructNameToTableName w = (w2, o) ->
  exists tl,
    trace w2 = trace w ++ tl /\
    Forall (finalization_event StructNameToTableName w) tl /\
    (o = Normal None ->
     (forall l p, s_prev w !! l = Some p ->
        exists e t, In e tl /\
                    tableName StructNameToTableName (typeRep p) = Normal t /\
                    drop_event (StructNameToTableName t) e) /\
     (forall l c, s_curr w !! l = Some c ->
        exists e, In e tl /\
                  rename_event (StructNameToTableName (name c))
                               (StructNameToTableName l) e)).
Proof.
  intros Hrun. unfold removeOldRenameColumns in Hrun.
  unfold bind at 1 in Hrun. unfold read at 1 in Hrun.
  unfold bind at 1 in Hrun.
  match type of Hrun with
  | (let (_, _) := range_do ?b ?xs w in _) = _ =>
      destruct (range_do b xs w) as [wa oa] eqn:H1;
      apply (range_do_trace (registry_is (s_prev w) (s_curr w))
               (fun x e => exists t,
                    tableName StructNameToTableName (typeRep (snd x)) = Normal t /\
                    drop_event (StructNameToTableName t) e))
        in H1 as [[_ Hcu] (tl1 & Ht1 & Hall1 & Hfin1)];
      [| intros [l p] w0 w0' o0 _;
         apply (DropTable_body drv StructNameToTableName _
                  (registry_is_emit (s_prev w) (s_curr w)));
         simpl; eauto
       | split; reflexivity ]
  end.
  assert (Hall1' : Forall (finalization_event StructNameToTableName w) tl1).
  { eapply Forall_impl; [exact Hall1|]. intros e ([l p] & Hin & t & Ht & He).
    left. exists l, p, t. split; [apply in_map_to_list; exact Hin|auto]. }
  destruct oa as [[]|px].
  - unfold bind at 1 in Hrun. unfold read at 1 in Hrun. rewrite Hcu in Hrun.
    match type of Hrun with
    | range_err ?b ?xs wa = _ =>
        apply (range_err_trace (fun _ => True)
                 (fun x e => rename_event (StructNameToTableName (name (snd x)))
                                          (StructNameToTableName (fst x)) e))
          in Hrun as [_ (tl2 & Ht2 & Hall2 & Hfin2)];
        [| intros [l c] w0 w0' o0 _;
           apply (RenameTable_body drv (fun _ => True)); auto
         | exact Logic.I ]
    end.
    exists (tl1 ++ tl2). split; [rewrite Ht2, Ht1, app_assoc; reflexivity|].
    split.
    + apply Forall_app. split; [exact Hall1'|].
      eapply Forall_impl; [exact Hall2|]. intros e ([l c] & Hin & He).
      right. exists l, c. split; [apply in_map_to_list; exact Hin|exact He].
    + intros ->. split.
      * intros l p Hp.
        destruct (Hfin1 eq_refl (l, p) (proj2 (in_map_to_list _ l p) Hp))
          as (e & He & t & Ht & Hev).
        exists e, t. split; [apply in_or_app; left; exact He|auto].
      * intros l c Hc.
        destruct (Hfin2 eq_refl (l, c) (proj2 (in_map_to_list _ l c) Hc))
          as (e & He & Hev).
        exists e. split; [apply in_or_app; right; exact He|exact Hev].
  - inversion Hrun; subst. exists tl1. repeat split; auto; discriminate.
Qed.

End Protocol.

(** ** What the registry holds *)

Lemma structPair_registered (i : iface) (pr : nameStructPair) :
  structPair i = Normal pr -> registered pr.
Proof.
  unfold structPair, registered. destruct i as [v|]; [|discriminate].
  destruct v as [n fs|target|elem|elem items|n]; simpl; try discriminate.
  destruct target as [n fs|t2|elem|elem items|n]; simpl; try discriminate.
  - intros H. inversion H; subst. simpl. eauto.
  - destruct items as [|x rest].
    + destruct elem as [n fs|e2|e2|n]; simpl; try discriminate.
      destruct e2 as [n fs|e3|e3|n]; simpl; try discriminate.
      intros H. inversion H; subst. simpl. eauto.
    + destruct x as [n fs|t2|e2|e2 items2|n]; simpl; try discriminate.
      destruct t2 as [n fs|t3|e3|e3 items3|n]; simpl; try discriminate.
      intros H. inversion H; subst. simpl. eauto.
Qed.

Lemma registered_tableName (StructNameToTableName : string -> string)
      (pr : nameStructPair) :
  registered pr ->
  tableName StructNameToTableName (typeRep pr)
  = Normal (StructNameToTableName (name pr)).
Proof. intros (fs & vs & H). unfold tableName. rewrite H. reflexivity. Qed.

(** [ChangeTable] stores what [structPair] returns, so a registry filled
    by [ChangeTable] holds registered entries only. *)
Lemma ChangeTable_registers (logicalName : string) (prev_raw curr_raw : iface) :
  keeps (fun w => forall l pr, s_prev w !! l = Some pr \/ s_curr w !! l = Some pr ->
                               registered pr)
        (fun _ => True)
        (ChangeTable logicalName prev_raw curr_raw).
Proof.
  assert (Hins : forall (m : gmap string nameStructPair) l0 l pr0 pr,
             registered pr0 -> (forall l' pr', m !! l' = Some pr' -> registered pr') ->
             <[l0 := pr0]> m !! l = Some pr -> registered pr).
  { intros m l0 l pr0 pr H0 Hm. rewrite lookup_insert.
    destruct (decide (l0 = l)); [intros H; inversion H; subst; exact H0|apply Hm]. }
  intros w Hw. unfold ChangeTable, bind, lift, update, ret.
  destruct prev_raw as [pv|]; [destruct curr_raw as [cv|]|].
  - destruct (structPair (Some cv)) as [cp|] eqn:Hc; [|exact Logic.I].
    destruct (structPair (Some pv)) as [pp|] eqn:Hp; [|exact Logic.I].
    simpl. intros l pr [H|H].
    + eapply Hins; [exact (structPair_registered _ _ Hp)| |exact H]. eauto.
    + eapply Hins; [exact (structPair_registered _ _ Hc)| |exact H]. eauto.
  - destruct (structPair (Some pv)) as [pp|] eqn:Hp; [|exact Logic.I].
    simpl. intros l pr [H|H]; [|eauto].
    eapply Hins; [exact (structPair_registered _ _ Hp)| |exact H]. eauto.
  - destruct (structPair curr_raw) as [cp|] eqn:Hc; [|exact Logic.I].
    simpl. intros l pr [H|H]; [eauto|].
    eapply Hins; [exact (structPair_registered _ _ Hc)| |exact H]. eauto.
Qed.

Section Tables.

Variable drv : World -> call -> response.
Variable StructNameToTableName : string -> string.

Local Abbreviation physical := StructNameToTableName.

(** C5, as the code has it: for a logical name registered in both [prev]
    and [curr], the rename/shadow phase creates the new table, under the
    trap for [NEW] and without the fields ending in [OLD], under the name
    of the new record type, [physical(curr.typeName)]; the finalization
    drops the table named after the old record type and renames
    [physical(curr.typeName)] to [physical(logical)]. *)
Theorem shape_change_tables (w : World) (l : string) (p c : nameStructPair) :
  s_prev w !! l = Some p ->
  s_curr w !! l = Some c ->
  registered p ->
  registered c ->
  (forall reverse w1,
      renameCurrentTablesAddColumns drv physical reverse w = (w1, Normal None) ->
      exists tl e,
        trace w1 = trace w ++ tl /\ In e tl /\
        create_event (physical (name c)) c e) /\
  (forall w2,
      removeOldRenameColumns drv physical w = (w2, Normal None) ->
      exists tl e1 e2,
        trace w2 = trace w ++ tl /\
        In e1 tl /\ drop_event (physical (physical (name p))) e1 /\
        In e2 tl /\ rename_event (physical (name c)) (physical l) e2).
Proof.
  intros Hp Hc Rp Rc. split.
  - intros reverse w1 Hrun.
    destruct (rename_phase_trace drv physical reverse w w1 _ Hrun)
      as (tl & Ht & _ & Hfin).
    destruct (Hfin eq_refl) as [_ Hcreate].
    destruct (Hcreate l c Hc) as (e & t & He & Htn & Hev).
    rewrite (registered_tableName physical c Rc) in Htn. inversion Htn; subst t.
    exists tl, e. auto.
  - intros w2 Hrun.
    destruct (finalization_trace drv physical w w2 _ Hrun) as (tl & Ht & _ & Hfin).
    destruct (Hfin eq_refl) as [Hdrop Hrename].
    destruct (Hdrop l p Hp) as (e1 & t & He1 & Htn & Hev1).
    rewrite (registered_tableName physical p Rp) in Htn. inversion Htn; subst t.
    destruct (Hrename l c Hc) as (e2 & He2 & Hev2).
    exists tl, e1, e2. auto.
Qed.

(** C6, as the code has it: for a logical name registered in [prev]
    only, the rename/shadow phase renames [physical(logical)] to the name
    of the old record type, as it does for every name in [prev], and
    drops nothing; the finalization drops the table under that name, and
    its renames are those of the names in [curr], so none is for this
    name. *)
Theorem pure_drop_tables (w : World) (l : string) (p : nameStructPair) :
  s_prev w !! l = Some p ->
  s_curr w !! l = None ->
  registered p ->
  (forall reverse w1,
      renameCurrentTablesAddColumns drv physical reverse w = (w1, Normal None) ->
      exists tl e,
        trace w1 = trace w ++ tl /\ In e tl /\
        rename_event (physical l) (physical (name p)) e /\
        Forall (fun e' => forall t, ~ drop_event t e') tl) /\
  (forall w2,
      removeOldRenameColumns drv physical w = (w2, Normal None) ->
      exists tl e,
        trace w2 = trace w ++ tl /\ In e tl /\
        drop_event (physical (physical (name p))) e /\
        forall e', In e' tl -> is_rename e' = true ->
                   exists l' c', l' <> l /\ s_curr w !! l' = Some c' /\
                                 rename_event (physical (name c')) (physical l') e').
Proof.
  intros Hp Hc Rp. split.
  - intros reverse w1 Hrun.
    destruct (rename_phase_trace drv physical reverse w w1 _ Hrun)
      as (tl & Ht & Hall & Hfin).
    destruct (Hfin eq_refl) as [Hrename _].
    destruct (Hrename l p Hp) as (e & He & Hev).
    exists tl, e. repeat split; auto.
    eapply Forall_impl; [exact Hall|].
    intros e' [(l' & p' & _ & (tx & F & C & r & ->))
              |(l' & c' & t' & _ & _ & (tx & omit & r & _ & ->))] t
           (tx' & F' & C' & r' & Heq);
      discriminate Heq.
  - intros w2 Hrun.
    destruct (finalization_trace drv physical w w2 _ Hrun) as (tl & Ht & Hall & Hfin).
    destruct (Hfin eq_refl) as [Hdrop _].
    destruct (Hdrop l p Hp) as (e & t & He & Htn & Hev).
    rewrite (registered_tableName physical p Rp) in Htn. inversion Htn; subst t.
    exists tl, e. repeat split; auto.
    intros e' He' Hren. rewrite Forall_forall in Hall.
    destruct (Hall e' (proj2 (list_elem_of_In _ _) He'))
      as [(l' & p' & t' & _ & _ & (tx & F & C & r & ->))|(l' & c' & Hc' & Hev')].
    + discriminate Hren.
    + exists l', c'. repeat split; auto. intros ->. congruence.
Qed.

End Tables.

Lemma shape_change_tables_witness :
  let w := Example.shape_change in
  let p := mkPair "Article_migration1" Example.Article_migration1 in
  let c := mkPair "Article_migration2" Example.Article_migration2 in
  let w1 := fst (renameCurrentTablesAddColumns Example.healthy toSnake false w) in
  let w2 := fst (removeOldRenameColumns Example.healthy toSnake w) in
  (s_prev w !! "Article" = Some p /\ s_curr w !! "Article" = Some c /\
   registered p /\ registered c /\
   renameCurrentTablesAddColumns Example.healthy toSnake false w = (w1, Normal None) /\
   removeOldRenameColumns Example.healthy toSnake w = (w2, Normal None)) /\
  (exists tl e,
      trace w1 = trace w ++ tl /\ In e tl /\
      create_event "article_migration2" c e) /\
  (exists tl e1 e2,
      trace w2 = trace w ++ tl /\
      In e1 tl /\ drop_event "article_migration1" e1 /\
      In e2 tl /\ rename_event "article_migration2" "article" e2).
Proof.
  intros w p c w1 w2.
  assert (Hp : s_prev w !! "Article" = Some p) by (vm_compute; reflexivity).
  assert (Hc : s_curr w !! "Article" = Some c) by (vm_compute; reflexivity).
  assert (Rp : registered p) by (do 2 eexists; reflexivity).
  assert (Rc : registered c) by (do 2 eexists; reflexivity).
  assert (H1 : renameCurrentTablesAddColumns Example.healthy toSnake false w
               = (w1, Normal None)) by (vm_compute; reflexivity).
  assert (H2 : removeOldRenameColumns Example.healthy toSnake w
               = (w2, Normal None)) by (vm_compute; reflexivity).
  split; [auto 10|].
  destruct (shape_change_tables Example.healthy toSnake w "Article" p c Hp Hc Rp Rc)
    as [Hphase Hfinal].
  split; [exact (Hphase false w1 H1)|exact (Hfinal w2 H2)].
Defined.

(** C5 fails as it is worded: in the second step of the example the new
    table is created as [article_migration2], which is not the table
    [article] of the logical name, and the finalization does rename: it
    moves [article_migration2] to [article]. *)
Lemma new_table_not_under_logical_name :
  let w := Example.shape_change in
  toSnake "Article" = "article" /\
  calls (trace (fst (renameCurrentTablesAddColumns Example.healthy toSnake false w)))
  = [ExecRename true "article" "article_migration1";
     ExecCreateTable true "article_migration2" Example.Article_migration2
                     ["ContentOLD"]] /\
  calls (trace (fst (removeOldRenameColumns Example.healthy toSnake w)))
  = [ExecDropTable true "article_migration1";
     ExecRename true "article_migration2" "article"].
Proof. vm_compute. repeat split. Qed.

Lemma pure_drop_tables_witness :
  let w := Example.pure_drop in
  let p := mkPair "Article_migration1" Example.Article_migration1 in
  let w1 := fst (renameCurrentTablesAddColumns Example.healthy toSnake false w) in
  let w2 := fst (removeOldRenameColumns Example.healthy toSnake w) in
  (s_prev w !! "Article" = Some p /\ s_curr w !! "Article" = None /\
   registered p /\
   renameCurrentTablesAddColumns Example.healthy toSnake false w = (w1, Normal None) /\
   removeOldRenameColumns Example.healthy toSnake w = (w2, Normal None)) /\
  (exists tl e,
      trace w1 = trace w ++ tl /\ In e tl /\
      rename_event "article" "article_migration1" e /\
      Forall (fun e' => forall t, ~ drop_event t e') tl) /\
  (exists tl e,
      trace w2 = trace w ++ tl /\ In e tl /\
      drop_event "article_migration1" e /\
      forall e', In e' tl -> is_rename e' = true ->
                 exists l' c', l' <> "Article" /\ s_curr w !! l' = Some c' /\
                               rename_event (toSnake (name c')) (toSnake l') e').
Proof.
  intros w p w1 w2.
  assert (Hp : s_prev w !! "Article" = Some p) by (vm_compute; reflexivity).
  assert (Hc : s_curr w !! "Article" = None) by (vm_compute; reflexivity).
  assert (Rp : registered p) by (do 2 eexists; reflexivity).
  assert (H1 : renameCurrentTablesAddColumns Example.healthy toSnake false w
               = (w1, Normal None)) by (vm_compute; reflexivity).
  assert (H2 : removeOldRenameColumns Example.healthy toSnake w
               = (w2, Normal None)) by (vm_compute; reflexivity).
  split; [auto 10|].
  destruct (pure_drop_tables Example.healthy toSnake w "Article" p Hp Hc Rp)
    as [Hphase Hfinal].
  split; [exact (Hphase false w1 H1)|exact (Hfinal w2 H2)].
Defined.

(** C6 fails as it is worded: for the step that only drops ["Article"],
    the rename/shadow phase does rename the table, from [article] to
    [article_migration1], and the finalization drops it under that name. *)
Lemma pure_drop_is_renamed :
  let w := Example.pure_drop in
  s_prev w !! "Article"
  = Some (mkPair "Article_migration1" Example.Article_migration1) /\
  s_curr w !! "Article" = None /\
  calls (trace (fst (renameCurrentTablesAddColumns Example.healthy toSnake false w)))
  = [ExecRename true "article" "article_migration1"] /\
  calls (trace (fst (removeOldRenameColumns Example.healthy toSnake w)))
  = [ExecDropTable true "article_migration1"].
Proof. vm_compute. repeat split. Qed.

(** With the guard of the earlier version the rename/shadow phase leaves
    the table of a pure drop alone, and the finalization then drops
    [article_migration1], a table that does not exist, while [article]
    stays: the rename is what makes the drop reach the table. *)
Example earlier_guard_never_drops_the_table :
  let w := Example.pure_drop in
  let w1 := fst (renameCurrentTablesAddColumns_earlier Example.healthy toSnake
                   false w) in
  calls (trace w1) = [] /\
  calls (trace (fst (removeOldRenameColumns Example.healthy toSnake w1)))
  = [ExecDropTable true "article_migration1"].
Proof. vm_compute. repeat split. Qed.

(** ** Errors and panics in [Run] *)

(** C1 does not hold of the code.  The second step of the test suite finds
    the rows and saves each one; when the insert fails, [Save] rolls back
    and the data phase returns the error.  [Run] then rolls back again:
    that panics, the deferred function rolls back a third time, and this
    panic leaves [Run].  One rollback reached the database, the handle is
    not closed, and the error is not returned. *)
Theorem Run_rolls_back_twice_after_Save_error :
  let r := Run Example.save_fails toSnake (All Example.myMigrations) 1 2
               Example.fresh in
  snd r = Panicked (PString "no transaction in progress, cannot rollback!") /\
  count is_rollback (trace (fst r)) = 1%nat /\
  count is_close (trace (fst r)) = 0%nat /\
  s_m (fst r) = true.
Proof. vm_compute. repeat split. Qed.

(** C3 does not hold of the code.  A data phase that panics with the
    error [FindAll] returned leaves a transaction [FindAll] has already
    rolled back; the deferred function of [Run] rolls back again, and its
    panic leaves [Run]: nothing is printed, the handle is not closed, no
    error is returned. *)
Theorem Run_lets_panic_escape_after_FindAll_error :
  let r := Run Example.find_fails toSnake (All Example.dyingMigrations) 1 2
               Example.fresh in
  snd r = Panicked (PString "no transaction in progress, cannot rollback!") /\
  count is_rollback (trace (fst r)) = 1%nat /\
  count is_close (trace (fst r)) = 0%nat /\
  Forall (fun e => match e with Called _ _ _ _ => True | _ => False end)
         (trace (fst r)) /\
  s_m (fst r) = true.
Proof. vm_compute. repeat split; repeat constructor. Qed.

(** *** Where [Run] does handle errors and panics

    The two theorems above are about a transaction that [FindAll] or
    [Save] has already rolled back.  While the transaction is open, and
    the database accepts the rollback and the close, an error or a panic
    of the first step of the range is handled as specified. *)

Section Handled.

Variable drv : World -> call -> response.
Variable StructNameToTableName : string -> string.
Hypothesis rollback_accepted : forall w, accepted (drv w TxRollback).
Hypothesis close_accepted : forall w, accepted (drv w DbClose).

Lemma Rollback_then_Close (w : World) :
  s_m w = true -> mg_tx w = true ->
  exists w',
    (Rollback drv >> Close drv) w = (w', Normal tt) /\
    calls (trace w') = calls (trace w) ++ [TxRollback; DbClose] /\
    s_m w' = false /\ mg_tx w' = false /\ same_names w w'.
Proof.
  intros Hm Htx.
  unfold Rollback, Close, Migration_Close, bind, deref_m, read, ask, update, panic.
  rewrite Hm. simpl. rewrite Htx. simpl.
  pose proof (rollback_accepted w) as Hr.
  destruct (drv w TxRollback) as [id rows| |]; try contradiction. simpl.
  rewrite Hm. simpl.
  match goal with
  | |- context [drv ?w1 DbClose] =>
      pose proof (close_accepted w1) as Hc;
      destruct (drv w1 DbClose) as [id' rows'| |]; try contradiction
  end.
  simpl. eexists. split; [reflexivity|]. simpl.
  repeat split.
  unfold calls. rewrite !omap_app. simpl. rewrite <- app_assoc. reflexivity.
Qed.

(** An error returned by the first step while the transaction is open:
    one rollback, the close, and the error itself comes back. *)
Lemma Run_returns_step_error
      (info : list ReversibleMigration) (from to : Z) (step : ReversibleMigration)
      (w w0 w1 : World) (e : error) :
  0 <= from -> from < to ->
  info !! Z.to_nat from = Some step ->
  Begin drv w = (w0, Normal tt) ->
  migrate drv StructNameToTableName step false w0 = (w1, Normal (Some e)) ->
  s_m w1 = true -> mg_tx w1 = true ->
  exists w',
    Run drv StructNameToTableName info from to w = (w', Normal (Some e)) /\
    calls (trace w') = calls (trace w1) ++ [TxRollback; DbClose] /\
    s_m w' = false /\ mg_tx w' = false.
Proof.
  intros H0 Hlt Hstep HB Hmig Hm Htx.
  destruct (Rollback_then_Close w1 Hm Htx) as (w' & Hrc & Hcalls & Hm' & Htx' & _).
  exists w'. split; [|auto].
  unfold Run. assert (Hne : (from =? to) = false) by (apply Z.eqb_neq; lia).
  rewrite Hne. unfold bind at 1. rewrite HB.
  unfold with_recover, Run_body. apply Z.ltb_lt in Hlt as Hb. rewrite Hb.
  destruct (Z.to_nat (to - from)) as [|n] eqn:Hn; [lia|].
  simpl forward_loop. unfold bind at 1. unfold bind at 1. unfold bind at 1.
  unfold at_index. assert (Hneg : (from <? 0) = false) by (apply Z.ltb_ge; lia).
  rewrite Hneg, Hstep. unfold ret at 1. rewrite Hmig.
  unfold bind at 1.
  unfold bind in Hrc. unfold bind at 1.
  destruct (Rollback drv w1) as [wr [[]|]]; [|discriminate].
  rewrite Hrc. reflexivity.
Qed.

(** A panic of the first step while the transaction is open: the trap is
    undone, one rollback, the close, the diagnostic and the stack are
    printed, and the panic comes back as an error. *)
Lemma Run_recovers_step_panic
      (info : list ReversibleMigration) (from to : Z) (step : ReversibleMigration)
      (w w0 w1 : World) (x : panicval) :
  0 <= from -> from < to ->
  info !! Z.to_nat from = Some step ->
  Begin drv w = (w0, Normal tt) ->
  migrate drv StructNameToTableName step false w0 = (w1, Panicked x) ->
  s_m w1 = true -> mg_tx w1 = true ->
  exists w',
    Run drv StructNameToTableName info from to w
    = (w', Normal (Some (errors_New (Sprintf_v x)))) /\
    calls (trace w') = calls (trace w1) ++ [TxRollback; DbClose] /\
    (exists tl, trace w'
                = tl ++ [Printf ("Panic trapped during execution of migrations: "
                                 +:+ Sprintf_v x +:+ newline); PrintStack]) /\
    s_m w' = false /\ mg_tx w' = false.
Proof.
  intros H0 Hlt Hstep HB Hmig Hm Htx.
  destruct (untrap_trace w1) as (wu & Hu & Htru).
  assert (Hmu : s_m wu = true /\ mg_tx wu = true).
  { unfold untrapColumnsForSqlite3, update in Hu. inversion Hu; subst wu.
    destruct (s_oldFieldNameToColumnName w1); simpl;
      destruct (s_oldColumnNameToFieldName w1); simpl; auto. }
  destruct Hmu as [Hmu Htxu].
  destruct (Rollback_then_Close wu Hmu Htxu) as (w' & Hrc & Hcalls & Hm' & Htx' & _).
  exists (emit PrintStack
            (emit (Printf ("Panic trapped during execution of migrations: "
                           +:+ Sprintf_v x +:+ newline)) w')).
  split; [|repeat split; simpl; auto].
  - unfold Run. assert (Hne : (from =? to) = false) by (apply Z.eqb_neq; lia).
    rewrite Hne. unfold bind at 1. rewrite HB.
    unfold with_recover, Run_body. apply Z.ltb_lt in Hlt as Hb. rewrite Hb.
    destruct (Z.to_nat (to - from)) as [|n] eqn:Hn; [lia|].
    simpl forward_loop. unfold bind at 1. unfold bind at 1. unfold bind at 1.
    unfold at_index. assert (Hneg : (from <? 0) = false) by (apply Z.ltb_ge; lia).
    rewrite Hneg, Hstep. unfold ret at 1. rewrite Hmig.
    unfold recovered. unfold bind at 1. rewrite Hu.
    unfold bind in Hrc. unfold bind at 1.
    destruct (Rollback drv wu) as [wr [[]|]]; [|discriminate].
    unfold bind at 1. rewrite Hrc. reflexivity.
  - unfold calls in *. rewrite !omap_app. simpl. rewrite !app_nil_r.
    rewrite Hcalls, Htru. reflexivity.
  - eexists. rewrite <- app_assoc. reflexivity.
Qed.

End Handled.

(** The two rollback tests of the suite: a structure phase that panics
    and one that returns an error, on a database that accepts everything. *)
Example Run_recovers_simulated_panic :
  let r := Run Example.healthy toSnake (All [Example.simulatedPanic]) 0 1
               Example.fresh in
  snd r = Normal (Some (mkError "simulated to check transactions")) /\
  calls (trace (fst r)) = [DbBegin; TxRollback; DbClose] /\
  s_m (fst r) = false.
Proof. vm_compute. repeat split. Qed.

Example Run_returns_simulated_error :
  let r := Run Example.healthy toSnake (All [Example.simulatedError]) 0 1
               Example.fresh in
  snd r = Normal (Some (mkError "simulated to check transactions")) /\
  calls (trace (fst r)) = [DbBegin; TxRollback; DbClose] /\
  s_m (fst r) = false.
Proof. vm_compute. repeat split. Qed.

(** Both steps of the example forwards, then backwards: one commit each. *)
Example one_commit_forwards_and_backwards :
  all_steps_succeed Example.healthy toSnake (All Example.myMigrations) 0 2
                    Example.fresh = true /\
  count is_commit
        (trace (fst (Run Example.healthy toSnake (All Example.myMigrations) 0 2
                         Example.fresh))) = 1%nat /\
  count is_commit
        (trace (fst (Run Example.healthy toSnake (All Example.myMigrations) 2 0
                         Example.fresh))) = 1%nat /\
  count is_commit
        (trace (fst (Run Example.save_fails toSnake (All Example.myMigrations) 0 2
                         Example.fresh))) = 0%nat.
Proof. vm_compute. repeat split. Qed.

(** ** The default table names *)

Lemma lowered_is_not_upper (c : ascii) :
  byte_between "A" "Z" c = true -> byte_between "A" "Z" (add32 c) = false.
Proof.
  destruct c as [[] [] [] [] [] [] [] []]; vm_compute; congruence.
Qed.

Lemma toSnake_at_fixed (s : string) :
  forall b b', toSnake_at b' (toSnake_at b s) = toSnake_at b s.
Proof.
  induction s as [|c rest IH]; intros b b'; [reflexivity|].
  simpl. destruct (byte_between "A" "Z" c) eqn:Hc.
  - destruct b; simpl.
    + rewrite (lowered_is_not_upper c Hc), IH. reflexivity.
    + rewrite (lowered_is_not_upper c Hc), IH. reflexivity.
  - simpl. rewrite Hc, IH. reflexivity.
Qed.

(** Mapping a table name again, as [DropTable] does, changes nothing
    under the default mapping. *)
Lemma toSnake_idempotent (s : string) : toSnake (toSnake s) = toSnake s.
Proof. apply toSnake_at_fixed. Qed.

(** ** What the trapped mappings compute *)

(** Under the trap for [NEW] the field [ContentNEW] goes to the column
    [content], a field without the suffix goes where it went before, and
    the column [content] comes back as the field [ContentNEW]. *)
Example trapped_mappings_strip_the_suffix :
  let trapped := fst (trapColumnsForSqlite3 NEW Example.fresh) in
  let asked := call_FieldNameToColumnName "ContentNEW" trapped in
  snd asked = Normal "content" /\
  snd (call_FieldNameToColumnName "Author" trapped) = Normal "author" /\
  snd (call_ColumnNameToFieldName "content" (fst asked)) = Normal "ContentNEW" /\
  snd (call_ColumnNameToFieldName "author" (fst asked)) = Normal "Author".
Proof. vm_compute. repeat split. Qed.

(** * Further properties of the code *)

(** ** The default name mappings *)

Lemma upper_facts (c : ascii) :
  byte_between "A" "Z" c = true ->
  byte_between "a" "z" (add32 c) = true /\
  byte_between "A" "Z" (add32 c) = false /\
  sub32 (add32 c) = c /\
  Ascii.eqb c "_" = false.
Proof.
  destruct c as [[] [] [] [] [] [] [] []]; vm_compute; intros H;
    first [discriminate H | repeat split].
Qed.

Lemma lower_facts (c : ascii) :
  byte_between "a" "z" c = true ->
  byte_between "A" "Z" (sub32 c) = true /\
  byte_between "A" "Z" c = false /\
  add32 (sub32 c) = c /\
  Ascii.eqb c "_" = false.
Proof.
  destruct c as [[] [] [] [] [] [] [] []]; vm_compute; intros H;
    first [discriminate H | repeat split].
Qed.

Lemma underscore_is_no_letter :
  byte_between "a" "z" "_" = false /\ byte_between "A" "Z" "_" = false.
Proof. split; reflexivity. Qed.

Lemma camel_of_snake_tail (rest : string) :
  no_underscore rest = true ->
  snakeToUpperCamel_at false (toSnake_at true rest) = rest.
Proof.
  induction rest as [|c rest IH]; intros H; [reflexivity|].
  simpl in H. apply andb_true_iff in H as [Hc Hrest].
  apply negb_true_iff in Hc. simpl.
  destruct (byte_between "A" "Z" c) eqn:Hu.
  - destruct (upper_facts c Hu) as (Hl & _ & Hback & _).
    simpl. rewrite Hl. simpl. rewrite Hback, (IH Hrest). reflexivity.
  - simpl. rewrite andb_false_r, Hc, (IH Hrest). reflexivity.
Qed.

(** X1: a record or field name (upper-case letter first, no underscore)
    comes back unchanged from the column or table name [toSnake] gives
    it. *)
Theorem snakeToUpperCamel_toSnake (s : string) :
  UpperCamel s = true -> snakeToUpperCamel (toSnake s) = s.
Proof.
  destruct s as [|c rest]; [discriminate|]. simpl.
  intros H. apply andb_true_iff in H as [Hu Hrest].
  unfold snakeToUpperCamel, toSnake. simpl. rewrite Hu.
  destruct (upper_facts c Hu) as (Hl & _ & Hback & _).
  simpl. rewrite Hl. simpl. rewrite Hback, (camel_of_snake_tail rest Hrest).
  reflexivity.
Qed.

Lemma snakeToUpperCamel_toSnake_witness :
  UpperCamel "FirstName" = true /\
  snakeToUpperCamel (toSnake "FirstName") = "FirstName".
Proof.
  split; [reflexivity|]. apply snakeToUpperCamel_toSnake. reflexivity.
Defined.

Lemma snake_of_camel (s : string) :
  (snake_words false s = true ->
   toSnake_at true (snakeToUpperCamel_at false s) = s) /\
  (snake_words true s = true ->
   forall pos, toSnake_at pos (snakeToUpperCamel_at true s)
               = if pos then String "_" s else s).
Proof.
  induction s as [|c rest [IHmid IHstart]]; split; intros H; try discriminate H;
    try reflexivity.
  - simpl in H. simpl. rewrite andb_false_r.
    destruct (Ascii.eqb c "_") eqn:Hc.
    + apply Ascii.eqb_eq in Hc. subst c. exact (IHstart H true).
    + apply andb_true_iff in H as [Hu Hrest]. apply negb_true_iff in Hu.
      simpl. rewrite Hu, (IHmid Hrest). reflexivity.
  - simpl in H. apply andb_true_iff in H as [Hl Hrest].
    destruct (lower_facts c Hl) as (Hu & _ & Hback & _).
    intros pos. simpl. rewrite Hl. simpl. rewrite Hu, Hback, (IHmid Hrest).
    destruct pos; reflexivity.
Qed.

(** X2: a snake-case column or table name (words that start with a
    lower-case letter, joined by single underscores) comes back unchanged
    from the field or record name [snakeToUpperCamel] gives it. *)
Theorem toSnake_snakeToUpperCamel (s : string) :
  snake_words true s = true -> toSnake (snakeToUpperCamel s) = s.
Proof.
  intros H. exact (proj2 (snake_of_camel s) H false).
Qed.

Lemma toSnake_snakeToUpperCamel_witness :
  snake_words true "first_name" = true /\
  toSnake (snakeToUpperCamel "first_name") = "first_name".
Proof.
  split; [reflexivity|]. apply toSnake_snakeToUpperCamel. reflexivity.
Defined.

Lemma toSnake_at_no_upper (s : string) :
  forall pos, no_upper (toSnake_at pos s) = true.
Proof.
  induction s as [|c rest IH]; intros pos; [reflexivity|].
  simpl. destruct (byte_between "A" "Z" c) eqn:Hu.
  - destruct (upper_facts c Hu) as (_ & Hn & _ & _).
    destruct pos; simpl; rewrite Hn, IH; reflexivity.
  - simpl. rewrite Hu, IH. reflexivity.
Qed.

Lemma toSnake_at_of_no_upper (s : string) :
  no_upper s = true -> forall pos, toSnake_at pos s = s.
Proof.
  induction s as [|c rest IH]; intros H pos; [reflexivity|].
  simpl in H. apply andb_true_iff in H as [Hc Hrest].
  apply negb_true_iff in Hc. simpl. rewrite Hc, (IH Hrest). reflexivity.
Qed.

(** X3: [toSnake] leaves no upper-case ASCII letter in its result, and a
    name without one is left as it is; so mapping a name twice, as
    [dropTableIfExists] does with [StructNameToTableName(tableName(...))],
    gives the name of mapping it once. *)
Theorem toSnake_settles (s : string) :
  no_upper (toSnake s) = true /\
  (no_upper s = true -> toSnake s = s) /\
  toSnake (toSnake s) = toSnake s.
Proof.
  split; [apply toSnake_at_no_upper|]. split.
  - intros H. apply toSnake_at_of_no_upper. exact H.
  - apply toSnake_at_of_no_upper. apply toSnake_at_no_upper.
Qed.

(** ** What [structPair] accepts *)

Lemma structPair_prototype (i : iface) (pr : nameStructPair) :
  structPair i = Normal pr <-> prototype_of i = Some pr.
Proof.
  destruct i as [v|]; [|split; discriminate].
  destruct v as [n fs|target|elem|elem items|n]; try (split; discriminate).
  destruct target as [n fs|t2|e2|elem items|n]; try (split; discriminate).
  - simpl. split; intros H; inversion H; reflexivity.
  - destruct items as [|x rest].
    + destruct elem as [n fs|e|e|n]; try (split; discriminate).
      destruct e as [n fs|e'|e'|n]; try (split; discriminate).
      simpl. split; intros H; inversion H; reflexivity.
    + destruct x as [n fs|t3|e3|e3 it3|n]; try destruct t3 as [n fs|t4|e4|e4 it4|n];
        destruct elem as [n' fs'|e|e|n']; try destruct e as [n' fs'|e'|e'|n'];
        simpl;
        first [ split; discriminate
              | split; intros H; inversion H; reflexivity ].
Qed.

Lemma prototype_registered (i : iface) (pr : nameStructPair) :
  prototype_of i = Some pr -> registered pr.
Proof.
  intros H. destruct i as [v|]; [|discriminate].
  destruct v as [n fs|target|elem|elem items|n]; try discriminate.
  destruct target as [n fs|t2|e2|elem items|n]; try discriminate.
  - inversion H. exists fs. eexists. reflexivity.
  - destruct items as [|x rest].
    + destruct elem as [n fs|e|e|n]; try discriminate.
      destruct e as [n fs|e'|e'|n]; try discriminate.
      inversion H. exists fs. eexists. reflexivity.
    + destruct x as [n fs|t3|e3|e3 it3|n]; try destruct t3 as [n fs|t4|e4|e4 it4|n];
        destruct elem as [n' fs'|e|e|n']; try destruct e as [n' fs'|e'|e'|n'];
        simpl in H; try discriminate H;
        inversion H; exists fs; eexists; reflexivity.
Qed.

(** X4: [structPair] returns for three shapes of argument only (a
    pointer to a record, a pointer to a slice whose first element is a
    pointer to a record, a pointer to an empty slice of pointers to
    records) and panics for every other one, the nil interface, a nil
    pointer and a slice whose first element is a nil pointer among them.
    What it returns is a pointer to a record together with the name of
    that record's type. *)
Theorem structPair_returns_iff (i : iface) (pr : nameStructPair) :
  (structPair i = Normal pr <-> prototype_of i = Some pr) /\
  (structPair i = Normal pr -> registered pr).
Proof.
  split; [apply structPair_prototype|].
  intros H. apply (prototype_registered i). apply structPair_prototype. exact H.
Qed.

(** ** What [ChangeTable] does to the registry *)

(** X5: [ChangeTable] never returns an error.  When it returns, the
    shape of each argument that is not nil is registered under the logical
    name (the old shape in [prev], the new one in [curr]), a nil argument
    leaves its side of the registry alone, and nothing else in the world
    changes.  When it panics (an argument [structPair] refuses, or both
    arguments nil), the world is as it was: no half-made entry is left. *)
Theorem ChangeTable_outcome (l : string) (a b : iface) (w : World) :
  match ChangeTable l a b w with
  | (w', Normal e) =>
      e = None /\
      s_prev w' = match prototype_of a with
                  | Some p => <[l := p]> (s_prev w)
                  | None => s_prev w
                  end /\
      s_curr w' = match prototype_of b with
                  | Some p => <[l := p]> (s_curr w)
                  | None => s_curr w
                  end /\
      (a = None \/ prototype_of a <> None) /\
      (b = None \/ prototype_of b <> None) /\
      w' = set_registry (s_prev w') (s_curr w') w
  | (w', Panicked x) =>
      w' = w /\ (structPair a = Panicked x \/ structPair b = Panicked x)
  end.
Proof.
  assert (Hsp : forall i, match structPair i with
                          | Normal p => prototype_of i = Some p
                          | Panicked _ => prototype_of i = None
                          end).
  { intros i. destruct (structPair i) as [p|x] eqn:Hs.
    - apply structPair_prototype. exact Hs.
    - destruct (prototype_of i) as [p|] eqn:Hp; [|reflexivity].
      apply structPair_prototype in Hp. congruence. }
  unfold ChangeTable, bind, lift, update, ret.
  destruct a as [va|], b as [vb|].
  - pose proof (Hsp (Some vb)) as Hb. pose proof (Hsp (Some va)) as Ha.
    destruct (structPair (Some vb)) as [pb|xb]; [|auto].
    destruct (structPair (Some va)) as [pa|xa]; [|auto].
    rewrite Ha, Hb. simpl. repeat split; try (right; discriminate).
  - pose proof (Hsp (Some va)) as Ha.
    destruct (structPair (Some va)) as [pa|xa]; [|auto].
    rewrite Ha. simpl. destruct w; repeat split; auto; right; discriminate.
  - pose proof (Hsp (Some vb)) as Hb.
    destruct (structPair (Some vb)) as [pb|xb]; [|auto].
    rewrite Hb. simpl. destruct w; repeat split; auto; right; discriminate.
  - simpl. auto.
Qed.

(** ** Suffixes *)

Lemma substring_all (s : string) : substring 0 (String.length s) s = s.
Proof. induction s as [|c s IH]; simpl; [reflexivity|rewrite IH; reflexivity]. Qed.

Lemma substring_skip_prefix (pre s : string) (m : nat) :
  substring (String.length pre) m (pre +:+ s) = substring 0 m s.
Proof. induction pre as [|c pre IH]; simpl; [reflexivity|exact IH]. Qed.

Lemma substring_take_prefix (pre s : string) :
  substring 0 (String.length pre) (pre +:+ s) = pre.
Proof.
  induction pre as [|c pre IH]; simpl.
  - destruct s; reflexivity.
  - rewrite IH. reflexivity.
Qed.

Lemma length_append (a b : string) :
  String.length (a +:+ b) = (String.length a + String.length b)%nat.
Proof. induction a as [|c a IH]; simpl; [reflexivity|rewrite IH; reflexivity]. Qed.

Lemma substring_split (s : string) (n : nat) :
  (n <= String.length s)%nat ->
  s = substring 0 n s +:+ substring n (String.length s - n) s.
Proof.
  revert n. induction s as [|c s IH]; intros n Hn.
  - destruct n; reflexivity.
  - destruct n as [|n].
    + simpl. rewrite substring_all. reflexivity.
    + simpl in *. change (String c s = String c (substring 0 n s +:+ substring n (String.length s - n) s)).
      f_equal. apply IH. lia.
Qed.

(** [strings.HasSuffix] in words. *)
Lemma HasSuffix_iff (s suffix : string) :
  HasSuffix s suffix = true <-> exists pre, s = pre +:+ suffix.
Proof.
  unfold HasSuffix. split.
  - intros H. apply andb_true_iff in H as [Hlen Heq].
    apply Nat.leb_le in Hlen. apply String.eqb_eq in Heq.
    exists (substring 0 (String.length s - String.length suffix) s).
    set (k := (String.length s - String.length suffix)%nat).
    assert (E : substring k (String.length s - k) s = suffix).
    { subst k.
      replace (String.length s - (String.length s - String.length suffix))%nat
        with (String.length suffix) by lia.
      exact Heq. }
    rewrite <- E. apply substring_split. subst k. lia.
  - intros [pre ->]. rewrite length_append. apply andb_true_iff. split.
    + apply Nat.leb_le. lia.
    + apply String.eqb_eq.
      replace (String.length pre + String.length suffix - String.length suffix)%nat
        with (String.length pre) by lia.
      rewrite substring_skip_prefix. apply substring_all.
Qed.

Lemma HasSuffix_strip (pre suffix : string) :
  substring 0 (String.length (pre +:+ suffix) - String.length suffix) (pre +:+ suffix)
  = pre.
Proof.
  rewrite length_append.
  replace (String.length pre + String.length suffix - String.length suffix)%nat
    with (String.length pre) by lia.
  apply substring_take_prefix.
Qed.

Lemma HasSuffix_same_length (s a b : string) :
  String.length a = String.length b ->
  HasSuffix s a = true -> HasSuffix s b = true -> a = b.
Proof.
  unfold HasSuffix. intros Hl Ha Hb.
  apply andb_true_iff in Ha as [_ Ha]. apply andb_true_iff in Hb as [_ Hb].
  apply String.eqb_eq in Ha. apply String.eqb_eq in Hb.
  rewrite <- Ha, <- Hb, Hl. reflexivity.
Qed.

(** X6: the fields [fieldsWithSuffix] picks from a record are the
    fields that end in the suffix, each as often and in the order the
    record declares them; and no field picked for [OLD] (left out of the
    new table) is one picked for [NEW] (stored under the unsuffixed
    column). *)
Theorem fieldsWithSuffix_selects (n : string) (fields : list string)
        (contents : list (string * string)) (suffix : string) :
  exists picked,
    fieldsWithSuffix (VPtr (VStruct n fields contents)) suffix = Normal picked /\
    sublist picked fields /\
    (forall f, In f picked <-> In f fields /\ exists pre, f = pre +:+ suffix) /\
    (forall old new f,
        fieldsWithSuffix (VPtr (VStruct n fields contents)) OLD = Normal old ->
        fieldsWithSuffix (VPtr (VStruct n fields contents)) NEW = Normal new ->
        In f old -> ~ In f new).
Proof.
  exists (List.filter (fun f => HasSuffix f suffix) fields).
  split; [reflexivity|]. split; [|split].
  - induction fields as [|f fs IH]; simpl; [constructor|].
    destruct (HasSuffix f suffix); constructor; exact IH.
  - intros f. rewrite List.filter_In, HasSuffix_iff. reflexivity.
  - intros old new f Ho Hn. simpl in Ho, Hn.
    injection Ho as <-. injection Hn as <-.
    rewrite !List.filter_In. intros [_ Hold] [_ Hnew].
    pose proof (HasSuffix_same_length f OLD NEW eq_refl Hold Hnew) as Heq.
    discriminate Heq.
Qed.

(** ** The mappings under the trap *)

Lemma camel_mid_fixed (s : string) :
  no_underscore s = true -> snakeToUpperCamel_at false s = s.
Proof.
  induction s as [|c s IH]; intros H; [reflexivity|].
  simpl in H. apply andb_true_iff in H as [Hc Hs]. apply negb_true_iff in Hc.
  simpl. rewrite andb_false_r, Hc, (IH Hs). reflexivity.
Qed.

Lemma camel_of_lower_first (s : string) :
  UpperCamel s = true -> snakeToUpperCamel (lower_first s) = s.
Proof.
  destruct s as [|c rest]; [discriminate|]. intros H. simpl in H.
  apply andb_true_iff in H as [Hu Hrest].
  destruct (upper_facts c Hu) as (Hl & _ & Hback & _).
  unfold lower_first. simpl String.length.
  replace (substring 0 1 (String c rest)) with (String c EmptyString)
    by (simpl; destruct rest; reflexivity).
  replace (substring 1 (S (String.length rest) - 1) (String c rest)) with rest
    by (simpl; rewrite Nat.sub_0_r, substring_all; reflexivity).
  unfold snakeToUpperCamel. simpl. rewrite Hu. simpl. rewrite Hl. simpl.
  change ("" +:+ rest) with rest.
  rewrite Hback, (camel_mid_fixed rest Hrest). reflexivity.
Qed.

(** X7: once [trapColumnsForSqlite3(suffix)] is in force over a field
    mapping [f] and the default column mapping, a field named
    [pre ++ suffix] goes to the column [f pre] of the unsuffixed field,
    and that column is then read back into the suffixed field, not into
    the unsuffixed one; a field without the suffix goes where [f] sends
    it. *)
Theorem trap_round_trip (f : string -> string) (suffix pre : string) (w0 : World) :
  FieldNameToColumnName w0 = Fn f ->
  ColumnNameToFieldName w0 = Fn snakeToUpperCamel ->
  UpperCamel (pre +:+ suffix) = true ->
  let w := fst (trapColumnsForSqlite3 suffix w0) in
  exists w1,
    call_FieldNameToColumnName (pre +:+ suffix) w = (w1, Normal (f pre)) /\
    call_ColumnNameToFieldName (f pre) w1 = (w1, Normal (pre +:+ suffix)) /\
    forall s, HasSuffix s suffix = false ->
              call_FieldNameToColumnName s w1 = (w1, Normal (f s)).
Proof.
  intros Hf Hc Hu w. subst w.
  unfold trapColumnsForSqlite3, update, call_FieldNameToColumnName,
    call_ColumnNameToFieldName. simpl. rewrite Hf, Hc.
  assert (Hs : HasSuffix (pre +:+ suffix) suffix = true)
    by (apply HasSuffix_iff; eauto).
  rewrite Hs, HasSuffix_strip.
  destruct (pre +:+ suffix) as [|c rest] eqn:Hname; [discriminate|].
  pose proof (camel_of_lower_first _ Hu) as Hback.
  unfold lower_first in Hback. simpl in Hback.
  eexists. split; [reflexivity|]. simpl. split.
  - rewrite lookup_insert_eq, Hback. reflexivity.
  - intros s Hno. rewrite Hno. reflexivity.
Qed.

Lemma trap_round_trip_witness :
  (FieldNameToColumnName Example.fresh = Fn toSnake /\
   ColumnNameToFieldName Example.fresh = Fn snakeToUpperCamel /\
   UpperCamel ("Content" +:+ NEW) = true) /\
  let w := fst (trapColumnsForSqlite3 NEW Example.fresh) in
  exists w1,
    call_FieldNameToColumnName ("Content" +:+ NEW) w = (w1, Normal (toSnake "Content")) /\
    call_ColumnNameToFieldName (toSnake "Content") w1
    = (w1, Normal ("Content" +:+ NEW)) /\
    forall s, HasSuffix s NEW = false ->
              call_FieldNameToColumnName s w1 = (w1, Normal (toSnake s)).
Proof.
  split; [repeat split|].
  apply (trap_round_trip toSnake NEW "Content" Example.fresh); reflexivity.
Defined.

(** ** How [Run] ends its transaction *)

Lemma count_snoc (p : event -> bool) (tr : list event) (e : event) :
  count p (tr ++ [e]) = (count p tr + (if p e then 1 else 0))%nat.
Proof. rewrite count_app. unfold count at 2. simpl. destruct (p e); reflexivity. Qed.

Section Transaction.

Variable drv : World -> call -> response.
Variable StructNameToTableName : string -> string.
Variables c r : nat.

Local Abbreviation J := (tx_state c r).
Local Abbreviation inv := (keeps (tx_state c r) (tx_state c r)).

Lemma tx_state_emit (e : event) (w : World) :
  commit_done e = false -> rollback_done e = false -> J w -> J (emit e w).
Proof.
  intros Hc Hr [(Htx & Hco & Hro)|(Htx & Hsum)]; [left|right]; repeat split;
    simpl; try assumption; rewrite ?count_snoc, ?Hc, ?Hr; lia.
Qed.

Lemma tx_rolled_back_ended (w : World) : tx_rolled_back c r w -> J w.
Proof. intros (Htx & Hc & Hr). right. split; [exact Htx|lia]. Qed.

Lemma tx_committed_ended (w : World) : tx_committed c r w -> J w.
Proof. intros (Htx & _ & Hc & Hr). right. split; [exact Htx|lia]. Qed.

Ltac tx_leaf :=
  intros;
  first [ assumption
        | apply tx_state_emit; [reflexivity|reflexivity|assumption] ].

(** [Rollback] returns only when the transaction was open and the
    database accepted the rollback. *)
Lemma Rollback_tx :
  triple J (Rollback drv)
         (fun _ w => tx_rolled_back c r w /\ s_m w = true) (fun _ => J).
Proof.
  intros w HJ. unfold Rollback, bind, deref_m, read, ask, update, panic.
  destruct (s_m w) eqn:Hm; [|exact HJ]. simpl.
  destruct (mg_tx w) eqn:Htx; simpl; [|exact HJ].
  destruct HJ as [(_ & Hc & Hr)|(Hno & _)]; [|congruence].
  destruct (drv w TxRollback) as [id rows|e|x]; simpl.
  - repeat split; simpl; rewrite ?count_snoc; simpl; try lia. exact Hm.
  - apply tx_state_emit; [reflexivity|reflexivity|]. left. repeat split; assumption.
  - apply tx_state_emit; [reflexivity|reflexivity|]. left. repeat split; assumption.
Qed.

(** [Commit] likewise. *)
Lemma Commit_tx :
  triple J (Commit drv) (fun _ => tx_committed c r) (fun _ => J).
Proof.
  intros w HJ. unfold Commit, bind, deref_m, read, ask, update, panic.
  destruct (s_m w) eqn:Hm; [|exact HJ]. simpl.
  destruct (mg_tx w) eqn:Htx; simpl; [|exact HJ].
  destruct HJ as [(_ & Hc & Hr)|(Hno & _)]; [|congruence].
  destruct (drv w TxCommit) as [id rows|e|x]; simpl.
  - repeat split; simpl; rewrite ?count_snoc; simpl; try lia. exact Hm.
  - apply tx_state_emit; [reflexivity|reflexivity|]. left. repeat split; assumption.
  - apply tx_state_emit; [reflexivity|reflexivity|]. left. repeat split; assumption.
Qed.

(** [Close] returns only when the database closed the handle. *)
Lemma Close_tx :
  triple (fun w => tx_rolled_back c r w /\ s_m w = true) (Close drv)
         (fun _ => rolled_back_and_closed c r) (fun _ => J).
Proof.
  intros w [(Htx & Hc & Hr) Hm].
  unfold Close, Migration_Close, bind, deref_m, ask, update, panic.
  rewrite Hm. simpl.
  destruct (drv w DbClose) as [id rows|e|x]; simpl.
  - repeat split; simpl; rewrite ?count_snoc; simpl; try lia. exact Htx.
  - right. split; simpl; [exact Htx|]. rewrite !count_snoc. simpl. lia.
  - right. split; simpl; [exact Htx|]. rewrite !count_snoc. simpl. lia.
Qed.

Lemma Rollback_state : inv (Rollback drv).
Proof.
  eapply triple_weaken; [apply Rollback_tx|auto| |auto].
  intros _ w [H _]. apply tx_rolled_back_ended. exact H.
Qed.

Lemma GetQbsSameTransaction_state : inv GetQbsSameTransaction.
Proof. unfold GetQbsSameTransaction. keeps_all tx_leaf. Qed.

Lemma HasColumnOperations_state : inv HasColumnOperations.
Proof. unfold HasColumnOperations. keeps_all tx_leaf. Qed.

Lemma CreateTable_state tblName structPtr omit :
  inv (CreateTable drv StructNameToTableName tblName structPtr omit).
Proof. unfold CreateTable. keeps_all tx_leaf. Qed.

Lemma DropTable_state strutPtr : inv (DropTable drv StructNameToTableName strutPtr).
Proof. unfold DropTable. keeps_all tx_leaf. Qed.

Lemma RenameTable_state oldname newname : inv (RenameTable drv oldname newname).
Proof. unfold RenameTable. keeps_all tx_leaf. Qed.

Lemma trapColumnsForSqlite3_state suffix : inv (trapColumnsForSqlite3 suffix).
Proof. unfold trapColumnsForSqlite3. keeps_all tx_leaf. Qed.

Lemma untrapColumnsForSqlite3_state : inv untrapColumnsForSqlite3.
Proof.
  unfold untrapColumnsForSqlite3. apply keeps_update. intros w Hw.
  destruct (s_oldFieldNameToColumnName w); simpl;
    destruct (s_oldColumnNameToFieldName w); simpl; exact Hw.
Qed.

Lemma ChangeTable_state logicalName prev_raw curr_raw :
  inv (ChangeTable logicalName prev_raw curr_raw).
Proof. unfold ChangeTable. keeps_all tx_leaf. Qed.

Lemma renameCurrentTablesAddColumns_state reverse :
  inv (renameCurrentTablesAddColumns drv StructNameToTableName reverse).
Proof.
  unfold renameCurrentTablesAddColumns.
  keeps_by ltac:(first [ apply RenameTable_state
                       | apply trapColumnsForSqlite3_state
                       | apply CreateTable_state
                       | apply untrapColumnsForSqlite3_state ])
           tx_leaf.
Qed.

Lemma removeOldRenameColumns_state :
  inv (removeOldRenameColumns drv StructNameToTableName).
Proof.
  unfold removeOldRenameColumns.
  keeps_by ltac:(first [ apply DropTable_state | apply RenameTable_state ]) tx_leaf.
Qed.

Lemma FindAll_state logicalName : inv (FindAll drv logicalName).
Proof.
  unfold FindAll.
  keeps_by ltac:(first [ apply GetQbsSameTransaction_state
                       | apply trapColumnsForSqlite3_state
                       | apply untrapColumnsForSqlite3_state
                       | apply Rollback_state ])
           tx_leaf.
Qed.

Lemma Save_state logicalName curr : inv (Save drv logicalName curr).
Proof.
  unfold Save.
  keeps_by ltac:(first [ apply GetQbsSameTransaction_state
                       | apply trapColumnsForSqlite3_state
                       | apply untrapColumnsForSqlite3_state
                       | apply Rollback_state ])
           tx_leaf.
Qed.

Lemma exec_state {R} (p : Prog R) : inv (exec drv p).
Proof.
  induction p as [res|x|l a b k IH|l k IH|l v k IH|body IHb h IHh]; simpl.
  - apply keeps_ret.
  - apply keeps_panic. auto.
  - apply keeps_bind; [apply ChangeTable_state|exact IH].
  - apply keeps_bind; [apply FindAll_state|exact IH].
  - apply keeps_bind; [apply Save_state|exact IH].
  - apply keeps_with_recover; [exact IHb|exact IHh].
Qed.

Lemma migrate_state info reverse :
  inv (migrate drv StructNameToTableName info reverse).
Proof.
  unfold migrate, clear, flipOver, log.
  keeps_by ltac:(first [ apply exec_state
                       | apply renameCurrentTablesAddColumns_state
                       | apply HasColumnOperations_state
                       | apply removeOldRenameColumns_state ])
           tx_leaf.
Qed.

Lemma at_index_state info i : inv (at_index info i).
Proof. unfold at_index. keeps_all tx_leaf. Qed.

(** The error path of the two loops. *)
Lemma give_up_tx (e : error) :
  triple J (Rollback drv >> Close drv >> ret (Some e))
         (fun o w => o <> None /\ rolled_back_and_closed c r w) (fun _ => J).
Proof.
  eapply triple_bind; [apply Rollback_tx|intros ?; cbv beta].
  eapply triple_bind; [apply Close_tx|intros ?; cbv beta].
  intros w Hw. split; [discriminate|exact Hw].
Qed.

Lemma forward_loop_tx info n :
  forall i, triple J (forward_loop drv StructNameToTableName info i n)
                   (loop_result c r) (fun _ => J).
Proof.
  induction n as [|n IH]; intros i; simpl.
  - intros w Hw. exact Hw.
  - eapply triple_bind; [apply at_index_state|intros step; cbv beta].
    eapply triple_bind; [apply migrate_state|intros [e|]; cbv beta].
    + eapply triple_weaken; [apply (give_up_tx e)|auto| |auto].
      intros [e'|] w [Hne Hw]; [exact Hw|congruence].
    + apply IH.
Qed.

Lemma reverse_loop_tx info n :
  forall i, triple J (reverse_loop drv StructNameToTableName info i n)
                   (loop_result c r) (fun _ => J).
Proof.
  induction n as [|n IH]; intros i; simpl.
  - intros w Hw. exact Hw.
  - eapply triple_bind; [apply at_index_state|intros step; cbv beta].
    eapply triple_bind; [apply migrate_state|intros [e|]; cbv beta].
    + eapply triple_weaken; [apply (give_up_tx e)|auto| |auto].
      intros [e'|] w [Hne Hw]; [exact Hw|congruence].
    + apply IH.
Qed.

Lemma Run_body_tx info from to :
  triple J (Run_body drv StructNameToTableName info from to)
         (Run_result c r) (fun _ => J).
Proof.
  unfold Run_body.
  eapply triple_bind.
  - destruct (from <? to); [apply forward_loop_tx|apply reverse_loop_tx].
  - intros [e|]; cbv beta.
    + intros w Hw. exact Hw.
    + eapply triple_bind; [apply Commit_tx|intros ?; cbv beta].
      intros w Hw. exact Hw.
Qed.

Lemma recovered_tx x :
  triple J (recovered drv x) (Run_result c r) (fun _ => J).
Proof.
  unfold recovered.
  eapply triple_bind; [apply untrapColumnsForSqlite3_state|intros ?; cbv beta].
  eapply triple_bind; [apply Rollback_tx|intros ?; cbv beta].
  eapply triple_bind; [apply Close_tx|intros ?; cbv beta].
  intros w [(Htx & Hc & Hr) Hm]. simpl.
  repeat split; simpl; rewrite ?count_snoc; simpl; try lia; assumption.
Qed.

(** [Begin] opens the transaction or panics without one ended. *)
Lemma Begin_tx :
  triple (fun w => count commit_done (trace w) = c /\
                   count rollback_done (trace w) = r)
         (Begin drv)
         (fun _ => tx_open c r)
         (fun _ w => count commit_done (trace w) = c /\
                     count rollback_done (trace w) = r).
Proof.
  intros w [Hc Hr]. unfold Begin, bind, deref_m, ask, update, panic.
  destruct (s_m w); simpl; [|auto].
  destruct (drv w DbBegin) as [id rows|e|x]; simpl;
    repeat split; simpl; rewrite ?count_snoc; simpl; lia.
Qed.

(** Where [Run] leaves the transaction, whatever happens. *)
Lemma Run_tx info from to :
  from <> to ->
  triple (fun w => count commit_done (trace w) = c /\
                   count rollback_done (trace w) = r)
         (Run drv StructNameToTableName info from to)
         (Run_result c r)
         (fun _ w => (count commit_done (trace w) = c /\
                      count rollback_done (trace w) = r) \/ J w).
Proof.
  intros Hne. unfold Run. apply Z.eqb_neq in Hne. rewrite Hne.
  eapply triple_bind.
  - eapply triple_weaken; [apply Begin_tx|auto|intros a w H; exact H|].
    intros x w H. left. exact H.
  - intros ?; cbv beta.
    apply (triple_with_recover _ J).
    + eapply triple_weaken; [apply Run_body_tx|intros w H; left; exact H|auto|auto].
    + intros x. eapply triple_weaken; [apply recovered_tx|auto|auto|].
      intros y w H. right. exact H.
Qed.

End Transaction.

(** X8: when [Run] returns nil for a range that is not empty, the
    database has accepted exactly one commit and no rollback since [Run]
    was called, the transaction is no longer open, and the [Schema] still
    has its handle. *)
Theorem Run_returns_nil_after_commit
        (drv : World -> call -> response) (StructNameToTableName : string -> string)
        (info : list ReversibleMigration) (from to : Z) (w w' : World) :
  from <> to ->
  Run drv StructNameToTableName info from to w = (w', Normal None) ->
  count commit_done (trace w') = S (count commit_done (trace w)) /\
  count rollback_done (trace w') = count rollback_done (trace w) /\
  mg_tx w' = false /\ s_m w' = true.
Proof.
  intros Hne Hrun.
  pose proof (Run_tx drv StructNameToTableName _ _ info from to Hne w
                (conj eq_refl eq_refl)) as H.
  rewrite Hrun in H. destruct H as (Htx & Hm & Hc & Hr). auto.
Qed.

Lemma Run_returns_nil_after_commit_witness :
  let run := Run Example.healthy toSnake (All Example.myMigrations) 0 2 Example.fresh in
  (0 <> 2 /\ run = (fst run, Normal None)) /\
  count commit_done (trace (fst run)) = S (count commit_done (trace Example.fresh)) /\
  count rollback_done (trace (fst run)) = count rollback_done (trace Example.fresh) /\
  mg_tx (fst run) = false /\ s_m (fst run) = true.
Proof.
  split; [split; [lia|vm_compute; reflexivity]|].
  apply (Run_returns_nil_after_commit Example.healthy toSnake
           (All Example.myMigrations) 0 2); [lia|vm_compute; reflexivity].
Defined.

(** X9: when [Run] returns an error, the database has accepted exactly
    one rollback and no commit since [Run] was called, the transaction is
    no longer open, and the [Schema] has been closed. *)
Theorem Run_returns_error_after_rollback
        (drv : World -> call -> response) (StructNameToTableName : string -> string)
        (info : list ReversibleMigration) (from to : Z) (w w' : World) (e : error) :
  Run drv StructNameToTableName info from to w = (w', Normal (Some e)) ->
  count rollback_done (trace w') = S (count rollback_done (trace w)) /\
  count commit_done (trace w') = count commit_done (trace w) /\
  mg_tx w' = false /\ s_m w' = false.
Proof.
  intros Hrun.
  assert (Hne : from <> to).
  { intros ->. unfold Run in Hrun. rewrite Z.eqb_refl in Hrun. discriminate. }
  pose proof (Run_tx drv StructNameToTableName _ _ info from to Hne w
                (conj eq_refl eq_refl)) as H.
  rewrite Hrun in H. destruct H as [(Htx & Hc & Hr) Hm]. auto.
Qed.

Lemma Run_returns_error_after_rollback_witness :
  let run := Run Example.healthy toSnake (All [Example.simulatedError]) 0 1
                 Example.fresh in
  run = (fst run, Normal (Some (mkError "simulated to check transactions"))) /\
  count rollback_done (trace (fst run)) = S (count rollback_done (trace Example.fresh)) /\
  count commit_done (trace (fst run)) = count commit_done (trace Example.fresh) /\
  mg_tx (fst run) = false /\ s_m (fst run) = false.
Proof.
  split; [vm_compute; reflexivity|].
  apply (Run_returns_error_after_rollback Example.healthy toSnake
           (All [Example.simulatedError]) 0 1 _ _
           (mkError "simulated to check transactions")).
  vm_compute; reflexivity.
Defined.

(** X10: whatever [Run] does (return nil, return an error, let a panic
    escape), the database accepts at most one call that ends a
    transaction, commit or rollback, between the call of [Run] and its
    end. *)
Theorem Run_ends_at_most_one_transaction
        (drv : World -> call -> response) (StructNameToTableName : string -> string)
        (info : list ReversibleMigration) (from to : Z) (w : World) :
  let w' := fst (Run drv StructNameToTableName info from to w) in
  (count commit_done (trace w') + count rollback_done (trace w')
   <= S (count commit_done (trace w) + count rollback_done (trace w)))%nat.
Proof.
  destruct (Z.eq_dec from to) as [->|Hne].
  - unfold Run. rewrite Z.eqb_refl. simpl. lia.
  - pose proof (Run_tx drv StructNameToTableName _ _ info from to Hne w
                  (conj eq_refl eq_refl)) as H.
    destruct (Run drv StructNameToTableName info from to w) as [w' [[e|]|x]]; simpl.
    + destruct H as [(_ & Hc & Hr) _]. lia.
    + destruct H as (_ & _ & Hc & Hr). lia.
    + destruct H as [[Hc Hr]|[(_ & Hc & Hr)|(_ & Hs)]]; lia.
Qed.

(** X11: a [Schema] whose [Run] has returned an error is closed: the
    next [Run] over a range that is not empty panics on the missing
    handle before it asks anything of the database, and the panic leaves
    [Run], since [Begin] is called before the recovery is set up; so does
    [FindAll]. *)
Theorem Run_after_error_panics
        (drv : World -> call -> response) (StructNameToTableName : string -> string)
        (info : list ReversibleMigration) (from to : Z) (w w' : World) (e : error) :
  Run drv StructNameToTableName info from to w = (w', Normal (Some e)) ->
  (forall info' from' to',
      from' <> to' ->
      Run drv StructNameToTableName info' from' to' w' = (w', Panicked nil_dereference)) /\
  (forall logicalName,
      FindAll drv logicalName w' = (w', Panicked nil_dereference)).
Proof.
  intros Hrun.
  assert (Hne : from <> to).
  { intros ->. unfold Run in Hrun. rewrite Z.eqb_refl in Hrun. discriminate. }
  pose proof (Run_tx drv StructNameToTableName _ _ info from to Hne w
                (conj eq_refl eq_refl)) as H.
  rewrite Hrun in H. destruct H as [_ Hm]. split.
  - intros info' from' to' Hne'. unfold Run. apply Z.eqb_neq in Hne'.
    rewrite Hne'. unfold Begin, bind, deref_m. rewrite Hm. reflexivity.
  - intros l. unfold FindAll, GetQbsSameTransaction, bind, deref_m.
    rewrite Hm. reflexivity.
Qed.

Lemma Run_after_error_panics_witness :
  let run := Run Example.healthy toSnake (All [Example.simulatedError]) 0 1
                 Example.fresh in
  run = (fst run, Normal (Some (mkError "simulated to check transactions"))) /\
  (forall info' from' to',
      from' <> to' ->
      Run Example.healthy toSnake info' from' to' (fst run)
      = (fst run, Panicked nil_dereference)) /\
  (forall logicalName,
      FindAll Example.healthy logicalName (fst run)
      = (fst run, Panicked nil_dereference)).
Proof.
  split; [vm_compute; reflexivity|].
  apply (Run_after_error_panics Example.healthy toSnake
           (All [Example.simulatedError]) 0 1 Example.fresh _
           (mkError "simulated to check transactions")).
  vm_compute; reflexivity.
Defined.

(** ** Panics that leave [Run] *)

(** X12: [Run] calls [Begin] before it sets up the recovery, so when
    the database refuses to start the transaction the panic of [Begin]
    leaves [Run]: nothing is rolled back, closed or printed, and no error
    is returned. *)
Theorem Run_lets_Begin_panic_escape
        (drv : World -> call -> response) (StructNameToTableName : string -> string)
        (info : list ReversibleMigration) (from to : Z) (w : World) (e : error) :
  from <> to -> s_m w = true -> drv w DbBegin = RErr e ->
  Run drv StructNameToTableName info from to w
  = (emit (Called DbBegin (FieldNameToColumnName w) (ColumnNameToFieldName w) (RErr e)) w,
     Panicked (PString ("Unable to start transaction in migration : %s" +:+ Error e))).
Proof.
  intros Hne Hm Hb. unfold Run. apply Z.eqb_neq in Hne. rewrite Hne.
  unfold Begin, bind, deref_m, ask, panic. rewrite Hm, Hb. reflexivity.
Qed.

Lemma Run_lets_Begin_panic_escape_witness :
  (0 <> 1 /\ s_m Example.fresh = true /\
   Scenario.begin_fails Example.fresh DbBegin = RErr (mkError "database is locked")) /\
  Run Scenario.begin_fails toSnake (All Example.myMigrations) 0 1 Example.fresh
  = (emit (Called DbBegin (FieldNameToColumnName Example.fresh)
                  (ColumnNameToFieldName Example.fresh)
                  (RErr (mkError "database is locked"))) Example.fresh,
     Panicked (PString ("Unable to start transaction in migration : %s"
                        +:+ Error (mkError "database is locked")))).
Proof.
  split; [repeat split; lia|].
  apply Run_lets_Begin_panic_escape; [lia|reflexivity|reflexivity].
Defined.

Lemma Rollback_without_transaction (drv : World -> call -> response) (w : World) :
  s_m w = true -> mg_tx w = false ->
  Rollback drv w = (w, Panicked (PString "no transaction in progress, cannot rollback!")).
Proof.
  intros Hm Htx. unfold Rollback, bind, deref_m, read, panic.
  rewrite Hm. simpl. rewrite Htx. reflexivity.
Qed.

Lemma untrap_keeps_handle (w : World) :
  let w' := fst (untrapColumnsForSqlite3 w) in
  s_m w' = s_m w /\ mg_tx w' = mg_tx w /\ trace w' = trace w.
Proof.
  unfold untrapColumnsForSqlite3, update. simpl.
  destruct (s_oldFieldNameToColumnName w); simpl;
    destruct (s_oldColumnNameToFieldName w); simpl; auto.
Qed.

(** X13: the first step of the range fails (it returns an error or
    panics) in a world where its transaction has already been rolled back
    and the handle is still there.  Then [Run] does not return: the
    rollback of [Run] panics for want of a transaction, and so does the
    rollback of the deferred recovery, whose panic leaves [Run].  Nothing
    more reaches the database, and the [Schema] is not closed. *)
Theorem Run_panics_after_rolled_back_step
        (drv : World -> call -> response) (StructNameToTableName : string -> string)
        (info : list ReversibleMigration) (from to : Z) (step : ReversibleMigration)
        (w w0 w1 : World) (o : outcome (option error)) :
  0 <= from -> from < to ->
  info !! Z.to_nat from = Some step ->
  Begin drv w = (w0, Normal tt) ->
  migrate drv StructNameToTableName step false w0 = (w1, o) ->
  o <> Normal None ->
  s_m w1 = true -> mg_tx w1 = false ->
  let w' := fst (untrapColumnsForSqlite3 w1) in
  Run drv StructNameToTableName info from to w
  = (w', Panicked (PString "no transaction in progress, cannot rollback!")) /\
  trace w' = trace w1 /\ s_m w' = true.
Proof.
  intros H0 Hlt Hstep HB Hmig Hfail Hm Htx w'.
  destruct (untrap_keeps_handle w1) as (Hm' & Htx' & Htr'). fold w' in Hm', Htx', Htr'.
  split; [|split; [exact Htr'|congruence]].
  assert (Hrec : forall x, recovered drv x w1
                 = (w', Panicked (PString "no transaction in progress, cannot rollback!"))).
  { intros x. unfold recovered. unfold bind at 1.
    destruct (untrapColumnsForSqlite3 w1) as [wu [[]|y]] eqn:Hu;
      [|unfold untrapColumnsForSqlite3, update in Hu; discriminate].
    simpl in w'. subst w'. unfold bind at 1.
    rewrite Rollback_without_transaction by congruence. reflexivity. }
  unfold Run. assert (Hne : (from =? to) = false) by (apply Z.eqb_neq; lia).
  rewrite Hne. unfold bind at 1. rewrite HB.
  unfold with_recover, Run_body. apply Z.ltb_lt in Hlt as Hb. rewrite Hb.
  destruct (Z.to_nat (to - from)) as [|n] eqn:Hn; [lia|].
  simpl forward_loop. unfold bind at 1. unfold bind at 1. unfold bind at 1.
  unfold at_index. assert (Hneg : (from <? 0) = false) by (apply Z.ltb_ge; lia).
  rewrite Hneg, Hstep. unfold ret at 1. rewrite Hmig.
  destruct o as [[e|]|x]; [| congruence | apply Hrec].
  unfold bind at 1. rewrite Rollback_without_transaction by assumption.
  apply Hrec.
Qed.

Lemma Run_panics_after_rolled_back_step_witness :
  (0 <= 1 /\ 1 < 2 /\
   All Example.myMigrations !! Z.to_nat 1 = Some Scenario.second_step /\
   Begin Example.save_fails Example.fresh = (Scenario.after_begin, Normal tt) /\
   migrate Example.save_fails toSnake Scenario.second_step false Scenario.after_begin
   = (Scenario.after_failed_save, Normal (Some (mkError "constraint failed"))) /\
   s_m Scenario.after_failed_save = true /\
   mg_tx Scenario.after_failed_save = false) /\
  Run Example.save_fails toSnake (All Example.myMigrations) 1 2 Example.fresh
  = (fst (untrapColumnsForSqlite3 Scenario.after_failed_save),
     Panicked (PString "no transaction in progress, cannot rollback!")) /\
  trace (fst (untrapColumnsForSqlite3 Scenario.after_failed_save))
  = trace Scenario.after_failed_save /\
  s_m (fst (untrapColumnsForSqlite3 Scenario.after_failed_save)) = true.
Proof.
  assert (Hstep : All Example.myMigrations !! Z.to_nat 1 = Some Scenario.second_step)
    by reflexivity.
  assert (HB : Begin Example.save_fails Example.fresh
               = (Scenario.after_begin, Normal tt))
    by (vm_compute; reflexivity).
  assert (Hmig : migrate Example.save_fails toSnake Scenario.second_step false
                         Scenario.after_begin
                 = (Scenario.after_failed_save,
                    Normal (Some (mkError "constraint failed"))))
    by (vm_compute; reflexivity).
  assert (Hm : s_m Scenario.after_failed_save = true) by (vm_compute; reflexivity).
  assert (Htx : mg_tx Scenario.after_failed_save = false) by (vm_compute; reflexivity).
  split;
    [split; [lia|split; [lia|exact (conj Hstep (conj HB (conj Hmig (conj Hm Htx))))]]|].
  exact (Run_panics_after_rolled_back_step Example.save_fails toSnake
           (All Example.myMigrations) 1 2 Scenario.second_step Example.fresh
           Scenario.after_begin Scenario.after_failed_save
           (Normal (Some (mkError "constraint failed")))
           ltac:(lia) ltac:(lia) Hstep HB Hmig ltac:(discriminate) Hm Htx).
Defined.

(** ** [FindAll] and [Save] end the transaction themselves *)

Lemma Rollback_returns (drv : World -> call -> response) :
  triple (fun _ => True) (Rollback drv)
         (fun _ w => mg_tx w = false /\ s_m w = true) (fun _ _ => True).
Proof.
  intros w _. unfold Rollback, bind, deref_m, read, ask, update, panic.
  destruct (s_m w) eqn:Hm; [|exact I]. simpl.
  destruct (mg_tx w); simpl; [|exact I].
  destruct (drv w TxRollback); simpl; auto.
Qed.

Lemma triple_any {A} (c : M A) :
  triple (fun _ => True) c (fun _ _ => True) (fun _ _ => True).
Proof. intros w _. destruct (c w) as [? [?|?]]; exact I. Qed.

Lemma Save_error (drv : World -> call -> response) (l : string) (cur : iface) :
  triple (fun _ => True) (Save drv l cur)
         (fun res w => snd res <> None ->
                       fst res = 0 /\ mg_tx w = false /\ s_m w = true)
         (fun _ _ => True).
Proof.
  unfold Save.
  eapply triple_bind; [apply triple_any|intros ?; cbv beta].
  eapply triple_bind; [apply triple_any|intros ?; cbv beta].
  destruct cur as [rec|]; [|intros w _; exact I].
  eapply triple_bind; [apply triple_any|intros omit; cbv beta].
  eapply triple_bind; [apply triple_any|intros ?; cbv beta].
  eapply triple_bind; [apply triple_any|intros [id rows|err|x]; cbv beta].
  - eapply triple_bind; [apply triple_any|intros ?; cbv beta].
    intros w _. simpl. congruence.
  - eapply triple_bind; [apply triple_any|intros ?; cbv beta].
    eapply triple_bind; [apply Rollback_returns|intros ?; cbv beta].
    intros w H. simpl. intros _. split; [reflexivity|exact H].
  - intros w _. exact I.
Qed.

Lemma FindAll_error (drv : World -> call -> response) (l : string) :
  triple (fun _ => True) (FindAll drv l)
         (fun res w => snd res <> None ->
                       fst res = None /\ mg_tx w = false /\ s_m w = true)
         (fun _ _ => True).
Proof.
  unfold FindAll.
  eapply triple_bind; [apply triple_any|intros ?; cbv beta].
  eapply triple_bind; [apply triple_any|intros prev; cbv beta].
  destruct (prev !! l) as [pr|]; [|intros w _; exact I].
  eapply triple_bind; [apply triple_any|intros ?; cbv beta].
  eapply triple_bind; [apply triple_any|intros omit; cbv beta].
  eapply triple_bind; [apply triple_any|intros [id rows|err|x]; cbv beta].
  - eapply triple_bind; [apply triple_any|intros ?; cbv beta].
    intros w _. simpl. congruence.
  - eapply triple_bind; [apply triple_any|intros ?; cbv beta].
    eapply triple_bind; [apply Rollback_returns|intros ?; cbv beta].
    intros w H. simpl. intros _. split; [reflexivity|exact H].
  - intros w _. exact I.
Qed.

(** X14: when [Save] or [FindAll] returns an error, it has rolled the
    transaction back itself: the transaction is gone while the handle is
    still there, the value returned beside the error is the zero value,
    and from then on [Rollback] panics for want of a transaction (the
    rollback [Run] performs for an error of a step among them) and
    [FindAll] panics before it reaches the database. *)
Theorem error_of_Save_or_FindAll_ends_transaction
        (drv : World -> call -> response) (l : string) (cur : iface)
        (w w' : World) (id : Z) (raw : iface) (err : error) :
  Save drv l cur w = (w', Normal (id, Some err)) \/
  FindAll drv l w = (w', Normal (raw, Some err)) ->
  mg_tx w' = false /\ s_m w' = true /\
  Rollback drv w'
  = (w', Panicked (PString "no transaction in progress, cannot rollback!")) /\
  (forall l',
      FindAll drv l' w'
      = (w', Panicked (PString "cant make a new qbs on same transaction because tx is nil!"))) /\
  (Save drv l cur w = (w', Normal (id, Some err)) -> id = 0) /\
  (FindAll drv l w = (w', Normal (raw, Some err)) -> raw = None).
Proof.
  intros H.
  assert (Hst : mg_tx w' = false /\ s_m w' = true).
  { destruct H as [H|H].
    - pose proof (Save_error drv l cur w I) as Hs. rewrite H in Hs.
      apply Hs. discriminate.
    - pose proof (FindAll_error drv l w I) as Hs. rewrite H in Hs.
      apply Hs. discriminate. }
  destruct Hst as [Htx Hm]. repeat split; auto.
  - apply Rollback_without_transaction; assumption.
  - intros l'. unfold FindAll, GetQbsSameTransaction, bind, deref_m, read, panic.
    rewrite Hm. simpl. rewrite Htx. reflexivity.
  - intros Hs. pose proof (Save_error drv l cur w I) as Hq. rewrite Hs in Hq.
    apply Hq. discriminate.
  - intros Hs. pose proof (FindAll_error drv l w I) as Hq. rewrite Hs in Hq.
    apply Hq. discriminate.
Qed.

Lemma error_of_Save_or_FindAll_ends_transaction_witness :
  let w := Example.shape_change in
  let run := FindAll Example.find_fails "Article" w in
  (Save Example.find_fails "Article" None w
   = (fst run, Normal (0, Some (mkError "no such table"))) \/
   run = (fst run, Normal (None, Some (mkError "no such table")))) /\
  mg_tx (fst run) = false /\ s_m (fst run) = true.
Proof.
  assert (H : Save Example.find_fails "Article" None Example.shape_change
              = (fst (FindAll Example.find_fails "Article" Example.shape_change),
                 Normal (0, Some (mkError "no such table"))) \/
              FindAll Example.find_fails "Article" Example.shape_change
              = (fst (FindAll Example.find_fails "Article" Example.shape_change),
                 Normal (None, Some (mkError "no such table")))).
  { right. vm_compute. reflexivity. }
  split; [exact H|].
  pose proof (error_of_Save_or_FindAll_ends_transaction
                Example.find_fails "Article" None Example.shape_change _ 0 None
                (mkError "no such table") H) as (Htx & Hm & _).
  split; assumption.
Defined.

(** ** Ranges that leave the list of steps *)

Lemma give_up_not_nil (drv : World -> call -> response) (e : error) (w : World) :
  snd ((Rollback drv >> Close drv >> ret (Some e)) w) <> Normal None.
Proof.
  unfold bind. destruct (Rollback drv w) as [w1 [[]|x]]; [|discriminate].
  destruct (Close drv w1) as [w2 [[]|y]]; discriminate.
Qed.

Lemma recovered_not_nil (drv : World -> call -> response) (x : panicval) (w : World) :
  snd (recovered drv x w) <> Normal None.
Proof.
  unfold recovered, bind.
  destruct (untrapColumnsForSqlite3 w) as [w1 [[]|y1]]; [|discriminate].
  destruct (Rollback drv w1) as [w2 [[]|y2]]; [|discriminate].
  destruct (Close drv w2) as [w3 [[]|y3]]; discriminate.
Qed.

Section Leaves.

Variable drv : World -> call -> response.
Variable StructNameToTableName : string -> string.
Variable info : list ReversibleMigration.

Lemma forward_loop_leaves (n : nat) :
  forall i w,
    (0 < n)%nat ->
    i < 0 \/ Z.of_nat (length info) < i + Z.of_nat n ->
    snd (forward_loop drv StructNameToTableName info i n w) <> Normal None.
Proof.
  induction n as [|n IH]; intros i w Hn Hout; [lia|].
  simpl. unfold bind at 1. unfold at_index.
  destruct (i <? 0) eqn:Hi; [discriminate|]. apply Z.ltb_ge in Hi.
  destruct (info !! Z.to_nat i) as [step|] eqn:Hs; [|discriminate].
  apply lookup_lt_Some in Hs. unfold ret at 1. unfold bind at 1.
  destruct (migrate drv StructNameToTableName step false w) as [w1 [[e|]|x]].
  - apply give_up_not_nil.
  - apply IH; lia.
  - discriminate.
Qed.

Lemma reverse_loop_leaves (n : nat) :
  forall i w,
    (0 < n)%nat ->
    Z.of_nat (length info) <= i \/ i - Z.of_nat n + 1 < 0 ->
    snd (reverse_loop drv StructNameToTableName info i n w) <> Normal None.
Proof.
  induction n as [|n IH]; intros i w Hn Hout; [lia|].
  simpl. unfold bind at 1. unfold at_index.
  destruct (i <? 0) eqn:Hi; [discriminate|]. apply Z.ltb_ge in Hi.
  destruct (info !! Z.to_nat i) as [step|] eqn:Hs; [|discriminate].
  apply lookup_lt_Some in Hs. unfold ret at 1. unfold bind at 1.
  destruct (migrate drv StructNameToTableName step true w) as [w1 [[e|]|x]].
  - apply give_up_not_nil.
  - apply IH; lia.
  - discriminate.
Qed.

Lemma Run_loop_leaves (from to : Z) (w : World) :
  from <> to -> leaves_the_list info from to = true ->
  snd (Run_loop drv StructNameToTableName info from to w) <> Normal None.
Proof.
  intros Hne Hout. unfold leaves_the_list in Hout. unfold Run_loop.
  destruct (from <? to) eqn:Hlt.
  - apply Z.ltb_lt in Hlt. apply orb_true_iff in Hout.
    apply forward_loop_leaves; [lia|].
    destruct Hout as [H|H]; apply Z.ltb_lt in H; lia.
  - apply Z.ltb_ge in Hlt. apply orb_true_iff in Hout.
    apply reverse_loop_leaves; [lia|].
    destruct Hout as [H|H]; apply Z.ltb_lt in H; lia.
Qed.

End Leaves.

(** X15: a range that is not empty and asks for a step the list does
    not hold (an index below zero or past the last step, as when [to] is
    [UNLIMITED_MIGRATIONS] and the list is shorter) never succeeds: [Run]
    does not return nil and it never asks the database to commit. *)
Theorem Run_out_of_range
        (drv : World -> call -> response) (StructNameToTableName : string -> string)
        (info : list ReversibleMigration) (from to : Z) (w : World) :
  from <> to -> leaves_the_list info from to = true ->
  let run := Run drv StructNameToTableName info from to w in
  snd run <> Normal None /\
  count is_commit (trace (fst run)) = count is_commit (trace w).
Proof.
  intros Hne Hout.
  set (n := count is_commit (trace w)).
  assert (Hw : commits_are n w) by reflexivity.
  assert (H : forall w' o,
             Run drv StructNameToTableName info from to w = (w', o) ->
             o <> Normal None /\ count is_commit (trace w') = n).
  { intros w' o. unfold Run. apply Z.eqb_neq in Hne as Hb. rewrite Hb.
    unfold bind at 1.
    pose proof (Begin_commits drv n w Hw) as HB.
    destruct (Begin drv w) as [w0 [[]|x]];
      [|intros E; inversion E; subst; split; [discriminate|exact HB]].
    unfold with_recover, Run_body.
    change (if from <? to
            then forward_loop drv StructNameToTableName info from (Z.to_nat (to - from))
            else reverse_loop drv StructNameToTableName info (from - 1)
                              (Z.to_nat (from - to)))
      with (Run_loop drv StructNameToTableName info from to).
    unfold bind at 1.
    pose proof (Run_loop_commits drv StructNameToTableName n info from to w0 HB) as HL.
    pose proof (Run_loop_leaves drv StructNameToTableName info from to w0 Hne Hout)
      as Hnot.
    destruct (Run_loop drv StructNameToTableName info from to w0) as [w1 [[e|]|x]].
    - intros E. inversion E; subst. split; [discriminate|exact HL].
    - simpl in Hnot. congruence.
    - intros E. split.
      + pose proof (recovered_not_nil drv x w1) as Hn. rewrite E in Hn. exact Hn.
      + pose proof (keeps_run _ _ w1 (recovered_commits drv n x) HL) as Hk.
        rewrite E in Hk. exact Hk. }
  intros run. subst run.
  destruct (Run drv StructNameToTableName info from to w) as [w' o] eqn:E.
  exact (H w' o eq_refl).
Qed.

Lemma Run_out_of_range_witness :
  (0 <> UNLIMITED_MIGRATIONS /\
   leaves_the_list (All Example.myMigrations) 0 UNLIMITED_MIGRATIONS = true) /\
  let run := Run Example.healthy toSnake (All Example.myMigrations)
                 0 UNLIMITED_MIGRATIONS Example.fresh in
  snd run <> Normal None /\
  count is_commit (trace (fst run)) = count is_commit (trace Example.fresh).
Proof.
  split; [split; [discriminate|reflexivity]|].
  apply Run_out_of_range; [discriminate|reflexivity].
Defined.

(** ** Steps without functions *)

Lemma migrate_no_functions
      (drv : World -> call -> response) (StructNameToTableName : string -> string)
      (sm : SimpleMigration) (reverse : bool) (w : World) :
  no_functions sm -> s_m w = true ->
  migrate drv StructNameToTableName (SimpleMigration_step sm) reverse w
  = (set_registry ∅ ∅ w, Normal None).
Proof.
  intros [HS HD] Hm. destruct sm as [S D]. simpl in HS, HD. subst S D.
  unfold migrate, SimpleMigration_step, clear, flipOver, log,
    renameCurrentTablesAddColumns, removeOldRenameColumns, HasColumnOperations,
    deref_m, bind, read, update, ret. simpl.
  destruct reverse; simpl;
    repeat (progress (rewrite ?map_to_list_empty, ?Hm; simpl)); reflexivity.
Qed.

Section NoFunctions.

Variable drv : World -> call -> response.
Variable StructNameToTableName : string -> string.
Variable steps : list SimpleMigration.
Hypothesis nothing_to_do : Forall no_functions steps.

Lemma All_lookup (i : nat) :
  (i < length steps)%nat ->
  exists sm, All steps !! i = Some (SimpleMigration_step sm) /\ no_functions sm.
Proof.
  intros Hi. destruct (lookup_lt_is_Some_2 steps i Hi) as [sm Hsm].
  exists sm. split.
  - unfold All. rewrite list_lookup_fmap, Hsm. reflexivity.
  - exact (proj1 (Forall_lookup _ _) nothing_to_do i sm Hsm).
Qed.

(** A world that differs from [w] in the registry at most. *)
Lemma forward_loop_no_functions (n : nat) :
  forall i w,
    0 <= i -> i + Z.of_nat n <= Z.of_nat (length steps) -> s_m w = true ->
    exists p q,
      forward_loop drv StructNameToTableName (All steps) i n w
      = (set_registry p q w, Normal None) /\
      ((0 < n)%nat -> p = ∅ /\ q = ∅).
Proof.
  induction n as [|n IH]; intros i w H0 Hin Hm.
  - exists (s_prev w), (s_curr w). split; [destruct w; reflexivity|lia].
  - destruct (All_lookup (Z.to_nat i)) as (sm & Hsm & Hno); [lia|].
    simpl. unfold bind at 1. unfold at_index.
    assert (Hneg : (i <? 0) = false) by (apply Z.ltb_ge; lia).
    rewrite Hneg, Hsm. unfold ret at 1. unfold bind at 1.
    rewrite (migrate_no_functions _ _ sm false w Hno Hm).
    destruct (IH (i + 1) (set_registry ∅ ∅ w)) as (p & q & Hloop & Hpq);
      [lia|lia|exact Hm|].
    rewrite Hloop. destruct n as [|n].
    + exists ∅, ∅. simpl in Hloop. unfold ret in Hloop. inversion Hloop as [Heq].
      split; [|auto]. simpl. rewrite Heq. reflexivity.
    + destruct Hpq as [-> ->]; [lia|]. exists ∅, ∅. split; [reflexivity|auto].
Qed.

Lemma reverse_loop_no_functions (n : nat) :
  forall i w,
    i < Z.of_nat (length steps) -> 0 <= i - Z.of_nat n + 1 -> s_m w = true ->
    exists p q,
      reverse_loop drv StructNameToTableName (All steps) i n w
      = (set_registry p q w, Normal None) /\
      ((0 < n)%nat -> p = ∅ /\ q = ∅).
Proof.
  induction n as [|n IH]; intros i w Hin H0 Hm.
  - exists (s_prev w), (s_curr w). split; [destruct w; reflexivity|lia].
  - destruct (All_lookup (Z.to_nat i)) as (sm & Hsm & Hno); [lia|].
    simpl. unfold bind at 1. unfold at_index.
    assert (Hneg : (i <? 0) = false) by (apply Z.ltb_ge; lia).
    rewrite Hneg, Hsm. unfold ret at 1. unfold bind at 1.
    rewrite (migrate_no_functions _ _ sm true w Hno Hm).
    destruct (IH (i - 1) (set_registry ∅ ∅ w)) as (p & q & Hloop & Hpq);
      [lia|lia|exact Hm|].
    rewrite Hloop. destruct n as [|n].
    + exists ∅, ∅. simpl in Hloop. unfold ret in Hloop. inversion Hloop as [Heq].
      split; [|auto]. simpl. rewrite Heq. reflexivity.
    + destruct Hpq as [-> ->]; [lia|]. exists ∅, ∅. split; [reflexivity|auto].
Qed.

End NoFunctions.

(** X16: steps whose [SimpleMigration] has neither an [S] nor a [D]
    function touch no table.  Over a range inside the list, on a database
    that accepts the begin and the commit, [Run] returns nil, the only
    calls it makes are the begin and the commit, and it leaves the
    registry empty. *)
Theorem Run_without_functions
        (drv : World -> call -> response) (StructNameToTableName : string -> string)
        (steps : list SimpleMigration) (from to : Z) (w : World) :
  Forall no_functions steps ->
  from <> to -> leaves_the_list (All steps) from to = false ->
  s_m w = true ->
  (forall w', accepted (drv w' DbBegin)) ->
  (forall w', accepted (drv w' TxCommit)) ->
  exists w',
    Run drv StructNameToTableName (All steps) from to w = (w', Normal None) /\
    calls (trace w') = calls (trace w) ++ [DbBegin; TxCommit] /\
    s_prev w' = ∅ /\ s_curr w' = ∅.
Proof.
  intros Hall Hne Hin Hm HB HC.
  assert (Hlen : length (All steps) = length steps) by (unfold All; apply length_map).
  unfold leaves_the_list in Hin. rewrite Hlen in Hin.
  unfold Run. apply Z.eqb_neq in Hne as Hb. rewrite Hb.
  unfold bind at 1. unfold Begin, bind, deref_m, ask, update, panic. rewrite Hm.
  pose proof (HB w) as HBw. destruct (drv w DbBegin) as [id rows|e|x]; try contradiction.
  set (w0 := set_tx true
               (emit (Called DbBegin (FieldNameToColumnName w) (ColumnNameToFieldName w)
                             (ROk id rows)) w)).
  assert (Hloop : exists p q,
             Run_loop drv StructNameToTableName (All steps) from to w0
             = (set_registry p q w0, Normal None) /\ p = ∅ /\ q = ∅).
  { unfold Run_loop. destruct (from <? to) eqn:Hlt.
    - apply Z.ltb_lt in Hlt. apply orb_false_iff in Hin as [H1 H2].
      apply Z.ltb_ge in H1, H2.
      destruct (forward_loop_no_functions drv StructNameToTableName steps Hall
                  (Z.to_nat (to - from)) from w0) as (p & q & Hl & Hpq);
        [lia|lia|exact Hm|].
      exists p, q. split; [exact Hl|apply Hpq; lia].
    - apply Z.ltb_ge in Hlt. apply orb_false_iff in Hin as [H1 H2].
      apply Z.ltb_ge in H1, H2.
      destruct (reverse_loop_no_functions drv StructNameToTableName steps Hall
                  (Z.to_nat (from - to)) (from - 1) w0) as (p & q & Hl & Hpq);
        [lia|lia|exact Hm|].
      exists p, q. split; [exact Hl|apply Hpq; lia]. }
  destruct Hloop as (p & q & Hl & -> & ->).
  simpl. unfold with_recover, Run_body.
  change (if from <? to
          then forward_loop drv StructNameToTableName (All steps) from (Z.to_nat (to - from))
          else reverse_loop drv StructNameToTableName (All steps) (from - 1)
                            (Z.to_nat (from - to)))
    with (Run_loop drv StructNameToTableName (All steps) from to).
  fold w0. unfold bind at 1. rewrite Hl.
  unfold Commit, bind, deref_m, read, ask, update, panic, ret. simpl. rewrite Hm. simpl.
  match goal with
  | |- context [drv ?w1 TxCommit] =>
      pose proof (HC w1) as HCw; destruct (drv w1 TxCommit) as [id' rows'|e|x];
      try contradiction
  end.
  eexists. split; [reflexivity|]. simpl. repeat split.
  unfold calls. rewrite !omap_app. simpl. rewrite <- app_assoc. reflexivity.
Qed.

Lemma Run_without_functions_witness :
  (Forall no_functions [mkSimple None None; mkSimple None None] /\
   2 <> 0 /\
   leaves_the_list (All [mkSimple None None; mkSimple None None]) 2 0 = false /\
   s_m Example.fresh = true /\
   (forall w', accepted (Example.healthy w' DbBegin)) /\
   (forall w', accepted (Example.healthy w' TxCommit))) /\
  exists w',
    Run Example.healthy toSnake (All [mkSimple None None; mkSimple None None]) 2 0
        Example.fresh = (w', Normal None) /\
    calls (trace w') = calls (trace Example.fresh) ++ [DbBegin; TxCommit] /\
    s_prev w' = ∅ /\ s_curr w' = ∅.
Proof.
  assert (Hall : Forall no_functions [mkSimple None None; mkSimple None None])
    by (repeat constructor).
  split; [split; [exact Hall|]; repeat split; discriminate|].
  apply Run_without_functions;
    [exact Hall|discriminate|reflexivity|reflexivity|intros; exact I|intros; exact I].
Defined.

(** ** The name format, letter by letter *)

Lemma substring_length_le (s : string) :
  forall m k, (String.length (substring m k s) <= String.length s - m)%nat.
Proof.
  induction s as [|c s IH]; intros m k.
  - destruct m, k; simpl; lia.
  - destruct m as [|m].
    + destruct k as [|k]; simpl; [lia|]. specialize (IH 0%nat k). lia.
    + simpl. apply IH.
Qed.

Lemma substring_split3 (s : string) :
  forall m k,
    (m + k <= String.length s)%nat ->
    s = substring 0 m s +:+ substring m k s
        +:+ substring (m + k) (String.length s - (m + k)) s.
Proof.
  induction s as [|c s IH]; intros m k Hle.
  - simpl in Hle. destruct m, k; try lia. reflexivity.
  - destruct m as [|m].
    + change (substring 0 0 (String c s)) with EmptyString.
      change (EmptyString +:+ ?x) with x. apply substring_split. exact Hle.
    + simpl in Hle. simpl.
      change (String c s = String c (substring 0 m s +:+ substring m k s
                +:+ substring (m + k) (String.length s - (m + k)) s)).
      f_equal. apply IH. lia.
Qed.

Lemma substring_in_prefix (a b : string) :
  forall m k, (m + k <= String.length a)%nat ->
              substring m k (a +:+ b) = substring m k a.
Proof.
  induction a as [|c a IH]; intros m k Hle.
  - simpl in Hle. destruct m, k; try lia. destruct b; reflexivity.
  - destruct m as [|m].
    + destruct k as [|k]; [reflexivity|]. simpl. f_equal. apply (IH 0%nat k).
      simpl in Hle. lia.
    + simpl. apply IH. simpl in Hle. lia.
Qed.

Lemma substring_skip_more (pre s : string) (m k : nat) :
  substring (String.length pre + m) k (pre +:+ s) = substring m k s.
Proof. induction pre as [|c pre IH]; simpl; [reflexivity|exact IH]. Qed.

(** Where [Index] finds a separator whose first byte occurs nowhere else
    in it, after a prefix that does not hold the separator. *)
Lemma Index_after_prefix (L sep r : string) (c0 : ascii) (tail : string) :
  sep = String c0 tail ->
  (forall j, (0 < j < String.length sep)%nat -> get j sep <> Some c0) ->
  Contains L sep = false ->
  Index (L +:+ sep +:+ r) sep = Some (String.length L).
Proof.
  intros Hsep Hborder Hno.
  assert (Hne : sep <> "") by (rewrite Hsep; discriminate).
  pose proof (proj1 (Contains_false_iff L sep Hne) Hno) as HnoL.
  assert (Hocc : substring (String.length L) (String.length sep) (L +:+ sep +:+ r) = sep).
  { rewrite substring_skip_prefix. apply substring_take_prefix. }
  unfold Index. destruct (index 0 sep (L +:+ sep +:+ r)) as [m|] eqn:Hi.
  - f_equal.
    pose proof (index_correct1 _ _ _ _ Hi) as H1.
    pose proof (index_correct2 _ _ _ _ Hi) as H2.
    destruct (lt_eq_lt_dec m (String.length L)) as [[Hlt|Heq]|Hgt].
    + exfalso. destruct (le_lt_dec (m + String.length sep) (String.length L)) as [Hin|Hover].
      * apply (HnoL m). rewrite <- (substring_in_prefix L (sep +:+ r)) by exact Hin.
        exact H1.
      * apply (Hborder (String.length L - m)%nat); [lia|].
        rewrite <- H1 at 1. rewrite substring_correct1 by lia.
        replace (String.length L - m + m)%nat with (0 + String.length L)%nat by lia.
        rewrite <- append_correct2. rewrite Hsep. reflexivity.
    + exact Heq.
    + exfalso. apply (H2 (String.length L)); [lia|exact Hgt|exact Hocc].
  - exfalso. apply (index_correct3 0 (String.length L) sep _ Hi Hne); [lia|exact Hocc].
Qed.

Lemma Index_cuts (s sep : string) (m : nat) :
  sep <> "" -> Index s sep = Some m ->
  s = substring 0 m s +:+ sep
      +:+ substring (m + String.length sep)
                    (String.length s - (m + String.length sep)) s.
Proof.
  intros Hne Hi. pose proof (index_correct1 _ _ _ _ Hi) as H1.
  assert (Hle : (m + String.length sep <= String.length s)%nat).
  { pose proof (substring_length_le s m (String.length sep)) as Hl.
    rewrite H1 in Hl. destruct sep; [congruence|]. simpl in *. lia. }
  rewrite <- H1 at 1. apply substring_split3. exact Hle.
Qed.

Lemma digit_of_some (c : ascii) (d : Z) :
  digit_of c = Some d -> byte_between "0" "9" c = true /\ 0 <= d.
Proof.
  unfold digit_of. destruct (byte_between "0" "9" c) eqn:Hb; [|discriminate].
  intros H. injection H as <-. split; [reflexivity|].
  unfold byte_between in Hb. apply andb_true_iff in Hb as [Hlo _].
  apply N.leb_le in Hlo. change (N_of_ascii "0") with 48%N in Hlo. lia.
Qed.

Lemma parse_digits_some (s : string) :
  forall acc n, 0 <= acc -> parse_digits acc s = Some n ->
                all_digits s = true /\ 0 <= n.
Proof.
  induction s as [|c s IH]; intros acc n Hacc H; simpl in H.
  - injection H as <-. auto.
  - destruct (digit_of c) as [d|] eqn:Hd; [|discriminate].
    destruct (digit_of_some c d Hd) as [Hc Hd0].
    destruct (IH (acc * 10 + d) n) as [Hs Hn]; [lia|exact H|].
    simpl. rewrite Hc, Hs. auto.
Qed.

Lemma ParseUint10_some (body : string) (un : Z) :
  ParseUint10 body = Some un ->
  negb (String.eqb body "") && all_digits body = true /\ 0 <= un.
Proof.
  destruct body as [|c rest]; [discriminate|]. unfold ParseUint10. intros H.
  destruct (parse_digits_some (String c rest) 0 un) as [Hd Hn]; [lia|exact H|].
  rewrite Hd. auto.
Qed.

(** What [strconv.ParseInt(s, 10, 64)] accepts is a signed decimal
    number, and what it returns fits 64 bits. *)
Lemma ParseInt10_64_some (s : string) (n : Z) :
  ParseInt10_64 s = Some n ->
  signed_decimal s = true /\ - 2 ^ 63 <= n < 2 ^ 63.
Proof.
  destruct s as [|c rest]; [discriminate|]. unfold ParseInt10_64, signed_decimal.
  destruct (Ascii.eqb c "+") eqn:Hplus; [|destruct (Ascii.eqb c "-") eqn:Hminus];
    cbv beta iota zeta;
    match goal with
    | |- match ParseUint10 ?b with _ => _ end = _ -> _ =>
        destruct (ParseUint10 b) as [un|] eqn:Hu; [|discriminate];
        destruct (ParseUint10_some b un Hu) as [Hfmt Hun]
    end;
    simpl negb; simpl andb; simpl orb.
  - destruct (2 ^ 63 <=? un) eqn:Hc; [discriminate|]. apply Z.leb_gt in Hc.
    intros H. injection H as <-. split; [exact Hfmt|lia].
  - destruct (2 ^ 63 <? un) eqn:Hc; [discriminate|]. apply Z.ltb_ge in Hc.
    intros H. injection H as <-. split; [exact Hfmt|lia].
  - destruct (2 ^ 63 <=? un) eqn:Hc; [discriminate|]. apply Z.leb_gt in Hc.
    intros H. injection H as <-. split; [exact Hfmt|lia].
Qed.

(** X17: [checkLogicalName] returns only for a record whose type name
    is the logical name, then ["_migration"], then a signed decimal
    number that fits 64 bits; [Save] therefore reaches the database with
    no other record. *)
Theorem checkLogicalName_sound (logical : string) (i : iface) :
  checkLogicalName logical i = Normal tt ->
  exists pr number n,
    structPair i = Normal pr /\
    name pr = logical +:+ "_migration" +:+ number /\
    signed_decimal number = true /\
    ParseInt10_64 number = Some n /\ - 2 ^ 63 <= n < 2 ^ 63.
Proof.
  unfold checkLogicalName. destruct (structPair i) as [pr|x]; [|discriminate].
  unfold SplitN2. destruct (Index (name pr) "_migration") as [m|] eqn:Hi.
  - destruct (String.eqb (substring 0 m (name pr)) logical) eqn:He; [|discriminate].
    simpl negb. cbv iota.
    match goal with
    | |- match ParseInt10_64 ?r with _ => _ end = _ -> _ =>
        destruct (ParseInt10_64 r) as [n|] eqn:Hp; [|discriminate]; intros _;
        exists pr, r, n
    end.
    apply String.eqb_eq in He.
    destruct (ParseInt10_64_some _ _ Hp) as [Hfmt Hrange].
    split; [reflexivity|]. split; [|auto].
    rewrite <- He. apply Index_cuts; [discriminate|exact Hi].
  - destruct (String.eqb (name pr) logical); discriminate.
Qed.

Lemma checkLogicalName_sound_witness :
  checkLogicalName "Article" (Some Example.Article_migration2) = Normal tt /\
  exists pr number n,
    structPair (Some Example.Article_migration2) = Normal pr /\
    name pr = "Article" +:+ "_migration" +:+ number /\
    signed_decimal number = true /\
    ParseInt10_64 number = Some n /\ - 2 ^ 63 <= n < 2 ^ 63.
Proof.
  split; [reflexivity|]. apply checkLogicalName_sound. reflexivity.
Defined.

Lemma migration_separator_border (j : nat) :
  (0 < j < String.length "_migration")%nat -> get j "_migration" <> Some "_"%char.
Proof.
  intros [Hlo Hhi]. simpl in Hhi.
  do 10 (destruct j as [|j]; [first [lia|discriminate]|]). lia.
Qed.

(** X18: and it returns for every such record, provided the logical
    name does not itself hold ["_migration"]: the name is cut at the first
    ["_migration"], so a logical name that holds one can never pass. *)
Theorem checkLogicalName_complete
        (logical : string) (i : iface) (pr : nameStructPair) (number : string) (n : Z) :
  structPair i = Normal pr ->
  name pr = logical +:+ "_migration" +:+ number ->
  ParseInt10_64 number = Some n ->
  (Contains logical "_migration" = false -> checkLogicalName logical i = Normal tt) /\
  (Contains logical "_migration" = true ->
   exists x, checkLogicalName logical i = Panicked x).
Proof.
  intros Hp Hname Hnum. split.
  - intros Hno. unfold checkLogicalName. rewrite Hp, Hname. unfold SplitN2.
    rewrite (Index_after_prefix logical "_migration" number "_" "migration" eq_refl
               migration_separator_border Hno).
    rewrite substring_take_prefix, String.eqb_refl. simpl negb. cbv iota.
    rewrite substring_skip_more, substring_skip_prefix, !length_append.
    replace (String.length logical
             + (String.length "_migration" + String.length number)
             - (String.length logical + String.length "_migration"))%nat
      with (String.length number) by lia.
    rewrite substring_all, Hnum. reflexivity.
  - intros Hyes. unfold Contains in Hyes.
    destruct (Index logical "_migration") as [m|] eqn:Hi; [|discriminate].
    assert (Hm : (m + String.length "_migration" <= String.length logical)%nat).
    { pose proof (substring_length_le logical m (String.length "_migration")) as Hl.
      rewrite (index_correct1 _ _ _ _ Hi) in Hl. simpl in *. lia. }
    unfold checkLogicalName. rewrite Hp. unfold SplitN2.
    destruct (Index (name pr) "_migration") as [k|] eqn:Hk.
    + destruct (String.eqb (substring 0 k (name pr)) logical) eqn:He; [|simpl; eauto].
      exfalso. apply String.eqb_eq in He.
      assert (Hlen : (k = String.length logical)%nat).
      { rewrite <- He at 1. pose proof (index_correct1 _ _ _ _ Hk) as H1.
        pose proof (substring_length_le (name pr) k (String.length "_migration")) as Hl.
        rewrite H1 in Hl. simpl in Hl.
        clear - Hl. revert k Hl. generalize (name pr). intros s.
        induction s as [|c s IH]; intros k Hl; simpl in Hl; [lia|].
        destruct k as [|k]; [reflexivity|]. simpl. f_equal. apply IH. lia. }
      simpl in Hm. apply (index_correct2 _ _ _ _ Hk m); [lia|lia|].
      rewrite Hname, substring_in_prefix by exact Hm.
      exact (index_correct1 _ _ _ _ Hi).
    + destruct (String.eqb (name pr) logical); simpl; eauto.
Qed.

Lemma checkLogicalName_complete_witness :
  (structPair (Some Example.Article_migration1)
   = Normal (mkPair "Article_migration1" Example.Article_migration1) /\
   name (mkPair "Article_migration1" Example.Article_migration1)
   = "Article" +:+ "_migration" +:+ "1" /\
   ParseInt10_64 "1" = Some 1) /\
  (Contains "Article" "_migration" = false ->
   checkLogicalName "Article" (Some Example.Article_migration1) = Normal tt) /\
  (Contains "Article" "_migration" = true ->
   exists x, checkLogicalName "Article" (Some Example.Article_migration1) = Panicked x).
Proof.
  split; [repeat split|].
  apply (checkLogicalName_complete "Article" (Some Example.Article_migration1)
           (mkPair "Article_migration1" Example.Article_migration1) "1" 1);
    reflexivity.
Defined.

(** ** The column changes of [createTableBase] *)

Lemma old_fields_count (fields : list Model.ModelField) :
  forall columns : gmap string bool,
    NoDup (map Model.Name fields) ->
    (length (List.filter (Model.in_table columns) fields) <= size columns)%nat /\
    (length (List.filter (Model.in_table columns) fields) = size columns <->
     forall c, is_Some (columns !! c) -> In c (map Model.Name fields)).
Proof.
  induction fields as [|v rest IH]; intros columns Hnd.
  - simpl. split; [lia|]. split.
    + intros H c Hc. symmetry in H. apply map_size_empty_inv in H. subst columns.
      rewrite lookup_empty in Hc. destruct Hc as [? Hc]. discriminate.
    + intros H. symmetry. apply map_size_empty_iff. apply map_empty. intros c.
      apply eq_None_not_Some. intros Hc. exact (H c Hc).
  - simpl in Hnd. apply NoDup_cons in Hnd as [Hv Hrest].
    rewrite list_elem_of_In in Hv.
    simpl.
    destruct (columns !! Model.Name v) as [b|] eqn:Hcol.
    + assert (Hin : Model.in_table columns v = true)
        by (unfold Model.in_table; rewrite Hcol; reflexivity).
      rewrite Hin.
      set (columns' := delete (Model.Name v) columns).
      assert (Hsize : size columns = S (size columns')).
      { unfold columns'. rewrite map_size_delete_Some by eauto.
        assert (size columns <> 0%nat); [|lia].
        intros H0. apply map_size_empty_inv in H0. subst columns.
        rewrite lookup_empty in Hcol. discriminate. }
      assert (Hsame : List.filter (Model.in_table columns) rest
                      = List.filter (Model.in_table columns') rest).
      { apply List.filter_ext_in. intros a Ha. unfold Model.in_table, columns'.
        rewrite lookup_delete_ne; [reflexivity|].
        intros Heq. apply Hv. rewrite Heq. apply in_map. exact Ha. }
      destruct (IH columns' Hrest) as [Hle Hiff]. rewrite Hsame. simpl.
      split; [lia|]. split.
      * intros H c Hc. destruct (decide (c = Model.Name v)) as [->|Hne]; [left; reflexivity|].
        right. refine (proj1 Hiff _ c _); [lia|]. unfold columns'.
        rewrite lookup_delete_ne by congruence. exact Hc.
      * intros H. assert (Hlen : length (List.filter (Model.in_table columns') rest)
                                 = size columns'); [|lia].
        apply Hiff. intros c Hc. unfold columns' in Hc.
        destruct (decide (c = Model.Name v)) as [->|Hne].
        -- rewrite lookup_delete_eq in Hc. destruct Hc as [? Hc]. discriminate.
        -- rewrite lookup_delete_ne in Hc by congruence.
           destruct (H c Hc) as [Heq|Hcin]; [congruence|exact Hcin].
    + assert (Hin : Model.in_table columns v = false)
        by (unfold Model.in_table; rewrite Hcol; reflexivity).
      rewrite Hin.
      destruct (IH columns Hrest) as [Hle Hiff]. split; [exact Hle|]. split.
      * intros H c Hc. right. exact (proj1 Hiff H c Hc).
      * intros H. apply Hiff. intros c Hc.
        destruct (H c Hc) as [Heq|Hcin]; [|exact Hcin].
        subst c. rewrite Hcol in Hc. destruct Hc as [? Hc]. discriminate.
Qed.

Lemma filter_lengths {A} (f : A -> bool) (l : list A) :
  (length (List.filter f l) + length (List.filter (fun x => negb (f x)) l)
   = length l)%nat.
Proof.
  induction l as [|x l IH]; simpl; [reflexivity|].
  destruct (f x); simpl; lia.
Qed.

(** X19: when the model has more fields than the table has columns
    (and no two fields share a column name), the column block of
    [createTableBase] adds columns only if every column of the table is
    still the column of a field; it then adds exactly the fields that have
    no column yet, in the order of the model, which brings the table to
    one column per field. *)
Theorem columnMods_adds_missing_columns
        (fields : list Model.ModelField) (columns : gmap string bool)
        (added : list Model.ModelField) :
  NoDup (map Model.Name fields) ->
  (size columns < length fields)%nat ->
  Model.columnMods fields columns = Normal added ->
  (forall c, is_Some (columns !! c) -> In c (map Model.Name fields)) /\
  added = List.filter (fun v => negb (Model.in_table columns v)) fields /\
  (forall v, In v added <-> In v fields /\ columns !! Model.Name v = None) /\
  (size columns + length added = length fields)%nat.
Proof.
  intros Hnd Hlt Hrun. unfold Model.columnMods in Hrun.
  apply Nat.ltb_lt in Hlt as Hb. rewrite Hb, partition_as_filter in Hrun.
  destruct (old_fields_count fields columns Hnd) as [_ Hiff].
  destruct (length (List.filter (Model.in_table columns) fields) =? size columns)%nat
    eqn:Heq; [|discriminate].
  apply Nat.eqb_eq in Heq. simpl in Hrun. injection Hrun as <-.
  split; [apply Hiff; exact Heq|]. split; [reflexivity|]. split.
  - intros v. rewrite List.filter_In. unfold Model.in_table.
    destruct (columns !! Model.Name v); simpl; intuition congruence.
  - pose proof (filter_lengths (Model.in_table columns) fields). lia.
Qed.

Lemma columnMods_adds_missing_columns_witness :
  let fields := [Model.set_pk (Model.mkModelField "id" "Id" false false false false
                                                   false false 0 "" "" "");
                 Model.mkModelField "author" "Author" false false false false
                                    false false 127 "" "" "";
                 Model.mkModelField "content" "Content" false false false false
                                    false false 255 "" "" ""] in
  let columns : gmap string bool := <["id" := true]> (<["author" := true]> ∅) in
  (NoDup (map Model.Name fields) /\
   (size columns < length fields)%nat /\
   Model.columnMods fields columns
   = Normal [Model.mkModelField "content" "Content" false false false false
                                false false 255 "" "" ""]) /\
  (size columns + 1 = length fields)%nat.
Proof.
  intros fields columns.
  assert (Hnd : NoDup (map Model.Name fields)).
  { subst fields. simpl. repeat constructor; rewrite list_elem_of_In; simpl;
      intuition discriminate. }
  assert (Hlt : (size columns < length fields)%nat) by (vm_compute; lia).
  assert (Hrun : Model.columnMods fields columns
                 = Normal [Model.mkModelField "content" "Content" false false false
                                              false false false 255 "" "" ""])
    by (vm_compute; reflexivity).
  split; [auto|].
  exact (proj2 (proj2 (proj2 (columnMods_adds_missing_columns
                                fields columns _ Hnd Hlt Hrun)))).
Defined.

(** X20: when no two fields of the model share a column name, the
    block panics exactly when the model has more fields than the table
    has columns and some column of the table is no longer the column of a
    field; and a model with no more fields than the table has columns is
    not looked at: nothing is added and nothing panics, even when a field
    has no column. *)
Theorem columnMods_panics_iff
        (fields : list Model.ModelField) (columns : gmap string bool) :
  NoDup (map Model.Name fields) ->
  ((exists x, Model.columnMods fields columns = Panicked x) <->
   (size columns < length fields)%nat /\
   ~ (forall c, is_Some (columns !! c) -> In c (map Model.Name fields))) /\
  ((length fields <= size columns)%nat -> Model.columnMods fields columns = Normal []).
Proof.
  intros Hnd. destruct (old_fields_count fields columns Hnd) as [_ Hiff].
  unfold Model.columnMods. rewrite partition_as_filter.
  destruct (size columns <? length fields)%nat eqn:Hb.
  - apply Nat.ltb_lt in Hb. split; [|lia].
    destruct (length (List.filter (Model.in_table columns) fields) =? size columns)%nat
      eqn:Heq; simpl.
    + apply Nat.eqb_eq in Heq. split.
      * intros [x Hx]. discriminate.
      * intros [_ Hnot]. exfalso. apply Hnot. apply Hiff. exact Heq.
    + apply Nat.eqb_neq in Heq. split.
      * intros _. split; [exact Hb|]. intros Hall. apply Heq. apply Hiff. exact Hall.
      * intros _. eauto.
  - apply Nat.ltb_ge in Hb. split; [|reflexivity]. split.
    + intros [x Hx]. discriminate.
    + intros [Hlt _]. lia.
Qed.

Lemma columnMods_panics_iff_witness :
  let fields := [Model.mkModelField "id" "Id" true false false false false false 0 "" "" "";
                 Model.mkModelField "body" "Body" false false false false
                                    false false 0 "" "" ""] in
  let columns : gmap string bool := <["id" := true]> (<["content" := true]> ∅) in
  NoDup (map Model.Name fields) /\
  Model.columnMods fields columns = Normal [].
Proof.
  intros fields columns.
  assert (Hnd : NoDup (map Model.Name fields)).
  { subst fields. simpl. repeat constructor; rewrite list_elem_of_In; simpl;
      intuition discriminate. }
  split; [exact Hnd|].
  apply (proj2 (columnMods_panics_iff fields columns Hnd)). vm_compute. lia.
Defined.

(** ** [parseTags] *)

Lemma Split1_not_nil (sep : ascii) (s : string) : Model.Split1 sep s <> [].
Proof.
  induction s as [|c s IH]; simpl; [discriminate|].
  destruct (Ascii.eqb c sep); [discriminate|].
  destruct (Model.Split1 sep s); [congruence|discriminate].
Qed.

Lemma Split1_lacks (sep : ascii) (s : string) :
  Model.lacks sep s = true -> Model.Split1 sep s = [s].
Proof.
  induction s as [|c s IH]; intros H; [reflexivity|].
  simpl in H. apply andb_true_iff in H as [Hc Hs]. apply negb_true_iff in Hc.
  simpl. rewrite Hc, (IH Hs). reflexivity.
Qed.

Lemma Split1_cut (sep : ascii) (k r : string) :
  Model.lacks sep k = true ->
  Model.Split1 sep (k +:+ String sep r) = k :: Model.Split1 sep r.
Proof.
  induction k as [|c k IH]; intros H.
  - simpl. rewrite Ascii.eqb_refl. reflexivity.
  - simpl in H. apply andb_true_iff in H as [Hc Hk]. apply negb_true_iff in Hc.
    simpl. rewrite Hc, (IH Hk). reflexivity.
Qed.

Lemma Split1_two_or_more (sep : ascii) (a b : string) :
  exists x y more, Model.Split1 sep (a +:+ String sep b) = x :: y :: more.
Proof.
  induction a as [|c a (x & y & more & IH)]; simpl.
  - rewrite Ascii.eqb_refl. destruct (Model.Split1 sep b) as [|y more] eqn:Hb.
    + exfalso. exact (Split1_not_nil sep b Hb).
    + eauto.
  - rewrite IH. destruct (Ascii.eqb c sep); eauto.
Qed.

Lemma lacks_append (sep : ascii) (a b : string) :
  Model.lacks sep (a +:+ b) = Model.lacks sep a && Model.lacks sep b.
Proof.
  induction a as [|c a IH]; simpl; [reflexivity|].
  rewrite IH, andb_assoc. reflexivity.
Qed.

Lemma keeps_flags_refl (fd : Model.ModelField) : Model.keeps_flags fd fd.
Proof. unfold Model.keeps_flags. tauto. Qed.

Lemma keeps_flags_trans (a b c : Model.ModelField) :
  Model.keeps_flags a b -> Model.keeps_flags b c -> Model.keeps_flags a c.
Proof.
  unfold Model.keeps_flags.
  intros (N1 & C1 & F1 & F2 & F3 & F4 & F5 & F6) (N2 & C2 & G1 & G2 & G3 & G4 & G5 & G6).
  repeat split; try congruence; auto.
Qed.

Lemma parseTag_result (fd : Model.ModelField) (v : string) :
  parse_result fd (Model.parseTag fd v).
Proof.
  unfold Model.parseTag.
  destruct (Model.Split1 ":" v) as [|key [|val [|x more]]] eqn:Hs.
  - exfalso. exact (Split1_not_nil _ _ Hs).
  - repeat match goal with
           | |- context [if String.eqb ?a ?b then _ else _] => destruct (String.eqb a b)
           end;
      (split; [unfold Model.keeps_flags; simpl; tauto|simpl; eauto]).
  - repeat match goal with
           | |- context [if String.eqb ?a ?b then _ else _] => destruct (String.eqb a b)
           end;
      (split; [unfold Model.keeps_flags; simpl; tauto|simpl; eauto]).
  - repeat match goal with
           | |- context [if String.eqb ?a ?b then _ else _] => destruct (String.eqb a b)
           end;
      (split; [unfold Model.keeps_flags; simpl; tauto|simpl; eauto]).
Qed.

Lemma parseEach_result (c : list string) :
  forall fd, parse_result fd (Model.parseEach fd c).
Proof.
  induction c as [|v rest IH]; intros fd; simpl.
  - split; [apply keeps_flags_refl|left; reflexivity].
  - destruct (parseTag_result fd v) as [Hk Ho].
    destruct (Model.parseTag fd v) as [fd' [[]|x]]; simpl in *.
    + destruct (IH fd') as [Hk' Ho']. split; [|exact Ho'].
      exact (keeps_flags_trans _ _ _ Hk Hk').
    + split; [exact Hk|exact Ho].
Qed.

(** X21: [parseTags] only ever sets flags: no flag of the field is
    cleared and its names are not touched, whatever the tag.  It ends in
    one of two ways: it returns, or it panics with
    ["<key> tag syntax error"]; reading the key of an element never fails,
    since splitting never gives an empty list. *)
Theorem parseTags_only_sets (fd : Model.ModelField) (s : string) :
  Model.keeps_flags fd (fst (Model.parseTags fd s)) /\
  (snd (Model.parseTags fd s) = Normal tt \/
   exists key, snd (Model.parseTags fd s) = Panicked (Model.tag_syntax_error key)).
Proof.
  unfold Model.parseTags. destruct (String.eqb s "").
  - split; [apply keeps_flags_refl|left; reflexivity].
  - apply parseEach_result.
Qed.

(** X22: a value that holds a colon cannot be given to [fk], [size],
    [default] or [join]: the element splits into more than two pieces, is
    read as a flag, and [parseTags] panics with the key in the message,
    the field as it was. *)
Theorem parseTags_value_with_colon
        (fd : Model.ModelField) (key a b : string) :
  In key Model.valued_keys ->
  Model.lacks "," a = true -> Model.lacks "," b = true ->
  Model.parseTags fd (key +:+ ":" +:+ a +:+ ":" +:+ b)
  = (fd, Panicked (Model.tag_syntax_error key)).
Proof.
  intros Hkey Ha Hb.
  assert (Hcomma : Model.lacks "," (":" +:+ a +:+ ":" +:+ b) = true).
  { rewrite !lacks_append, Ha, Hb. reflexivity. }
  destruct (Split1_two_or_more ":" a b) as (x & y & more & Hsplit).
  assert (Hrun : forall k,
             Model.lacks "," k = true -> Model.lacks ":" k = true ->
             k <> "" ->
             String.eqb k "created" = false -> String.eqb k "pk" = false ->
             String.eqb k "updated" = false -> String.eqb k "index" = false ->
             String.eqb k "unique" = false -> String.eqb k "notnull" = false ->
             Model.parseTags fd (k +:+ ":" +:+ a +:+ ":" +:+ b)
             = (fd, Panicked (Model.tag_syntax_error k))).
  { intros k Hk1 Hk2 Hne E1 E2 E3 E4 E5 E6. unfold Model.parseTags.
    assert (Hnot : String.eqb (k +:+ ":" +:+ a +:+ ":" +:+ b) "" = false).
    { destruct k; [congruence|reflexivity]. }
    rewrite Hnot, Split1_lacks by (rewrite lacks_append, Hk1, Hcomma; reflexivity).
    simpl Model.parseEach. unfold Model.parseTag.
    change (k +:+ ":" +:+ a +:+ ":" +:+ b)
      with (k +:+ String ":" (a +:+ String ":" b)).
    rewrite (Split1_cut ":" k _ Hk2), Hsplit, E1, E2, E3, E4, E5, E6. reflexivity. }
  unfold Model.valued_keys in Hkey. simpl in Hkey.
  destruct Hkey as [<-|[<-|[<-|[<-|[]]]]]; apply Hrun; first [reflexivity|discriminate].
Qed.

Lemma parseTags_value_with_colon_witness :
  (In "default" Model.valued_keys /\
   Model.lacks "," "12" = true /\ Model.lacks "," "30" = true) /\
  Model.parseTags Model.new_ModelField ("default" +:+ ":" +:+ "12" +:+ ":" +:+ "30")
  = (Model.new_ModelField, Panicked (Model.tag_syntax_error "default")).
Proof.
  split; [split; [right; right; left; reflexivity|split; reflexivity]|].
  apply parseTags_value_with_colon;
    [right; right; left; reflexivity|reflexivity|reflexivity].
Defined.

(** ** The rename phase of the earlier version *)

Lemma range_err_events {A} (I : World -> Prop) (ev : A -> event -> Prop)
      (body : A -> M (option error)) (xs : list A) :
  (forall x w w' o, In x xs -> I w -> body x w = (w', o) ->
     I w' /\ exists tl, trace w' = trace w ++ tl /\ Forall (ev x) tl) ->
  forall w w' o, I w -> range_err body xs w = (w', o) ->
     I w' /\ exists tl, trace w' = trace w ++ tl /\
                        Forall (fun e => exists x, In x xs /\ ev x e) tl.
Proof.
  induction xs as [|x rest IH]; intros Hbody w w' o Hw Hrun.
  - simpl in Hrun. inversion Hrun; subst. split; [exact Hw|].
    exists []. rewrite app_nil_r. split; [reflexivity|constructor].
  - simpl in Hrun. unfold bind in Hrun.
    destruct (body x w) as [w1 o1] eqn:Hb.
    destruct (Hbody x w w1 o1 (or_introl eq_refl) Hw Hb) as [Hw1 (tl1 & Ht1 & Hall1)].
    assert (Hall1' : Forall (fun e => exists y, In y (x :: rest) /\ ev y e) tl1).
    { eapply Forall_impl; [exact Hall1|]. intros e He.
      exists x. split; [left; reflexivity|exact He]. }
    destruct o1 as [[err|]|px].
    + inversion Hrun; subst. split; [exact Hw1|]. exists tl1. auto.
    + assert (Hrest : forall y w0 w0' o0, In y rest -> I w0 -> body y w0 = (w0', o0) ->
                 I w0' /\ exists tl, trace w0' = trace w0 ++ tl /\ Forall (ev y) tl).
      { intros y w0 w0' o0 Hy. apply Hbody. right. exact Hy. }
      destruct (IH Hrest w1 w' o Hw1 Hrun) as [Hw' (tl2 & Ht2 & Hall2)].
      split; [exact Hw'|]. exists (tl1 ++ tl2). split.
      * rewrite Ht2, Ht1, app_assoc. reflexivity.
      * apply Forall_app. split; [exact Hall1'|].
        eapply Forall_impl; [exact Hall2|]. intros e (y & Hy & He).
        exists y. split; [right; exact Hy|exact He].
    + inversion Hrun; subst. split; [exact Hw1|]. exists tl1. auto.
Qed.

(** X23: in the earlier version of the file the rename phase leaves
    the table of a pure drop alone.  Every call it makes is the rename of
    the table of a logical name that is registered in [prev] and in
    [curr], to the name of its old shape, or the creation of the table of
    a shape in [curr]; it drops nothing, and the registry is as before. *)
Theorem earlier_rename_phase_spares_pure_drops
        (drv : World -> call -> response) (StructNameToTableName : string -> string)
        (reverse : bool) (w w1 : World) (o : outcome (option error)) :
  renameCurrentTablesAddColumns_earlier drv StructNameToTableName reverse w = (w1, o) ->
  exists tl,
    trace w1 = trace w ++ tl /\
    Forall (earlier_phase_event StructNameToTableName w) tl /\
    s_prev w1 = s_prev w /\ s_curr w1 = s_curr w.
Proof.
  intros Hrun. unfold renameCurrentTablesAddColumns_earlier in Hrun.
  unfold bind at 1 in Hrun. unfold read at 1 in Hrun.
  unfold bind at 1 in Hrun.
  set (pv := s_prev w) in *. set (cu := s_curr w) in *.
  match type of Hrun with
  | (let (_, _) := range_err ?b ?xs w in _) = _ =>
      destruct (range_err b xs w) as [wa oa] eqn:H1;
      apply (range_err_events (registry_is pv cu)
               (fun x e => is_Some (cu !! fst x) /\
                           rename_event (StructNameToTableName (fst x))
                                        (StructNameToTableName (name (snd x))) e))
        in H1 as [[Hpa Hca] (tl1 & Ht1 & Hall1)];
      [| | split; reflexivity ]
  end.
  2:{ intros [l p] w0 w0' o0 _ Hw0 Hb. unfold bind, read in Hb.
      destruct Hw0 as [Hp0 Hc0]. rewrite Hc0 in Hb.
      destruct (cu !! l) as [c|] eqn:Hl.
      - apply (RenameTable_body drv (registry_is pv cu)
                 (registry_is_emit pv cu)
                 (fun (_ : unit) e =>
                    rename_event (StructNameToTableName l)
                                 (StructNameToTableName (name p)) e) tt)
          in Hb as [Hreg (tl & Ht & Hall & _)]; [|auto|split; assumption].
        split; [exact Hreg|]. exists tl. split; [exact Ht|].
        eapply Forall_impl; [exact Hall|]. intros e (_ & _ & He). simpl.
        rewrite Hl. split; [eauto|exact He].
      - unfold ret in Hb. inversion Hb; subst. split; [split; assumption|].
        exists []. rewrite app_nil_r. split; [reflexivity|constructor]. }
  assert (Hall1' : Forall (earlier_phase_event StructNameToTableName w) tl1).
  { eapply Forall_impl; [exact Hall1|]. intros e ([l p] & Hin & Hsome & He).
    left. exists l, p. split; [apply in_map_to_list; exact Hin|auto]. }
  destruct oa as [[err|]|px].
  - inversion Hrun; subst. exists tl1. auto.
  - unfold bind at 1 in Hrun. unfold read at 1 in Hrun. rewrite Hca in Hrun.
    match type of Hrun with
    | range_err ?b ?xs wa = _ =>
        apply (range_err_events (registry_is pv cu)
                 (fun x e => exists in_tx t omit F C r,
                      e = Called (ExecCreateTable in_tx t (typeRep (snd x)) omit) F C r))
          in Hrun as [[Hp1 Hc1] (tl2 & Ht2 & Hall2)];
        [| | split; assumption ]
    end.
    2:{ intros [l c] w0 w0' o0 _ Hw0 Hb. unfold bind at 1 in Hb. unfold lift in Hb.
        destruct (fieldsWithSuffix (typeRep c) "_old") as [omit|px];
          [|inversion Hb; subst; split; [exact Hw0|];
            exists []; rewrite app_nil_r; split; [reflexivity|constructor]].
        apply CreateTable_cases in Hb as [[-> _]|(t & r & _ & ->)].
        - split; [exact Hw0|]. exists []. rewrite app_nil_r.
          split; [reflexivity|constructor].
        - split; [exact Hw0|]. eexists [_]. split; [reflexivity|].
          constructor; [|constructor]. simpl. eauto 10. }
    exists (tl1 ++ tl2). split; [rewrite Ht2, Ht1, app_assoc; reflexivity|].
    split; [|auto]. apply Forall_app. split; [exact Hall1'|].
    eapply Forall_impl; [exact Hall2|].
    intros e ([l c] & Hin & in_tx & t & omit & F & C & r & He).
    right. exists l, c, in_tx, t, omit, F, C, r.
    split; [apply in_map_to_list; exact Hin|exact He].
  - inversion Hrun; subst. exists tl1. auto.
Qed.

Lemma earlier_rename_phase_spares_pure_drops_witness :
  let run := renameCurrentTablesAddColumns_earlier Example.healthy toSnake false
               Example.pure_drop in
  run = (fst run, snd run) /\
  exists tl,
    trace (fst run) = trace Example.pure_drop ++ tl /\
    Forall (earlier_phase_event toSnake Example.pure_drop) tl /\
    s_prev (fst run) = s_prev Example.pure_drop /\
    s_curr (fst run) = s_curr Example.pure_drop.
Proof.
  intros run. split; [apply surjective_pairing|].
  apply (earlier_rename_phase_spares_pure_drops Example.healthy toSnake false
           Example.pure_drop (fst run) (snd run)).
  apply surjective_pairing.
Defined.

(** ** [FindAll] and the registry *)

(** X24: [FindAll] looks the logical name up in [prev] only.  For a
    name that is not there (not registered at all, or registered in
    [curr] only, as the new table of a forward step is) it panics with a
    nil dereference before it sets the trap or asks the database; for a
    name that is there, the rows it returns are typed by the shape in
    [prev], whatever [curr] holds. *)
Theorem FindAll_reads_prev_only
        (drv : World -> call -> response) (l : string) (w : World) :
  s_m w = true -> mg_tx w = true ->
  (s_prev w !! l = None -> FindAll drv l w = (w, Panicked nil_dereference)) /\
  (forall pr w' raw,
      s_prev w !! l = Some pr ->
      FindAll drv l w = (w', Normal (Some raw, None)) ->
      exists rows, raw = VPtr (VSlice (type_of (typeRep pr)) rows)).
Proof.
  intros Hm Htx. split.
  - intros Hno. unfold FindAll, GetQbsSameTransaction, bind, deref_m, read, panic.
    rewrite Hm. simpl. rewrite Htx. simpl. rewrite Hno. reflexivity.
  - intros pr w' raw Hpr. unfold FindAll. unfold bind at 1.
    assert (Hq : GetQbsSameTransaction w = (w, Normal tt)).
    { unfold GetQbsSameTransaction, bind, deref_m, read, ret.
      rewrite Hm. simpl. rewrite Htx. reflexivity. }
    rewrite Hq. unfold bind at 1. unfold read at 1. rewrite Hpr.
    match goal with
    | |- ?c w = _ -> _ =>
        assert (Hrest : triple (fun _ => True) c
                  (fun res _ => forall raw0, res = (Some raw0, None) ->
                     exists rows, raw0 = VPtr (VSlice (type_of (typeRep pr)) rows))
                  (fun _ _ => True))
    end.
    { eapply triple_bind; [apply triple_any|intros ?; cbv beta].
      eapply triple_bind; [apply triple_any|intros omit; cbv beta].
      eapply triple_bind; [apply triple_any|intros [id rows|err|x]; cbv beta].
      - eapply triple_bind; [apply triple_any|intros ?; cbv beta].
        intros w0 _. simpl. intros raw0 H. inversion H. eauto.
      - eapply triple_bind; [apply triple_any|intros ?; cbv beta].
        eapply triple_bind; [apply triple_any|intros ?; cbv beta].
        intros w0 _. simpl. intros raw0 H. discriminate.
      - intros w0 _. exact I. }
    intros Hrun. specialize (Hrest w I). rewrite Hrun in Hrest.
    exact (Hrest raw eq_refl).
Qed.

Lemma FindAll_reads_prev_only_witness :
  (s_m new_table = true /\ mg_tx new_table = true) /\
  (s_prev new_table !! "Article" = None ->
   FindAll Example.healthy "Article" new_table = (new_table, Panicked nil_dereference)) /\
  (forall pr w' raw,
      s_prev new_table !! "Article" = Some pr ->
      FindAll Example.healthy "Article" new_table = (w', Normal (Some raw, None)) ->
      exists rows, raw = VPtr (VSlice (type_of (typeRep pr)) rows)).
Proof.
  split; [split; reflexivity|].
  apply FindAll_reads_prev_only; reflexivity.
Defined.

(** ** The commit, asked for and accepted *)

Lemma accepted_app (n : nat) (tr : list event) (e : event) :
  count commit_done tr = n -> commit_done e = false ->
  count commit_done (tr ++ [e]) = n.
Proof. intros Hn He. rewrite count_snoc, He. lia. Qed.

Lemma other_calls_not_accepted (c : call) (F C : namefn) (r : response) :
  c <> TxCommit -> commit_done (Called c F C r) = false.
Proof. destruct c; simpl; congruence. Qed.

Lemma Commit_accepted (drv : World -> call -> response) (n : nat) (w : World) :
  count commit_done (trace w) = n ->
  match Commit drv w with
  | (w', Normal _) => count commit_done (trace w') = S n
  | (w', Panicked _) => count commit_done (trace w') = n
  end.
Proof.
  intros Hn. unfold Commit, bind, deref_m, read, ask, update, panic.
  destruct (s_m w); simpl; [|exact Hn].
  destruct (mg_tx w); simpl; [|exact Hn].
  destruct (drv w TxCommit); simpl; rewrite count_snoc; simpl; lia.
Qed.

(** The database accepts a commit of [Run] exactly when [Run] returns nil
    for a range that is not empty. *)
Lemma Run_commit_accepted
      (drv : World -> call -> response) (StructNameToTableName : string -> string)
      (info : list ReversibleMigration) (from to : Z) (w w' : World)
      (o : outcome (option error)) :
  Run drv StructNameToTableName info from to w = (w', o) ->
  count commit_done (trace w')
  = (count commit_done (trace w)
     + match o with
       | Normal None => if (from =? to)%Z then 0 else 1
       | _ => 0
       end)%nat.
Proof.
  set (n := count commit_done (trace w)).
  assert (Hw : on_trace (fun tr => count commit_done tr = n) w) by reflexivity.
  assert (Hrec : forall x w1 w2 o2,
             count commit_done (trace w1) = n ->
             recovered drv x w1 = (w2, o2) ->
             count commit_done (trace w2) = n /\ o2 <> Normal None).
  { intros x w1 w2 o2 H1 Hr. split.
    - pose proof (keeps_run _ _ w1
                    (recovered_on_trace drv (fun e => commit_done e = false) _
                       (accepted_app n) other_calls_not_accepted
                       (fun _ => eq_refl) eq_refl x) H1) as Hk.
      rewrite Hr in Hk. exact Hk.
    - pose proof (recovered_not_nil drv x w1) as Hn. rewrite Hr in Hn. exact Hn. }
  unfold Run. destruct (from =? to) eqn:Hb.
  { intros E. inversion E; subst. fold n. lia. }
  unfold bind at 1.
  pose proof (Begin_on_trace drv (fun e => commit_done e = false) _
                (accepted_app n) other_calls_not_accepted w Hw) as HB.
  destruct (Begin drv w) as [w0 [[]|x]];
    [|intros E; inversion E; subst; unfold on_trace in HB; lia].
  unfold with_recover, Run_body.
  change (if from <? to
          then forward_loop drv StructNameToTableName info from (Z.to_nat (to - from))
          else reverse_loop drv StructNameToTableName info (from - 1)
                            (Z.to_nat (from - to)))
    with (Run_loop drv StructNameToTableName info from to).
  unfold bind at 1.
  pose proof (Run_loop_on_trace drv StructNameToTableName
                (fun e => commit_done e = false) _
                (accepted_app n) other_calls_not_accepted info from to w0 HB) as HL.
  destruct (Run_loop drv StructNameToTableName info from to w0) as [w1 [[e|]|x]];
    unfold on_trace in HL.
  - intros E. inversion E; subst. lia.
  - unfold bind. pose proof (Commit_accepted drv n w1 HL) as HC.
    destruct (Commit drv w1) as [w2 [[]|x]].
    + intros E. inversion E; subst. lia.
    + intros E. destruct (Hrec x w2 w' o HC E) as [Hn Ho].
      destruct o as [[e|]|y]; try congruence; lia.
  - intros E. destruct (Hrec x w1 w' o HL E) as [Hn Ho].
    destruct o as [[e|]|y]; try congruence; lia.
Qed.

(** C2, as the code has it: [Run] asks the database to commit exactly
    once when every step of the range went through and the transaction
    they leave is still open on a live handle, and never on any other
    path: not when [from = to], not when a step returned an error, not
    when something panicked, and not when the steps returned nil after a
    [FindAll] or [Save] of theirs had rolled the transaction back.  The
    commit is accepted exactly when [Run] returns nil for a range that is
    not empty.  Steps that went through have all returned nil. *)
Theorem Run_commits_once
        (drv : World -> call -> response) (StructNameToTableName : string -> string)
        (info : list ReversibleMigration) (from to : Z) (w : World) :
  let run := Run drv StructNameToTableName info from to w in
  count is_commit (trace (fst run))
  = (count is_commit (trace w)
     + (if all_steps_succeed drv StructNameToTableName info from to w then 1 else 0))%nat /\
  count commit_done (trace (fst run))
  = (count commit_done (trace w)
     + match snd run with
       | Normal None => if (from =? to)%Z then 0 else 1
       | _ => 0
       end)%nat /\
  (all_steps_succeed drv StructNameToTableName info from to w = true ->
   all_steps_return_nil drv StructNameToTableName info from to w = true).
Proof.
  intros run. split; [apply Run_commit_calls|]. split.
  - subst run.
    destruct (Run drv StructNameToTableName info from to w) as [w' o] eqn:E.
    exact (Run_commit_accepted drv StructNameToTableName info from to w w' o E).
  - unfold all_steps_succeed, all_steps_return_nil.
    destruct (from =? to); [discriminate|].
    destruct (Begin drv w) as [w0 [[]|x]]; [|discriminate].
    destruct (Run_loop drv StructNameToTableName info from to w0) as [w1 [[e|]|x]];
      auto.
Qed.

(** C2 fails as it is worded.  The data phase of the second step goes on
    after a failed [FindAll], which has rolled the transaction back, and
    returns nil: every step of the range has returned nil, yet [Run] asks
    for no commit; its [Commit] panics for want of a transaction, and so
    does the rollback of the deferred function. *)
Lemma steps_return_nil_without_commit :
  let info := All Scenario.forgetfulMigrations in
  let r := Run Example.find_fails toSnake info 1 2 Example.fresh in
  all_steps_return_nil Example.find_fails toSnake info 1 2 Example.fresh = true /\
  all_steps_succeed Example.find_fails toSnake info 1 2 Example.fresh = false /\
  count is_commit (trace (fst r)) = 0%nat /\
  snd r = Panicked (PString "no transaction in progress, cannot rollback!").
Proof. vm_compute. repeat split. Qed.
